(** * compare-locales: parser and comparison engine

    A shallow embedding of [compare_locales/parser.py] and
    [compare_locales/compare.py] (Python 2), with the properties of the
    tokenizer, the diff engine, the merge step and the observers stated and
    proved over it.

    Python [unicode] text is a list of code points ([text]); Python [str]
    constants of the program (categories, verdicts, statistic names) are Rocq
    strings.  Dictionaries are [gmap]s, sets are [gset]s. *)

From Stdlib Require Import ZArith NArith Lia Ascii.
From stdpp Require Import gmap strings list sorting.

Local Open Scope nat_scope.

(** ** Text *)

Definition text := list N.

Definition t (s : string) : text :=
  (fun a => N_of_ascii a) <$> String.list_ascii_of_string s.

Definition NL : N := 10%N.
Definition nl : text := [NL].
Definition BACKSLASH : N := 92%N.
Definition DQUOTE : N := 34%N.
Definition SQUOTE : N := 39%N.

(** Python's [s[a:b]] for integer indices: negative indices count from the
    end, indices are clipped to the length, an empty range gives [[]]. *)
Definition clip_index (len i : Z) : Z :=
  if (i <? 0)%Z then Z.max 0 (i + len) else Z.min i len.

Definition pyslice {A} (s : list A) (a b : Z) : list A :=
  let len := Z.of_nat (length s) in
  let a' := clip_index len a in
  let b' := clip_index len b in
  take (Z.to_nat (b' - a')) (drop (Z.to_nat a') s).

Definition slice {A} (s : list A) (sp : Z * Z) : list A :=
  pyslice s (fst sp) (snd sp).

(** ** Regular expressions: the fragment of Python's [re] the grammars use

    A backtracking matcher in continuation-passing style, with the priorities
    of [sre]: the left alternative first, greedy repetition longest first,
    lazy repetition shortest first; the first success is the match. *)

Inductive cclass :=
| OneOf (ranges : list (N * N))      (* [a-bc-d] *)
| NoneOf (ranges : list (N * N)).    (* [^a-bc-d] *)

Definition in_ranges (rs : list (N * N)) (c : N) : bool :=
  existsb (fun r => (fst r <=? c)%N && (c <=? snd r)%N) rs.

Definition cl_mem (cl : cclass) (c : N) : bool :=
  match cl with
  | OneOf rs => in_ranges rs c
  | NoneOf rs => negb (in_ranges rs c)
  end.

Inductive regex :=
| Eps
| Chr (cl : cclass)
| Seq (a b : regex)
| Alt (a b : regex)
| Star (greedy : bool) (a : regex)     (* a* when greedy, a*? otherwise *)
| Group (n : nat) (a : regex)          (* capturing group number n *)
| Bol (multiline : bool)               (* ^ *)
| Eol (multiline : bool)               (* $ *)
| NotAhead (a : regex).                (* (?!a) *)

(** The matcher's cursor: the offset, the character before it, the text
    from it on, and the groups captured so far (latest first). *)
Record cursor := Cursor {
  pos : nat;
  prev : option N;
  rest : text;
  caps : list (nat * (nat * nat))
}.

Definition orelse {A} (x y : option A) : option A :=
  match x with Some _ => x | None => y end.

Definition at_bol (multiline : bool) (s : cursor) : bool :=
  match pos s with
  | O => true
  | S _ => multiline && bool_decide (prev s = Some NL)
  end.

Definition at_eol (multiline : bool) (s : cursor) : bool :=
  match rest s with
  | [] => true
  | c :: tl =>
      bool_decide (c = NL) &&
      (multiline || match tl with [] => true | _ => false end)
  end.

Definition step (s : cursor) (c : N) (tl : text) : cursor :=
  {| pos := S (pos s); prev := Some c; rest := tl; caps := caps s |}.

Definition capture (n : nat) (from : cursor) (s : cursor) : cursor :=
  {| pos := pos s; prev := prev s; rest := rest s;
     caps := (n, (pos from, pos s)) :: caps s |}.

(** Repetition of [body], at most [n] times: one more iteration first when
    greedy, the continuation first when lazy.  Every repetition in the
    program's patterns has a body that consumes at least one character, so
    the rule of [sre] for an iteration that consumes nothing never applies;
    such an iteration is not repeated here. *)
Fixpoint star_loop (body : cursor -> (cursor -> option cursor) -> option cursor)
  (greedy : bool) (k : cursor -> option cursor) (n : nat) (s : cursor)
  : option cursor :=
  match n with
  | O => k s
  | S n' =>
      let more :=
        body s (fun s' =>
          if pos s <? pos s' then star_loop body greedy k n' s' else None) in
      if greedy then orelse more (k s) else orelse (k s) more
  end.

Fixpoint rmatch (r : regex) (s : cursor) (k : cursor -> option cursor)
  : option cursor :=
  match r with
  | Eps => k s
  | Chr cl =>
      match rest s with
      | c :: tl => if cl_mem cl c then k (step s c tl) else None
      | [] => None
      end
  | Seq a b => rmatch a s (fun s' => rmatch b s' k)
  | Alt a b => orelse (rmatch a s k) (rmatch b s k)
  | Star greedy a => star_loop (rmatch a) greedy k (length (rest s)) s
  | Group n a => rmatch a s (fun s' => k (capture n s s'))
  | Bol ml => if at_bol ml s then k s else None
  | Eol ml => if at_eol ml s then k s else None
  | NotAhead a =>
      match rmatch a s Some with
      | Some _ => None
      | None => k s
      end
  end.

(** A lower bound on the length of what a pattern matches. *)
Fixpoint min_len (r : regex) : nat :=
  match r with
  | Chr _ => 1
  | Seq a b => min_len a + min_len b
  | Alt a b => min_len a `min` min_len b
  | Group _ a => min_len a
  | _ => 0
  end.

(** A match object: [m.start()], [m.end()] and the captured groups. *)
Record rematch := ReMatch {
  m_start : nat;
  m_end : nat;
  m_caps : list (nat * (nat * nat))
}.

Definition cursor_at (s : text) (p : nat) : cursor :=
  let p := p `min` length s in
  {| pos := p;
     prev := match p with O => None | S q => s !! q end;
     rest := drop p s;
     caps := [] |}.

(** [pattern.match(s, p)] *)
Definition re_match (r : regex) (s : text) (p : nat) : option rematch :=
  let c := cursor_at s p in
  match rmatch r c Some with
  | Some f => Some (ReMatch (pos c) (pos f) (caps f))
  | None => None
  end.

Fixpoint search_from (r : regex) (s : text) (n : nat) (p : nat)
  : option rematch :=
  match n with
  | O => None
  | S n' =>
      match re_match r s p with
      | Some m => Some m
      | None => search_from r s n' (S p)
      end
  end.

(** [pattern.search(s, p)] *)
Definition re_search (r : regex) (s : text) (p : nat) : option rematch :=
  search_from r s (S (length s) - p) p.

(** [pattern.search(s, p, endpos)]: as if [s] were [endpos] long. *)
Definition re_search_in (r : regex) (s : text) (p endpos : nat)
  : option rematch :=
  re_search r (take endpos s) p.

(** [m.span(i)]; [(-1, -1)] for a group that did not take part. *)
Definition span (m : rematch) (i : nat) : Z * Z :=
  match i with
  | O => (Z.of_nat (m_start m), Z.of_nat (m_end m))
  | _ =>
      match list_find (fun c => fst c = i) (m_caps m) with
      | Some (_, (_, (a, b))) => (Z.of_nat a, Z.of_nat b)
      | None => ((-1)%Z, (-1)%Z)
      end
  end.

(** [m.group()] *)
Definition group0 (s : text) (m : rematch) : text := slice s (span m 0).

(** [pattern.sub(repl, s)] for a pattern that never matches the empty
    string: the text between the matches is kept, each match is replaced. *)
Fixpoint sub_from (r : regex) (repl : rematch -> text) (s : text)
  (n : nat) (p : nat) : text :=
  match n with
  | O => drop p s
  | S n' =>
      match re_search r s p with
      | Some m =>
          take (m_start m - p) (drop p s) ++ repl m ++
          (if m_start m <? m_end m
           then sub_from r repl s n' (m_end m)
           else drop (m_end m) s)
      | None => drop p s
      end
  end.

Definition re_sub (r : regex) (repl : rematch -> text) (s : text) : text :=
  sub_from r repl s (S (length s)) 0.

(** *** Pattern notation *)

Definition ch (c : N) : regex := Chr (OneOf [(c, c)]).
Definition lit (s : string) : regex :=
  foldr (fun c r => Seq (ch c) r) Eps (t s).
Definition seqs (rs : list regex) : regex := foldr Seq Eps rs.
Definition star (a : regex) : regex := Star true a.
Definition lazy_star (a : regex) : regex := Star false a.
Definition plus (a : regex) : regex := Seq a (Star true a).
Definition lazy_plus (a : regex) : regex := Seq a (Star false a).
Definition opt (a : regex) : regex := Alt a Eps.

(** Without [re.UNICODE] (Python 2), [\s] is [ \t\n\r\f\v] and [\w] is
    [a-zA-Z0-9_]. *)
Definition ws_ranges : list (N * N) := [(9, 13); (32, 32)]%N.
Definition word_ranges : list (N * N) :=
  [(48, 57); (65, 90); (95, 95); (97, 122)]%N.
Definition ws : regex := Chr (OneOf ws_ranges).
Definition word : regex := Chr (OneOf word_ranges).
Definition blank : regex := Chr (OneOf [(32, 32); (9, 9)]%N).   (* [ \t] *)
Definition dot : regex := Chr (NoneOf [(NL, NL)]).              (* . *)
Definition dot_all : regex := Chr (NoneOf []).                  (* . with re.S *)

(** ** The grammars' patterns (parser.py) *)

Definition hyphen : N := 45%N.
Definition not_hyphen : regex := Chr (NoneOf [(hyphen, hyphen)]).    (* [^-] *)

(** *** DTDParser *)

Definition CharMinusDash : list (N * N) :=
  [(0x09, 0x09); (0x0A, 0x0A); (0x0D, 0x0D); (0x20, 0x2C);
   (0x2E, 0xD7FF); (0xE000, 0xFFFD)]%N.

(** [DTDParser.XmlComment]: an opening [<!--], lazily many characters of
    [CharMinusDash], each optionally preceded by one hyphen, then [-->]. *)
Definition XmlComment : regex :=
  seqs [lit "<!--";
        lazy_star (Seq (opt (ch hyphen)) (Chr (OneOf CharMinusDash)));
        lit "-->"].

Definition NameStartChar : list (N * N) :=
  [(58, 58); (65, 90); (95, 95); (97, 122);
   (0xC0, 0xD6); (0xD8, 0xF6); (0xF8, 0x2FF);
   (0x370, 0x37D); (0x37F, 0x1FFF); (0x200C, 0x200D); (0x2070, 0x218F);
   (0x2C00, 0x2FEF); (0x3001, 0xD7FF); (0xF900, 0xFDCF); (0xFDF0, 0xFFFD)]%N.

Definition NameChar : list (N * N) :=
  NameStartChar ++
  [(45, 45); (46, 46); (48, 57); (0xB7, 0xB7); (0x300, 0x36F);
   (0x203F, 0x2040)]%N.

Definition Name : regex :=
  Seq (Chr (OneOf NameStartChar)) (star (Chr (OneOf NameChar))).

(** A string between two quotes [q] holding no [q]. *)
Definition quoted (q : N) : regex :=
  seqs [ch q; star (Chr (NoneOf [(q, q)])); ch q].

(** The [post] group of [reKey] and [rePE]: blanks, comments each followed
    by white space, and an optional newline. *)
Definition dtd_post : regex :=
  seqs [star blank; star (Seq XmlComment (star ws)); opt (ch NL)].

Definition DTD_reKey : regex :=
  seqs [Group 1 (star ws);
        Group 2 (star (Seq XmlComment (star ws)));
        Group 3 (seqs [lit "<!ENTITY"; plus ws; Group 4 Name; plus ws;
                       Group 5 (Alt (quoted DQUOTE)
                                    (seqs [ch SQUOTE;
                                           star (Chr (NoneOf [(SQUOTE, SQUOTE)]));
                                           opt (ch SQUOTE)]));
                       star ws; ch 62]);
        opt (Group 6 dtd_post)].

Definition DTD_reHeader : regex :=
  seqs [Bol false; opt (ch 0xFEFF);
        opt (Group 1
          (seqs [star ws; lit "<!--"; star dot_all;
                 Group 2 (Alt (lit "http://mozilla.org/MPL/2.0/")
                              (lit "LICENSE BLOCK"));
                 star (Group 3 (Seq (plus not_hyphen) (ch hyphen)));
                 plus not_hyphen; lit "-->"]))].

(** The comment with the white space after it that the footer repeats. *)
Definition DTD_footer_comment : regex :=
  seqs [lit "<!--";
        star (Group 2 (Seq (plus not_hyphen) (ch hyphen)));
        plus not_hyphen; lit "-->"; star ws].

Definition DTD_reFooter : regex :=
  seqs [star ws; star (Group 1 DTD_footer_comment); Eol false].

Definition DTD_rePE : regex :=
  seqs [Group 1 (star ws);
        Group 2 (star (Seq XmlComment (star ws)));
        Group 3 (seqs [lit "<!ENTITY"; plus ws; ch 37; plus ws;
                       Group 4 Name; plus ws; lit "SYSTEM"; plus ws;
                       Group 5 (Alt (quoted DQUOTE) (quoted SQUOTE));
                       star ws; ch 62; star ws; ch 37; Name; ch 59]);
        opt (Group 6 dtd_post)].

(** *** PropertiesParser *)

Definition hash_bang : regex := Chr (OneOf [(35, 35); (33, 33)]%N).   (* [#!] *)

Definition Properties_reKey : regex :=
  seqs [Bol true;
        Group 1 (star ws);
        Group 2 (star (seqs [hash_bang; lazy_star dot; ch NL; star ws]));
        Group 3 (Seq (Chr (NoneOf ([(35, 35); (33, 33)]%N ++ ws_ranges
                                   ++ [(NL, NL)])))
                     (lazy_star (Chr (NoneOf [(61, 61); (58, 58); (NL, NL)]%N))));
        star ws; Chr (OneOf [(58, 58); (61, 61)]%N); star blank].

(** A comment up to the end of its line, with the white space after it:
    the group that the header and the footer repeat. *)
Definition Properties_comment : regex :=
  seqs [hash_bang; star dot; star ws].

Definition Properties_reHeader : regex :=
  seqs [Bol false; star ws; plus (Group 1 Properties_comment)].

Definition Properties_reFooter : regex :=
  seqs [star ws; star (Group 1 Properties_comment); Eol false].

(** [PropertiesParser._escapedEnd]: one or more backslashes, then [$]. *)
Definition escapedEnd : regex := Seq (plus (ch BACKSLASH)) (Eol false).

(** [PropertiesParser._trailingWS]: blanks, then [$]. *)
Definition trailingWS : regex := Seq (star blank) (Eol false).

Definition hexdigit : regex :=
  Chr (OneOf [(48, 57); (97, 102); (65, 70)]%N).

(** [PropertiesParser.escape] (re.M): a backslash, then [u] and one to four
    hexadecimal digits (group [uni], number 2), or a newline and white space
    (group [nl], number 3), or any one character but a newline (group
    [single], number 4). *)
Definition escape : regex :=
  seqs [ch BACKSLASH;
        Group 1
          (Alt (Group 2 (seqs [ch 117; hexdigit;
                               opt (Seq hexdigit
                                      (opt (Seq hexdigit (opt hexdigit))))]))
          (Alt (Group 3 (Seq (ch NL) (star ws)))
               (Group 4 dot)))].

(** *** DefinesParser *)

(** A line starting with [#] that is no [#define]: the repeated group of
    the header, the footer and the pre-comment of DefinesParser. *)
Definition non_define_line : regex :=
  seqs [ch 35; NotAhead (Seq (lit "define") ws); star dot; star ws].

Definition Defines_reKey : regex :=
  seqs [Bol true;
        Group 1 (star ws);
        Group 2 (star (Seq (Bol true) non_define_line));
        Group 3 (seqs [lit "#define"; plus blank; Group 4 (plus word);
                       plus blank; Group 5 (lazy_star dot)]);
        Group 6 (seqs [star blank; Eol true; opt (ch NL)])].

Definition Defines_reHeader : regex :=
  seqs [Bol false; star ws; star (Group 1 non_define_line)].

Definition Defines_reFooter : regex :=
  seqs [star ws; star (Group 1 non_define_line); Eol true].

(** *** IniParser *)

Definition semi_hash : regex := Chr (OneOf [(59, 59); (35, 35)]%N).   (* [;#] *)

Definition Ini_reHeader : regex :=
  seqs [Bol true;
        star (Group 1 (Seq (Alt (star ws) (Seq semi_hash (star dot)))
                           (ch NL)));
        ch 91; lazy_plus dot; ch 93; ch NL].

Definition Ini_reKey : regex :=
  seqs [Group 1 (star ws);
        Group 2 (star (seqs [semi_hash; star dot; ch NL; star ws]));
        Group 3 (seqs [Group 4 (lazy_plus dot); ch 61; Group 5 (star dot)]);
        Group 6 (opt (ch NL))].

Definition Ini_comment : regex :=
  seqs [semi_hash; star dot; star ws].

Definition Ini_reFooter : regex :=
  seqs [star ws; star (Group 1 Ini_comment); Eol false].

(** ** parser.py *)

(** [Parser.Context.lines]: the offsets just after each newline (the list
    [_lines], cached by the program on first use). *)
Fixpoint newline_ends (s : text) (i : nat) : list Z :=
  match s with
  | [] => []
  | c :: tl =>
      if bool_decide (c = NL)
      then Z.of_nat (S i) :: newline_ends tl (S i)
      else newline_ends tl (S i)
  end.

(** [bisect.bisect] on an ascending list: the number of entries [<= p]. *)
Definition bisect (l : list Z) (p : Z) : nat :=
  length (filter (fun x => (x <= p)%Z) l).

(** [ctx.lines(p)[0]]: line and column of offset [p], both counted from 1. *)
Definition lines (contents : text) (p : Z) : Z * Z :=
  let _lines := newline_ends contents 0 in
  let line := bisect _lines p in
  ((1 + Z.of_nat line)%Z,
   (1 + p - match line with
            | O => 0
            | S l => default 0%Z (_lines !! l)
            end)%Z).

Inductive ParserClass := DTDParser | PropertiesParser | IniParser | DefinesParser.

(** [pp] is the bound method [postProcessValue] of the parser that made the
    entity; it is kept as the parser's class. *)
Record Entity := mkEntity {
  e_ctx : text;
  e_pp : ParserClass;
  e_span : Z * Z;
  pre_ws_span : Z * Z;
  pre_comment_span : Z * Z;
  def_span : Z * Z;
  key_span : Z * Z;
  val_span : Z * Z;
  post_span : Z * Z
}.

Record Junk := mkJunk {
  j_ctx : text;
  j_span : Z * Z;
  j_key : text
}.

(** What the tokenizer yields. *)
Inductive item :=
| IEntity (e : Entity)
| IJunk (j : Junk).

Definition isJunk (e : item) : bool :=
  match e with IJunk _ => true | IEntity _ => false end.

Definition get_span (e : item) : Z * Z :=
  match e with IEntity e => e_span e | IJunk j => j_span j end.

Definition item_ctx (e : item) : text :=
  match e with IEntity e => e_ctx e | IJunk j => j_ctx j end.

Definition get_all (e : item) : text := slice (item_ctx e) (get_span e).

Definition get_key (e : item) : text :=
  match e with
  | IEntity e => slice (e_ctx e) (key_span e)
  | IJunk j => j_key j
  end.

Definition get_raw_val (e : Entity) : text := slice (e_ctx e) (val_span e).

(** [position(offset)] of Entity and Junk. *)
Definition position (e : item) (offset : Z) : Z * Z :=
  let pos := if (offset <? 0)%Z then snd (get_span e)
             else (fst (get_span e) + offset)%Z in
  lines (item_ctx e) pos.

Definition value_position (e : Entity) (offset : Z) : Z * Z :=
  let pos := if (offset <? 0)%Z then snd (val_span e)
             else (fst (val_span e) + offset)%Z in
  lines (e_ctx e) pos.

(** ['%d' % n] *)
Fixpoint dec_digits (fuel : nat) (n : N) (acc : text) : text :=
  match fuel with
  | O => acc
  | S f =>
      let acc' := (48 + n mod 10)%N :: acc in
      if (n / 10 =? 0)%N then acc' else dec_digits f (n / 10)%N acc'
  end.

Definition fmt_d (z : Z) : text :=
  let n := Z.to_N (Z.abs z) in
  (if (z <? 0)%Z then [hyphen] else []) ++ dec_digits (S (N.to_nat n)) n [].

(** [Junk(ctx, span)]: the class counter [junkid] is incremented and the
    key is ['_junk_%d_%d-%d' % (junkid, span[0], span[1])]. *)
Definition newJunk (ctx : text) (a b : nat) (junkid : nat) : Junk * nat :=
  let id := S junkid in
  (mkJunk ctx (Z.of_nat a, Z.of_nat b)
     (t "_junk_" ++ fmt_d (Z.of_nat id) ++ t "_" ++ fmt_d (Z.of_nat a)
      ++ t "-" ++ fmt_d (Z.of_nat b)),
   id).

Definition canMerge (p : ParserClass) : bool :=
  match p with DefinesParser => false | _ => true end.

Definition reKey (p : ParserClass) : regex :=
  match p with
  | DTDParser => DTD_reKey
  | PropertiesParser => Properties_reKey
  | IniParser => Ini_reKey
  | DefinesParser => Defines_reKey
  end.

Definition reHeader (p : ParserClass) : regex :=
  match p with
  | DTDParser => DTD_reHeader
  | PropertiesParser => Properties_reHeader
  | IniParser => Ini_reHeader
  | DefinesParser => Defines_reHeader
  end.

Definition reFooter (p : ParserClass) : regex :=
  match p with
  | DTDParser => DTD_reFooter
  | PropertiesParser => Properties_reFooter
  | IniParser => Ini_reFooter
  | DefinesParser => Defines_reFooter
  end.

(** [needle in hay] *)
Fixpoint contains (needle hay : text) : bool :=
  bool_decide (take (length needle) hay = needle) ||
  match hay with
  | [] => false
  | _ :: tl => contains needle tl
  end.

Definition unichr_hex (digits : text) : N :=
  foldl (fun acc d =>
           (16 * acc +
            (if (d <=? 57) then d - 48
             else if (d <=? 70) then d - 55 else d - 87))%N) 0%N digits.

(** [PropertiesParser.postProcessValue] *)
Definition known_escapes (c : N) : N :=
  if (c =? 110)%N then 10%N          (* n *)
  else if (c =? 114)%N then 13%N     (* r *)
  else if (c =? 116)%N then 9%N      (* t *)
  else c.                            (* the backslash and all others *)

Definition unescape (val : text) (m : rematch) : text :=
  let uni := slice val (span m 2) in
  let nl_ := slice val (span m 3) in
  match uni with
  | _ :: digits => [unichr_hex digits]
  | [] =>
      match nl_ with
      | _ :: _ => []
      | [] => known_escapes <$> slice val (span m 4)
      end
  end.

Definition postProcessValue (p : ParserClass) (val : text) : text :=
  match p with
  | PropertiesParser => re_sub escape (unescape val) val
  | _ => val
  end.

Definition get_val (e : item) : text :=
  match e with
  | IEntity e => postProcessValue (e_pp e) (get_raw_val e)
  | IJunk j => slice (j_ctx j) (j_span j)
  end.

(** [Entity(ctx, pp, *[m.span(i) for i in xrange(7)])] *)
Definition entity_of_groups (p : ParserClass) (ctx : text) (m : rematch)
  : Entity :=
  mkEntity ctx p (span m 0) (span m 1) (span m 2)
    (span m 3) (span m 4) (span m 5) (span m 6).

(** [createEntity]: DTDParser takes the quotes off the value span. *)
Definition createEntity (p : ParserClass) (ctx : text) (m : rematch)
  : Entity :=
  match p with
  | DTDParser =>
      let valspan := span m 5 in
      mkEntity ctx p (span m 0) (span m 1) (span m 2)
        (span m 3) (span m 4) ((fst valspan + 1)%Z, (snd valspan - 1)%Z)
        (span m 6)
  | _ => entity_of_groups p ctx m
  end.

(** [getHeader]: PropertiesParser keeps a header only when it holds the
    licence. *)
Definition getHeader (p : ParserClass) (contents : text) (offset : nat)
  : text * nat :=
  match p with
  | PropertiesParser =>
      match re_match (reHeader p) contents offset with
      | Some h =>
          let candidate := group0 contents h in
          if contains (t "http://mozilla.org/MPL/2.0/") candidate
             || contains (t "LICENSE BLOCK") candidate
          then (candidate, m_end h)
          else ([], offset)
      | None => ([], offset)
      end
  | _ =>
      match re_match (reHeader p) contents 0 with
      | Some h => (group0 contents h, m_end h)
      | None => ([], offset)
      end
  end.

(** The junk up to the next place where [reKey] matches, if there is one. *)
Definition junk_until_key (p : ParserClass) (ctx : text) (offset junkid : nat)
  : option item * nat * nat :=
  match re_search (reKey p) ctx offset with
  | Some m =>
      let junkend := m_start m in
      let '(j, junkid') := newJunk ctx offset junkend junkid in
      (Some (IJunk j), junkend, junkid')
  | None => (None, offset, junkid)
  end.

(** [Parser.getEntity]: the entity, and the new offset; the last component
    is the junk counter. *)
Definition Parser_getEntity (p : ParserClass) (ctx : text)
  (offset junkid : nat) : option item * nat * nat :=
  match re_match (reKey p) ctx offset with
  | Some m => (Some (IEntity (createEntity p ctx m)), m_end m, junkid)
  | None =>
      let footer_here :=
        match re_match (reFooter p) ctx offset with
        | Some f => offset <? m_end f
        | None => false
        end in
      if footer_here then (None, offset, junkid)
      else junk_until_key p ctx offset junkid
  end.

(** [contents.find('\n', offset)] *)
Definition find_nl (contents : text) (offset : nat) : option nat :=
  (fun r => offset + fst r) <$> list_find (fun c => c = NL) (drop offset contents).

(** The loop of [PropertiesParser.getEntity] over the lines of a value:
    [(endval, offset)] when it is left. *)
Fixpoint value_lines (fuel : nat) (contents : text) (offset : nat)
  : option (nat * nat) :=
  match fuel with
  | O => None
  | S f =>
      match find_nl contents offset with
      | None => Some (length contents, length contents)
      | Some nextline =>
          match re_search_in escapedEnd contents offset nextline with
          | None => Some (nextline, nextline + 1)
          | Some _e =>
              if (m_end _e - m_start _e) mod 2 =? 0
              then Some (nextline, nextline + 1)
              else value_lines f contents (nextline + 1)
          end
      end
  end.

Definition Properties_getEntity (ctx : text) (offset junkid : nat)
  : option (option item * nat * nat) :=
  match re_match Properties_reKey ctx offset with
  | Some m =>
      match value_lines (S (length ctx)) ctx (m_end m) with
      | Some (endval, offset) =>
          let endval :=
            match re_search_in trailingWS ctx (m_end m) offset with
            | Some ws => endval - (m_end ws - m_start ws)
            | None => endval
            end in
          let entity :=
            mkEntity ctx PropertiesParser
              (Z.of_nat (m_start m), Z.of_nat offset)
              (span m 1) (span m 2)
              (fst (span m 3), Z.of_nat offset)
              (span m 3)
              (Z.of_nat (m_end m), Z.of_nat endval)
              (Z.of_nat offset, Z.of_nat offset) in
          Some (Some (IEntity entity), offset, junkid)
      | None => None
      end
  | None => Some (junk_until_key PropertiesParser ctx offset junkid)
  end.

Definition DTD_getEntity (ctx : text) (offset junkid : nat)
  : option item * nat * nat :=
  let '(entity, inneroffset, junkid') :=
    Parser_getEntity DTDParser ctx offset junkid in
  match entity with
  | Some (IEntity _) => (entity, inneroffset, junkid')
  | _ =>
      match re_match DTD_rePE ctx offset with
      | Some m =>
          (Some (IEntity (entity_of_groups DTDParser ctx m)), m_end m, junkid')
      | None => (entity, inneroffset, junkid')
      end
  end.

(** [getEntity], by class; [None] only when a loop ran out of fuel. *)
Definition getEntity (p : ParserClass) (ctx : text) (offset junkid : nat)
  : option (option item * nat * nat) :=
  match p with
  | DTDParser => Some (DTD_getEntity ctx offset junkid)
  | PropertiesParser => Properties_getEntity ctx offset junkid
  | _ => Some (Parser_getEntity p ctx offset junkid)
  end.

(** The [while entity:] loop of [Parser.__iter__]. *)
Fixpoint entity_loop (p : ParserClass) (fuel : nat) (ctx : text)
  (offset junkid : nat) : option (list item * nat * nat) :=
  match fuel with
  | O => None
  | S f =>
      match getEntity p ctx offset junkid with
      | Some (Some entity, offset', junkid') =>
          match entity_loop p f ctx offset' junkid' with
          | Some (es, o, j) => Some (entity :: es, o, j)
          | None => None
          end
      | Some (None, offset', junkid') => Some ([], offset', junkid')
      | None => None
      end
  end.

(** What one run of the iterator leaves: the items it yielded, in order,
    the attributes [header] and [footer] it set, and the junk counter. *)
Record iterated := mkIterated {
  header : text;
  yielded : list item;
  footer : text;
  junkid_after : nat
}.

(** [Parser.__iter__], run to its end. *)
Definition Parser_iter (p : ParserClass) (contents : text) (junkid : nat)
  : option iterated :=
  let '(header, offset) := getHeader p contents 0 in
  match entity_loop p (S (length contents)) contents offset junkid with
  | Some (es, offset, junkid) =>
      let '(footer, offset) :=
        match re_match (reFooter p) contents offset with
        | Some f => (group0 contents f, m_end f)
        | None => ([], offset)
        end in
      if offset <? length contents
      then
        let '(j, junkid) := newJunk contents offset (length contents) junkid in
        Some (mkIterated header (es ++ [IJunk j]) footer junkid)
      else Some (mkIterated header es footer junkid)
  | None => None
  end.

(** The body of the loop of [Parser.parse]. *)
Definition parse_step (lm : list item * gmap text nat) (e : item)
  : list item * gmap text nat :=
  (fst lm ++ [e], <[get_key e := length (fst lm)]> (snd lm)).

Definition parse_items (es : list item) : list item * gmap text nat :=
  foldl parse_step ([], ∅) es.

(** [Parser.parse] *)
Definition parse (p : ParserClass) (contents : text) (junkid : nat)
  : option (list item * gmap text nat * nat) :=
  match Parser_iter p contents junkid with
  | Some it => Some (parse_items (yielded it), junkid_after it)
  | None => None
  end.

(** [getParser]: the first class whose pattern is found in the path. *)
Definition constructors : list (regex * ParserClass) :=
  [(seqs [ch 46; lit "dtd"; Eol false], DTDParser);
   (seqs [ch 46; lit "properties"; Eol false], PropertiesParser);
   (seqs [ch 46; lit "ini"; Eol false], IniParser);
   (seqs [ch 46; lit "inc"; Eol false], DefinesParser)].

Definition getParser (path : text) : option ParserClass :=
  snd <$> (snd <$> list_find (fun c => is_Some (re_search (fst c) path 0))
                     constructors).

(** ** compare.py *)

Inductive exn :=
| AssertionError | ZeroDivisionError | KeyError | IndexError | AttributeError.

Inductive result (A : Type) :=
| Ok (a : A)
| Raise (e : exn).
Arguments Ok {A} a.
Arguments Raise {A} e.

Definition bind {A B} (x : result A) (f : A -> result B) : result B :=
  match x with
  | Ok a => f a
  | Raise e => Raise e
  end.

Notation "x <- c1 ;; c2" := (bind c1 (fun x => c2))
  (at level 100, c1 at next level, right associativity).

(** Python's order on [unicode] values: lexicographic on code points. *)
Fixpoint text_leb (a b : text) : bool :=
  match a, b with
  | [], _ => true
  | _ :: _, [] => false
  | x :: a', y :: b' => (x <? y)%N || ((x =? y)%N && text_leb a' b')
  end.

(** [sorted(l, key=key)] and [l.sort(key=key)]: a stable sort; [leb] is the
    order of the sort keys. *)
Section Sorted.
Context {A O : Type} (leb : O -> O -> bool) (key : A -> O).

Fixpoint insert_sorted (x : A) (l : list A) : list A :=
  match l with
  | [] => [x]
  | y :: l' =>
      if leb (key x) (key y) then x :: y :: l'
      else y :: insert_sorted x l'
  end.

Definition sorted (l : list A) : list A := foldr insert_sorted [] l.

(** The order that the sort keys put on the items. *)
Definition key_le (x y : A) : Prop := leb (key x) (key y) = true.
End Sorted.

(** *** AddRemove *)
Section AddRemove.
Context {K : Type} `{Countable K} {O : Type}.
(** The order of the sort keys, and the order in which Python walks
    through a hash set (unspecified by the language). *)
Variable leb : O -> O -> bool.
Variable traversal : gset K -> list K.

Record AddRemove := mkAddRemove {
  ar_left : gset K;
  ar_right : gset K;
  ar_key : K -> O
}.

Definition set_left (ar : AddRemove) (left : list K) : AddRemove :=
  mkAddRemove (list_to_set left) (ar_right ar) (ar_key ar).

Definition set_right (ar : AddRemove) (right : list K) : AddRemove :=
  mkAddRemove (ar_left ar) (list_to_set right) (ar_key ar).

(** The diff object after [AddRemove(key)], [set_left(R)] and
    [set_right(L)]. *)
Definition diff_of (key : K -> O) (R L : list K) : AddRemove :=
  set_right (set_left (mkAddRemove ∅ ∅ key) R) L.

Definition action_of (ar : AddRemove) (item : K) : string :=
  if bool_decide (item ∈ ar_left ar) && bool_decide (item ∈ ar_right ar)
  then "equal"
  else if bool_decide (item ∈ ar_left ar) then "delete"
  else "add".

(** [AddRemove.__iter__] *)
Definition AddRemove_iter (ar : AddRemove) : list (string * K) :=
  (fun item => (action_of ar item, item)) <$>
  sorted leb (ar_key ar) (traversal (ar_left ar ∪ ar_right ar)).
End AddRemove.
Arguments AddRemove K {_ _} O.

(** *** paths.File (an external class): the attributes the comparer reads *)
Record File := mkFile {
  fullpath : text;
  file : text;
  module : option text;
  locale : option text;
  localpath : text;
  getContents : list N              (* the bytes of the file *)
}.

(** *** Observer *)

(** [filter(file)], [filter(file, entity)]: the entity is [None] when the
    program passes none. *)
Definition Filter := File -> option text -> string.

(** The records appended to [details]. *)
Inductive detail :=
| DVerdict (category : string) (rv : string)        (* {category: rv} *)
| DData (category : string) (data : option text)    (* {category: data} *)
| DCount (n : Z).                                   (* {'count': n} *)

(** [details] is a [Tree(list)], a container of one list per file path; it
    is kept here as the sequence of the records appended, each with its
    file. *)
Record Observer := mkObserver {
  o_filter : option Filter;
  summary : gmap (option text) (gmap string Z);
  details : list (File * detail);
  file_stats : option (gmap (option text) (gmap text (gmap string Z)))
}.

Definition add_detail (o : Observer) (f : File) (d : detail) : Observer :=
  mkObserver (o_filter o) (summary o) (details o ++ [(f, d)]) (file_stats o).

(** [self.summary[loc][category] += value] on the [defaultdict]s *)
Definition bump (loc : option text) (category : string) (value : Z)
  (s : gmap (option text) (gmap string Z)) : gmap (option text) (gmap string Z) :=
  let inner := default ∅ (s !! loc) in
  <[loc := <[category := (default 0 (inner !! category) + value)%Z]> inner]> s.

(** [Observer.notify] *)
Definition Observer_notify (o : Observer) (category : string) (f : File)
  (data : option text) : string * Observer :=
  if bool_decide (category ∈ ["missingFile"; "obsoleteFile"]) then
    let rv := match o_filter o with
              | Some filter => filter f None
              | None => "error"
              end in
    (rv, if bool_decide (rv ≠ "ignore")
         then add_detail o f (DVerdict category rv) else o)
  else if bool_decide (category ∈ ["missingEntity"; "obsoleteEntity"]) then
    let rv := match o_filter o with
              | Some filter => filter f data
              | None => "error"
              end in
    if bool_decide (rv = "ignore") then (rv, o)
    else (rv, add_detail o f (DData category data))
  else if bool_decide (category ∈ ["error"; "warning"]) then
    let o' := add_detail o f (DData category data) in
    ("error",
     mkObserver (o_filter o') (bump (locale f) (category +:+ "s") 1 (summary o'))
       (details o') (file_stats o'))
  else ("error", o).

(** [Observer.updateStats] *)
Definition Observer_updateStats (o : Observer) (f : File)
  (stats : gmap string Z) : Observer :=
  let ignored := match o_filter o with
                 | Some filter => bool_decide (filter f (Some []) = "ignore")
                 | None => false
                 end in
  if ignored then o
  else
    let summary' :=
      map_fold (fun category value s => bump (locale f) category value s)
        (summary o) stats in
    let o' := mkObserver (o_filter o) summary' (details o) (file_stats o) in
    match file_stats o with
    | None => o'
    | Some fs =>
        let per_locale := default ∅ (fs !! locale f) in
        let per_file := default ∅ (per_locale !! localpath f) in
        match stats !! "missingInFiles" with
        | Some n =>
            mkObserver (o_filter o) summary' (details o ++ [(f, DCount n)])
              (Some (<[locale f :=
                       <[localpath f := <["missing" := n]> per_file]>
                         per_locale]> fs))
        | None =>
            mkObserver (o_filter o) summary' (details o)
              (Some (<[locale f :=
                       <[localpath f := stats ∪ per_file]> per_locale]> fs))
        end
    end.

(** [sum([summary[k] for k in ks if k in summary])] *)
Definition sum_present (summary : gmap string Z) (ks : list string) : Z :=
  foldr Z.add 0%Z (omap (fun k => summary !! k) ks).

(** [a / b] on Python 2 integers *)
Definition py_div (a b : Z) : result Z :=
  if (b =? 0)%Z then Raise ZeroDivisionError else Ok (a / b)%Z.

(** [('changed' in summary and summary['changed'] * 100) or 0] *)
Definition changed_times_100 (summary : gmap string Z) : Z :=
  match summary !! "changed" with
  | Some c => if (c * 100 =? 0)%Z then 0%Z else (c * 100)%Z
  | None => 0%Z
  end.

Definition classified : list string :=
  ["changed"; "unchanged"; "report"; "missing"; "missingInFiles"].

Inductive jvalue :=
| JStr (s : text)
| JNum (n : Z).

(** One item (dashboard row) of [Observer.toExhibit], for one locale. *)
Definition exhibit_item (loc : option text) (summary : gmap string Z)
  : result (gmap string jvalue) :=
  let item : gmap string jvalue :=
    match loc with
    | Some l => {[ "id" := JStr (t "xxx/" ++ l); "label" := JStr l;
                   "locale" := JStr l ]}
    | None => {[ "id" := JStr (t "xxx"); "label" := JStr (t "xxx");
                 "locale" := JStr (t "xxx") ]}
    end in
  let item := <["type" := JStr (t "Build")]> item in
  let total := sum_present summary classified in
  let total_w := sum_present summary ["changed_w"; "unchanged_w"; "missing_w"] in
  rate <- py_div (changed_times_100 summary) total ;;
  let get k := default 0%Z (summary !! k) in
  let item :=
    foldr (fun k it => <[k := JNum (get k)]> it) item ["changed"; "unchanged"] in
  let item :=
    foldr (fun k it => match summary !! k with
                       | Some v => <[k := JNum v]> it
                       | None => it
                       end) item ["report"; "errors"; "warnings"] in
  let missing := (get "missing" + get "missingInFiles")%Z in
  let item := <["missing" := JNum missing]> item in
  let item := <["completion" := JNum rate]> item in
  let item := <["total" := JNum total]> item in
  let item :=
    foldr (fun k it => <[k := JNum (get k)]> it) item
      ["changed_w"; "unchanged_w"; "missing_w"] in
  let item := <["total_w" := JNum total_w]> item in
  let warnings := match item !! "warnings" with Some (JNum n) => n | _ => 0%Z end in
  let errors := match item !! "errors" with Some (JNum n) => n | _ => 0%Z end in
  let result :=
    if negb (errors =? 0)%Z || negb (missing =? 0)%Z then t "failure"
    else if negb (warnings =? 0)%Z then t "warning"
    else t "success" in
  Ok (<["result" := JStr result]> item).

(** The [items] of [Observer.toExhibit], locales in ascending order. *)
Fixpoint exhibit_items (rows : list (option text * gmap string Z))
  : result (list (gmap string jvalue)) :=
  match rows with
  | [] => Ok []
  | (loc, summary) :: rows' =>
      item <- exhibit_item loc summary ;;
      items <- exhibit_items rows' ;;
      Ok (item :: items)
  end.

(** The place of a locale in [sorted(self.summary.iterkeys())]: [None]
    comes before every string, strings are in their own order. *)
Definition locale_key (loc : option text) : text :=
  match loc with Some l => 1%N :: l | None => [] end.

Definition toExhibit (o : Observer) : result (list (gmap string jvalue)) :=
  exhibit_items
    (sorted text_leb (fun r => locale_key (fst r)) (map_to_list (summary o))).

(** The rate printed by [Observer.serialize] in its text form. *)
Definition serialize_rate (summary : gmap string Z) : result Z :=
  let total := sum_present summary classified in
  if (total =? 0)%Z then Ok 0%Z
  else py_div (changed_times_100 summary) total.

(** The lines [Observer.serialize] prints for one locale. *)
Definition serialize_summary (loc : option text) (summary : gmap string Z)
  : result (list text) :=
  rate <- serialize_rate summary ;;
  Ok (match loc with Some l => [l ++ t ":"] | None => [] end
      ++ ((fun kv => t (fst kv) ++ t ": " ++ fmt_d (snd kv)) <$>
          sorted text_leb (fun kv => t (fst kv)) (map_to_list summary))
      ++ [fmt_d rate ++ t "% of entries changed"]).

(** *** ContentComparer *)

Record ContentComparer := mkComparer {
  observers : list Observer;
  stat_observers : list Observer
}.

Definition notify_each (obs : list Observer) (category : string) (f : File)
  (data : option text) : list (string * Observer) :=
  (fun o => Observer_notify o category f data) <$> obs.

(** [ContentComparer.notify]: the verdict and the comparer with its
    observers as the call leaves them. *)
Definition ContentComparer_notify (c : ContentComparer) (category : string)
  (f : File) (data : option text) : result (string * ContentComparer) :=
  let rs := notify_each (observers c) category f data in
  let rvs : gset string := list_to_set (rs.*1) in
  if forallb (fun rv => bool_decide (rv = "ignore")) (elements rvs)
  then Ok ("ignore", mkComparer (rs.*2) (stat_observers c))
  else
    let rvs := rvs ∖ {["ignore"]} in
    let c' := mkComparer (rs.*2)
                ((notify_each (stat_observers c) category f data).*2) in
    if bool_decide ("error" ∈ rvs) then Ok ("error", c')
    else if bool_decide (size rvs = 1) then
      match elements rvs with
      | rv :: _ => Ok (rv, c')
      | [] => Raise KeyError
      end
    else Raise AssertionError.

(** [ContentComparer.updateStats] *)
Definition ContentComparer_updateStats (c : ContentComparer) (f : File)
  (stats : gmap string Z) : ContentComparer :=
  mkComparer ((fun o => Observer_updateStats o f stats) <$> observers c)
             ((fun o => Observer_updateStats o f stats) <$> stat_observers c).

Definition ensureNewline (s : text) : text :=
  if bool_decide (last s = Some NL) then s else s ++ nl.

Fixpoint mapM {A B} (f : A -> result B) (l : list A) : result (list B) :=
  match l with
  | [] => Ok []
  | x :: l' =>
      y <- f x ;;
      ys <- mapM f l' ;;
      Ok (y :: ys)
  end.

(** [entities[map[key]]] *)
Definition entity_at (entities : list item) (map : gmap text nat) (key : text)
  : result item :=
  match map !! key with
  | None => Raise KeyError
  | Some i =>
      match entities !! i with
      | None => Raise IndexError
      | Some e => Ok e
      end
  end.

(** The chunks of the localized text that [merge] writes around the skipped
    spans. *)
Fixpoint splice (contents : text) (offset : Z) (skips : list item)
  : list text :=
  match skips with
  | [] => [pyslice contents offset (Z.of_nat (length contents))]
  | skip :: skips' =>
      let chunk := get_span skip in
      pyslice contents offset (fst chunk) :: splice contents (snd chunk) skips'
  end.

Inductive CheckPos :=
| PosOffset (offset : Z)
| PosLineCol (line col : Z).

(** What a checker reports for a pair of entities: severity, position,
    message, category. *)
Definition Checker := item -> item -> list (string * CheckPos * text * string).

(** The local variables of [compare]: the nine counters by name, the keys
    of the missing entities and the items to skip when merging. *)
Record tally := mkTally {
  counts : gmap string Z;
  missings : list text;
  skips : list item
}.

Definition count (tl : tally) (name : string) (n : Z) : tally :=
  mkTally (<[name := (default 0%Z (counts tl !! name) + n)%Z]> (counts tl))
          (missings tl) (skips tl).

Definition add_missing (tl : tally) (key : text) : tally :=
  mkTally (counts tl) (missings tl ++ [key]) (skips tl).

Definition add_skip (tl : tally) (e : item) : tally :=
  mkTally (counts tl) (missings tl) (skips tl ++ [e]).

Definition keyRE : regex :=
  seqs [Chr (OneOf [(107, 107); (75, 75)]%N); lit "ey"].

Section Comparer.
(** Collaborators outside parser.py and compare.py: the codec of the
    parser's encoding ([decode] gives the text, or the message of the
    exception), [countWords] (which depends on the Unicode tables through
    re.U and [unicode.split]), [getChecker], and the order in which a set of
    keys is walked through. *)
Variable decode : list N -> text + text.
Variable encode : text -> list N.
Variable countWords : text -> Z.
Variable getChecker : File -> list item -> option Checker.
Variable traversal : gset text -> list text.

(** [ContentComparer.merge]: the bytes written to [merge_file]. *)
Definition merge (ref_entities : list item) (ref_map : gmap text nat)
  (ref_file l10n_file : File) (missing : list text) (skips : list item)
  (contents : text) (canMerge : bool) : result (list N) :=
  if negb canMerge then Ok (getContents ref_file)
  else
    let skips := sorted Z.leb (fun s => fst (get_span s)) skips in
    missing_all <-
      mapM (fun key => e <- entity_at ref_entities ref_map key ;;
                       Ok (get_all e)) missing ;;
    skipped_all <-
      mapM (fun skip => e <- entity_at ref_entities ref_map (get_key skip) ;;
                        Ok (get_all e))
           (filter (fun s => isJunk s = false) skips) ;;
    let trailing := nl :: missing_all ++ skipped_all in
    let copied :=
      match skips with
      | [] => getContents l10n_file
      | _ => concat (encode <$> splice contents 0 skips)
      end in
    Ok (copied ++ encode (concat (ensureNewline <$> trailing))).

(** One report of the checker, in the [equal] branch of [compare]. *)
Definition check_step (l10n : File) (merge_requested : bool)
  (refent l10nent : item) (st : ContentComparer * tally)
  (rep : string * CheckPos * text * string)
  : result (ContentComparer * tally) :=
  let '(c, tl) := st in
  let '(tp, pos, msg, _) := rep in
  match l10nent with
  | IJunk _ => Raise AttributeError
  | IEntity le =>
      let '(_l, col) :=
        match pos with
        | PosLineCol line col' =>
            let '(_l, col) := value_position le 0 in
            if (line =? 1)%Z then (_l, (col + col')%Z)
            else ((_l + (line - 1))%Z, col')
        | PosOffset offset => value_position le offset
        end in
      let tl := if bool_decide (tp = "error") && merge_requested
                then add_skip tl l10nent else tl in
      r <- ContentComparer_notify c tp l10n
             (Some (msg ++ t " at line " ++ fmt_d _l ++ t ", column "
                    ++ fmt_d col ++ t " for " ++ get_key refent)) ;;
      Ok (snd r, tl)
  end.

Fixpoint foldM {A S} (f : S -> A -> result S) (s : S) (l : list A)
  : result S :=
  match l with
  | [] => Ok s
  | x :: l' => s' <- f s x ;; foldM f s' l'
  end.

(** The body of the loop of [compare] over the diff. *)
Definition compare_step (ref_entities : list item) (ref_map : gmap text nat)
  (l10n_entities : list item) (l10n_map : gmap text nat)
  (ref_file l10n : File) (merge_requested : bool) (checker : option Checker)
  (st : ContentComparer * tally) (ae : string * text)
  : result (ContentComparer * tally) :=
  let '(c, tl) := st in
  let '(action, entity) := ae in
  if bool_decide (action = "delete") then
    r <- ContentComparer_notify c "missingEntity" l10n (Some entity) ;;
    let '(_rv, c) := r in
    if bool_decide (_rv = "ignore") then Ok (c, tl)
    else if bool_decide (_rv = "error") then
      refent <- entity_at ref_entities ref_map entity ;;
      Ok (c, count (count (add_missing tl entity) "missing" 1)
                   "missing_w" (countWords (get_val refent)))
    else Ok (c, count tl "report" 1)
  else if bool_decide (action = "add") then
    l10nent <- entity_at l10n_entities l10n_map entity ;;
    if isJunk l10nent then
      let junk := l10nent in
      let '(l1, c1) := position junk 0 in
      let '(l2, c2) := position junk (-1) in
      r <- ContentComparer_notify c "error" l10n
             (Some (t "Unparsed content " ++ [DQUOTE] ++ get_val junk
                    ++ [DQUOTE] ++ t " from line " ++ fmt_d l1
                    ++ t " column " ++ fmt_d c1 ++ t " to line " ++ fmt_d l2
                    ++ t " column " ++ fmt_d c2)) ;;
      Ok (snd r, if merge_requested then add_skip tl junk else tl)
    else
      r <- ContentComparer_notify c "obsoleteEntity" l10n (Some entity) ;;
      Ok (snd r, if bool_decide (fst r ≠ "ignore")
                 then count tl "obsolete" 1 else tl)
  else
    refent <- entity_at ref_entities ref_map entity ;;
    l10nent <- entity_at l10n_entities l10n_map entity ;;
    let tl :=
      if bool_decide (is_Some (re_search keyRE entity 0))
      then count tl "keys" 1
      else if bool_decide (get_val refent = get_val l10nent)
      then count (count tl "unchanged" 1)
                 "unchanged_w" (countWords (get_val refent))
      else count (count tl "changed" 1)
                 "changed_w" (countWords (get_val refent)) in
    match checker with
    | Some check =>
        foldM (check_step l10n merge_requested refent l10nent) (c, tl)
              (check refent l10nent)
    | None => Ok (c, tl)
    end.

Definition stat_names : list string :=
  ["missing"; "missing_w"; "report"; "obsolete"; "changed"; "changed_w";
   "unchanged"; "unchanged_w"; "keys"].

(** The [stats] dictionary [compare] builds: the counters that are not 0. *)
Definition nonzero_stats (counts : gmap string Z) : gmap string Z :=
  filter (fun kv => kv.2 ≠ 0%Z) counts.

(** [m.keys()], sorted *)
Definition sorted_keys (m : gmap text nat) : list text :=
  sorted text_leb id ((map_to_list m).*1).

(** The diff and the loop over it, from the two parsed files on: the
    comparer and the local variables when the loop is left. *)
Definition compare_entities (c : ContentComparer)
  (ref_entities : list item) (ref_map : gmap text nat)
  (l10n_entities : list item) (l10n_map : gmap text nat)
  (ref_file l10n : File) (merge_requested : bool)
  : result (ContentComparer * tally) :=
  let ref_list := sorted_keys ref_map in
  let l10n_list := sorted_keys l10n_map in
  let ar := set_right (set_left (mkAddRemove ∅ ∅ id) ref_list) l10n_list in
  let checker := getChecker l10n ref_entities in
  foldM (compare_step ref_entities ref_map l10n_entities l10n_map
           ref_file l10n merge_requested checker)
        (c, mkTally ∅ [] [])
        (AddRemove_iter text_leb traversal ar).

(** What a call of the comparer leaves: the comparer, the bytes written to
    the merge file if one was written, and the junk counter. *)
Definition outcome : Type := ContentComparer * option (list N) * nat.

(** [ContentComparer.compare]; [merge_file] is the path of the merge file
    or [None].  [Ok None] stands for a loop of the parser model that ran
    out of fuel, which [parse_total] shows never happens. *)
Definition compare (c : ContentComparer) (ref_file l10n : File)
  (merge_file : option text) (junkid : nat) : result (option outcome) :=
  match getParser (file ref_file) with
  | None => Ok (Some (c, None, junkid))
  | Some p =>
      match decode (getContents ref_file) with
      | inr e =>
          r <- ContentComparer_notify c "error" ref_file (Some e) ;;
          Ok (Some (snd r, None, junkid))
      | inl ref_contents =>
          match parse p ref_contents junkid with
          | None => Ok None
          | Some (ref_entities, ref_map, junkid) =>
              match decode (getContents l10n) with
              | inr e =>
                  r <- ContentComparer_notify c "error" l10n (Some e) ;;
                  Ok (Some (snd r, None, junkid))
              | inl l10n_contents =>
                  match parse p l10n_contents junkid with
                  | None => Ok None
                  | Some (l10n_entities, l10n_map, junkid) =>
                      st <- compare_entities c ref_entities ref_map
                              l10n_entities l10n_map ref_file l10n
                              (bool_decide (is_Some merge_file)) ;;
                      let '(c, tl) := st in
                      merged <-
                        (match merge_file, missings tl, skips tl with
                         | None, _, _ => Ok None
                         | Some _, [], [] => Ok None
                         | Some _, _, _ =>
                             out <- merge ref_entities ref_map ref_file l10n
                                      (missings tl) (skips tl) l10n_contents
                                      (canMerge p) ;;
                             Ok (Some out)
                         end) ;;
                      Ok (Some (ContentComparer_updateStats c l10n
                                  (nonzero_stats (counts tl)),
                                merged, junkid))
                  end
              end
          end
      end
  end.

(** [ContentComparer.remove] *)
Definition remove (c : ContentComparer) (obsolete : File)
  : result ContentComparer :=
  r <- ContentComparer_notify c "obsoleteFile" obsolete None ;;
  Ok (snd r).

(** [ContentComparer.add] *)
Definition add (c : ContentComparer) (orig missing : File) (junkid : nat)
  : result (option (ContentComparer * nat)) :=
  r <- ContentComparer_notify c "missingFile" missing None ;;
  let '(rv, c) := r in
  if bool_decide (rv = "ignore") then Ok (Some (c, junkid))
  else
    match getParser (file orig) with
    | None => Ok (Some (c, junkid))
    | Some p =>
        match decode (getContents orig) with
        | inr e =>
            r <- ContentComparer_notify c "error" orig (Some e) ;;
            Ok (Some (snd r, junkid))
        | inl contents =>
            match parse p contents junkid with
            | None => Ok None
            | Some (entities, map, junkid) =>
                let c :=
                  ContentComparer_updateStats c missing
                    {[ "missingInFiles" := Z.of_nat (size map) ]} in
                let missing_w :=
                  foldl (fun w e => (w + countWords (get_val e))%Z) 0%Z
                        entities in
                Ok (Some (ContentComparer_updateStats c missing
                            {[ "missing_w" := missing_w ]}, junkid))
            end
        end
    end.
End Comparer.

(** ** Notions the properties are stated with *)

(** [s'] is [s] moved forward by at least [n] characters. *)
Definition reaches (n : nat) (s s' : cursor) : Prop :=
  pos s + n <= pos s' /\
  pos s' + length (rest s') = pos s + length (rest s).

(** Item [e] is cut from [ctx], from offset [a] to offset [b]. *)
Definition covers (ctx : text) (a b : nat) (e : item) : Prop :=
  item_ctx e = ctx /\ get_span e = (Z.of_nat a, Z.of_nat b).

(** After a continuation of this kind, greedy white space leaves nothing. *)
Definition to_end (P : nat) (k : cursor -> option cursor) : Prop :=
  (forall s f, P <= pos s -> k s = Some f -> rest f = [] \/ rest s = [NL]) /\
  (forall s, P <= pos s -> rest s = [] -> is_Some (k s)).

(** The end of a pattern that finishes with [$] (no re.M). *)
Definition eol_k (s : cursor) : option cursor :=
  rmatch (Seq (Eol false) Eps) s Some.

(** [G] consumes something and ends with greedy white space. *)
Definition ends_with_ws (G : regex) : Prop :=
  forall s k f, rmatch G s k = Some f ->
    exists s1, reaches 1 s s1 /\
               star_loop (rmatch ws) true k (length (rest s1)) s1 = Some f.

(** The item that the map gives for a key has this key. *)
Definition keyed (entities : list item) (map : gmap text nat) : Prop :=
  forall k e, entity_at entities map k = Ok e -> get_key e = k.

(** The reference has an entity for every missing key, and for the key of
    every entity to skip. *)
Definition refs_ok (ref_entities : list item) (ref_map : gmap text nat)
  (tl : tally) : Prop :=
  Forall (fun k => exists e, entity_at ref_entities ref_map k = Ok e)
         (missings tl) /\
  Forall (fun s => isJunk s = false ->
                   exists e, entity_at ref_entities ref_map (get_key s) = Ok e)
         (skips tl).

(** The missing keys are taken from the diff, in its order; [pre] is the
    part of the diff the loop of [compare] has gone through. *)
Definition merge_inv (ref_entities : list item) (ref_map : gmap text nat)
  (pre : list (string * text)) (st : ContentComparer * tally) : Prop :=
  missings st.2 `sublist_of` pre.*2 /\ refs_ok ref_entities ref_map st.2.

(** What [merge] copies from the localized file before it appends. *)
Definition copied (encode : text -> list N) (l10n_file : File)
  (contents : text) (skips : list item) : list N :=
  let skips := sorted Z.leb (fun s => fst (get_span s)) skips in
  match skips with
  | [] => getContents l10n_file
  | _ => concat (encode <$> splice contents 0 skips)
  end.

(** ** Sample inputs *)

(** On 7-bit bytes the UTF-8 codec of the parsers is the identity; the
    samples hold no other byte, and this codec refuses them. *)
Definition utf8_7bit_decode (bytes : list N) : text + text :=
  if forallb (fun b => (b <? 128)%N) bytes then inl bytes
  else inr (t "'utf8' codec can't decode byte").

Definition utf8_7bit_encode (s : text) : list N := s.

(** A define, two empty lines and a line that is no define. *)
Definition defines_sample : text :=
  t "#define foo bar" ++ nl ++ nl ++ nl ++ t "foo".

Definition properties_sample : text :=
  t "a=1" ++ nl ++ t "b = 2" ++ nl.

(** The key [a] twice. *)
Definition repeated_key_sample : text :=
  t "a=1" ++ nl ++ t "a=2" ++ nl.

(** [ContentComparer.countWords] with [\s], [\w] and [split] read on the
    7-bit tables (the program reads them on the Unicode tables). *)
Definition br : regex := seqs [lit "<br"; star ws; opt (ch 47); ch 62].
Definition sgml : regex :=
  seqs [ch 60; opt (ch 47); plus word; lazy_star dot; ch 62].

Fixpoint count_words (in_word : bool) (s : text) : nat :=
  match s with
  | [] => 0
  | c :: s' =>
      if cl_mem (OneOf ws_ranges) c then count_words false s'
      else (if in_word then 0 else 1) + count_words true s'
  end.

Definition countWords_7bit (value : text) : Z :=
  let value := re_sub br (fun _ => nl) value in
  let value := re_sub sgml (fun _ => []) value in
  Z.of_nat (count_words false value).

(** No checker for the file. *)
Definition no_checker (l10n : File) (reference : list item) : option Checker :=
  None.

(** The comparer of the samples: 7-bit files, no checker, sets walked
    through in the order of [elements]. *)
Definition sample_compare :=
  compare utf8_7bit_decode utf8_7bit_encode countWords_7bit no_checker
    elements.

Definition sample_file (name : string) (bytes : list N) : File :=
  mkFile (t name) (t name) None (Some (t "de")) (t name) bytes.

(** An observer without filter, and one whose filter gives one verdict. *)
Definition plain_observer : Observer := mkObserver None ∅ [] None.

Definition verdict_observer (rv : string) : Observer :=
  mkObserver (Some (fun _ _ => rv)) ∅ [] None.

(** The items of a properties file. *)
Definition sample_items (contents : text) : list item :=
  match Parser_iter PropertiesParser contents 0 with
  | Some it => yielded it
  | None => []
  end.

(** A reference with the key [b] before the key [a]. *)
Definition unordered_reference : text := t "b=1" ++ nl ++ t "a=2" ++ nl.

(** ** compare.py: pickling of an Observer *)

(** [Observer._dictify]: a plain dictionary of plain dictionaries, filled
    key by key. *)
Definition _dictify {K} `{Countable K} {V} (d : gmap K V) : gmap K V :=
  map_fold (fun k v plaindict => <[k := v]> plaindict) ∅ d.

(** The dictionary [__getstate__] returns: the entries [summary] and
    [details], and [file_stats] when the observer collects them. *)
Record ObserverState := mkObserverState {
  st_summary : option (gmap (option text) (gmap string Z));
  st_details : option (list (File * detail));
  st_file_stats : option (gmap (option text) (gmap text (gmap string Z)))
}.

(** [Observer.__getstate__] *)
Definition Observer_getstate (o : Observer) : ObserverState :=
  mkObserverState (Some (_dictify (summary o))) (Some (details o))
    (_dictify <$> file_stats o).

(** [for k, d in state.iteritems(): target[k].update(d)] on a fresh
    [defaultdict] of dictionaries. *)
Definition update_all {K} `{Countable K} {K'} `{Countable K'} {V}
  (state : gmap K (gmap K' V)) : gmap K (gmap K' V) :=
  map_fold (fun k d target => <[k := d ∪ default ∅ (target !! k)]> target)
    ∅ state.

(** [Observer.__setstate__]; [state['details']] raises [KeyError] when the
    entry is missing. *)
Definition Observer_setstate (state : ObserverState) : result Observer :=
  let summary :=
    match st_summary state with
    | Some s => update_all s
    | None => ∅
    end in
  let file_stats := update_all <$> st_file_stats state in
  match st_details state with
  | Some details => Ok (mkObserver None summary details file_stats)
  | None => Raise KeyError
  end.

(** [summary[loc][category]] read on the [defaultdict]s: 0 when there is
    no entry. *)
Definition stat_of (s : gmap (option text) (gmap string Z))
  (loc : option text) (category : string) : Z :=
  default 0%Z (default ∅ (s !! loc) !! category).

(** What [Observer.notify] leaves of an observer for the categories
    [error] and [warning]. *)
Definition recorded (category : string) (f : File) (data : option text)
  (o : Observer) : Observer :=
  mkObserver (o_filter o) (bump (locale f) (category +:+ "s") 1 (summary o))
    (details o ++ [(f, DData category data)]) (file_stats o).

(** The runs of the [while entity:] loop of [Parser.__iter__]: from an
    offset and a junk counter, the items yielded until [getEntity] gives
    none, and the offset and the counter then. *)
Inductive yields (p : ParserClass) (ctx : text)
  : nat -> nat -> list item -> nat -> nat -> Prop :=
| yields_done offset junkid offset' junkid' :
    getEntity p ctx offset junkid = Some (None, offset', junkid') ->
    yields p ctx offset junkid [] offset' junkid'
| yields_more offset junkid e o1 j1 es offset' junkid' :
    getEntity p ctx offset junkid = Some (Some e, o1, j1) ->
    yields p ctx o1 j1 es offset' junkid' ->
    yields p ctx offset junkid (e :: es) offset' junkid'.

(** The items [es] lie side by side in [ctx] from offset [a] to offset [b],
    none of them empty. *)
Fixpoint tiled (ctx : text) (a : nat) (es : list item) (b : nat) : Prop :=
  match es with
  | [] => a = b
  | e :: es' => exists m, a < m /\ covers ctx a m e /\ tiled ctx m es' b
  end.

(** The key of the Junk with counter [id] and span [(a, b)]. *)
Definition junk_key (id a b : nat) : text :=
  t "_junk_" ++ fmt_d (Z.of_nat id) ++ t "_" ++ fmt_d (Z.of_nat a)
  ++ t "-" ++ fmt_d (Z.of_nat b).

(** The Junk of [es] have counters above [lo], in ascending order. *)
Fixpoint junk_ids_above (lo : nat) (es : list item) : Prop :=
  match es with
  | [] => True
  | IEntity _ :: es' => junk_ids_above lo es'
  | IJunk j :: es' =>
      exists id a b, lo < id /\ j_key j = junk_key id a b /\
                     junk_ids_above id es'
  end.

(** The number a string of decimal digits stands for. *)
Definition undigits (s : text) : N :=
  foldl (fun acc d => (10 * acc + (d - 48))%N) 0%N s.

(** ** parser.py: the other getters of Entity *)

Definition get_pre_ws (e : Entity) : text := slice (e_ctx e) (pre_ws_span e).
Definition get_pre_comment (e : Entity) : text :=
  slice (e_ctx e) (pre_comment_span e).
Definition get_def (e : Entity) : text := slice (e_ctx e) (def_span e).
Definition get_post (e : Entity) : text := slice (e_ctx e) (post_span e).

(** ** What a pattern matches

    The matches of a pattern, whatever their priority: [matches r s s'] when
    [r] can take the cursor from [s] to [s'].  The matcher only finds
    matches of this kind ([rmatch_matches]). *)
Inductive matches : regex -> cursor -> cursor -> Prop :=
| matches_Eps s : matches Eps s s
| matches_Chr cl s c tl :
    rest s = c :: tl -> cl_mem cl c = true ->
    matches (Chr cl) s (step s c tl)
| matches_Seq a b s s1 s2 :
    matches a s s1 -> matches b s1 s2 -> matches (Seq a b) s s2
| matches_AltL a b s s' : matches a s s' -> matches (Alt a b) s s'
| matches_AltR a b s s' : matches b s s' -> matches (Alt a b) s s'
| matches_Star0 g a s : matches (Star g a) s s
| matches_StarS g a s s1 s2 :
    matches a s s1 -> pos s < pos s1 -> matches (Star g a) s1 s2 ->
    matches (Star g a) s s2
| matches_Group n a s s' :
    matches a s s' -> matches (Group n a) s (capture n s s')
| matches_Bol ml s : at_bol ml s = true -> matches (Bol ml) s s
| matches_Eol ml s : at_eol ml s = true -> matches (Eol ml) s s
| matches_NotAhead a s :
    rmatch a s Some = None -> matches (NotAhead a) s s.

(** The numbers of the groups a pattern can capture. *)
Fixpoint groups (r : regex) : list nat :=
  match r with
  | Seq a b | Alt a b => groups a ++ groups b
  | Star _ a => groups a
  | Group n a => n :: groups a
  | _ => []
  end.

(** The span captured last for group [i]. *)
Definition cap_of (caps : list (nat * (nat * nat))) (i : nat)
  : option (nat * nat) :=
  snd <$> (snd <$> list_find (fun c => fst c = i) caps).

(** The spans of a match of one of the key patterns: the match goes from
    [a] to [b], the groups 1, 2 and 3 lie side by side from [a] on, group 6
    takes the rest when the pattern has it ([post]), and the group [kg] of
    the key is not empty and lies in group 3. *)
Definition entity_spans (len : nat) (post : bool) (kg : nat) (m : rematch)
  : Prop :=
  exists a p1 p2 p3 b ka kb,
    a <= p1 /\ p1 <= p2 /\ p2 <= p3 /\ p3 <= b /\ b <= len /\
    m_start m = a /\ m_end m = b /\
    span m 1 = (Z.of_nat a, Z.of_nat p1) /\
    span m 2 = (Z.of_nat p1, Z.of_nat p2) /\
    span m 3 = (Z.of_nat p2, Z.of_nat p3) /\
    (post = true ->
     span m 6 = (Z.of_nat p3, Z.of_nat b) \/
     (span m 6 = ((-1)%Z, (-1)%Z) /\ p3 = b)) /\
    p2 <= ka /\ ka < kb /\ kb <= p3 /\
    span m kg = (Z.of_nat ka, Z.of_nat kb).

(** Where the spans of an entity of the loop come from: a match [m] of a
    key pattern from the offset of the call on, and the new offset [o']. *)
Definition entity_from (ctx : text) (e : Entity) (o' : nat) : Prop :=
  e_ctx e = ctx /\
  exists m post kg,
    entity_spans (length ctx) post kg m /\
    m_end m <= o' /\ o' <= length ctx /\ (post = true -> o' = m_end m) /\
    e_span e = (Z.of_nat (m_start m), Z.of_nat o') /\
    pre_ws_span e = span m 1 /\
    pre_comment_span e = span m 2 /\
    def_span e = (fst (span m 3),
                  if post then snd (span m 3) else Z.of_nat o') /\
    key_span e = span m kg /\
    post_span e = (if post then span m 6 else (Z.of_nat o', Z.of_nat o')).

(** The path ends with [ext], or with [ext] and one newline. *)
Definition has_extension (ext : string) (path : text) : Prop :=
  exists stem, path = stem ++ t ext \/ path = stem ++ t ext ++ nl.

(** * Properties *)

(** ** Slices *)

Lemma pyslice_nat {A} (s : list A) (a b : nat) :
  a <= b <= length s ->
  pyslice s (Z.of_nat a) (Z.of_nat b) = take (b - a) (drop a s).
Proof.
  intros Hab. unfold pyslice, clip_index.
  destruct (Z.ltb_spec (Z.of_nat a) 0); [lia|].
  destruct (Z.ltb_spec (Z.of_nat b) 0); [lia|].
  rewrite !Z.min_l by lia.
  rewrite Nat2Z.id. f_equal. lia.
Qed.

Lemma pyslice_to_end {A} (s : list A) (a : nat) :
  a <= length s ->
  pyslice s (Z.of_nat a) (Z.of_nat (length s)) = drop a s.
Proof.
  intros Ha. rewrite pyslice_nat by lia.
  apply take_ge. rewrite length_drop. lia.
Qed.

Lemma take_drop_middle_app {A} (s : list A) (a b : nat) :
  a <= b ->
  take a s ++ take (b - a) (drop a s) = take b s.
Proof.
  intros Hab. rewrite take_take_drop. f_equal. lia.
Qed.

(** ** The matcher *)

Lemma reaches_trans n1 n2 s1 s2 s3 :
  reaches n1 s1 s2 -> reaches n2 s2 s3 -> reaches (n1 + n2) s1 s3.
Proof. unfold reaches. lia. Qed.

Lemma reaches_weaken n n' s s' : n' <= n -> reaches n s s' -> reaches n' s s'.
Proof. unfold reaches. lia. Qed.

(** A successful match went through its continuation, at a cursor further
    on by at least [min_len]. *)
Lemma rmatch_reach r : forall s k f,
  rmatch r s k = Some f ->
  exists s', k s' = Some f /\ reaches (min_len r) s s'.
Proof.
  induction r as [|cl|a IHa b IHb|a IHa b IHb|g a IHa|n a IHa|ml|ml|a IHa];
    intros s k f Hm; simpl in Hm.
  - exists s. split; [done|]. unfold reaches. simpl. lia.
  - destruct (rest s) as [|c tl] eqn:Hr; [done|].
    destruct (cl_mem cl c); [|done].
    exists (step s c tl). split; [done|].
    unfold reaches. simpl. rewrite Hr. simpl. lia.
  - apply IHa in Hm as (s1 & Hm & H1).
    apply IHb in Hm as (s2 & Hm & H2).
    exists s2. split; [done|]. simpl. eapply reaches_trans; eauto.
  - unfold orelse in Hm. destruct (rmatch a s k) eqn:Ha.
    + injection Hm as ->. apply IHa in Ha as (s1 & Hk & H1).
      exists s1. split; [done|]. simpl. eapply reaches_weaken; [|done]. lia.
    + apply IHb in Hm as (s1 & Hk & H1).
      exists s1. split; [done|]. simpl. eapply reaches_weaken; [|done]. lia.
  - revert Hm. generalize (length (rest s)) as n. intros n. revert s f.
    induction n as [|n IHn]; intros s f Hm; simpl in Hm.
    + exists s. split; [done|]. unfold reaches. simpl. lia.
    + assert (Hmore : forall f',
        rmatch a s (fun s' => if pos s <? pos s'
                              then star_loop (rmatch a) g k n s' else None)
          = Some f' ->
        exists s', k s' = Some f' /\ reaches (min_len (Star g a)) s s').
      { intros f' Hf'. apply IHa in Hf' as (s1 & Hf' & H1).
        destruct (pos s <? pos s1); [|done].
        apply IHn in Hf' as (s2 & Hk & H2).
        exists s2. split; [done|].
        eapply reaches_weaken; [|eapply reaches_trans; eauto]. simpl. lia. }
      assert (Hk : forall f', k s = Some f' ->
                exists s', k s' = Some f' /\ reaches (min_len (Star g a)) s s').
      { intros f' Hf'. exists s. split; [done|]. unfold reaches. simpl. lia. }
      destruct g; unfold orelse in Hm.
      * match type of Hm with
        | match ?x with _ => _ end = _ => destruct x eqn:Hx
        end.
        -- injection Hm as ->. by apply Hmore.
        -- by apply Hk.
      * destruct (k s) eqn:Hks.
        -- injection Hm as ->. by apply Hk.
        -- by apply Hmore.
  - apply IHa in Hm as (s1 & Hk & H1).
    exists (capture n s s1). split; [done|]. done.
  - destruct (at_bol ml s); [|done].
    exists s. split; [done|]. unfold reaches. simpl. lia.
  - destruct (at_eol ml s); [|done].
    exists s. split; [done|]. unfold reaches. simpl. lia.
  - destruct (rmatch a s Some); [done|].
    exists s. split; [done|]. unfold reaches. simpl. lia.
Qed.

Lemma re_match_bounds r s p m :
  re_match r s p = Some m -> p <= length s ->
  m_start m = p /\ p + min_len r <= m_end m <= length s.
Proof.
  unfold re_match. intros Hm Hp.
  destruct (rmatch r (cursor_at s p) Some) as [f|] eqn:Hr; [|done].
  injection Hm as <-. simpl.
  apply rmatch_reach in Hr as (s' & [= ->] & H1 & H2).
  simpl in *. rewrite length_drop in H2. lia.
Qed.


Lemma search_from_some r s n p m :
  search_from r s n p = Some m ->
  exists q, p <= q < p + n /\ re_match r s q = Some m /\
            forall q', p <= q' < q -> re_match r s q' = None.
Proof.
  revert p. induction n as [|n IHn]; intros p Hs; simpl in Hs; [done|].
  destruct (re_match r s p) as [m'|] eqn:Hm.
  - injection Hs as ->. exists p. split; [lia|]. split; [done|]. intros; lia.
  - apply IHn in Hs as (q & Hq & Hmq & Hnone).
    exists q. split; [lia|]. split; [done|].
    intros q' Hq'. destruct (decide (q' = p)) as [->|]; [done|].
    apply Hnone. lia.
Qed.

(** [search] finds a place where [match] succeeds, at or after the offset,
    and after it when [match] fails at the offset. *)
Lemma re_search_some r s p m :
  re_search r s p = Some m -> p <= length s ->
  re_match r s (m_start m) = Some m /\
  p <= m_start m /\ m_start m + min_len r <= m_end m <= length s /\
  (re_match r s p = None -> p < m_start m).
Proof.
  unfold re_search. intros Hs Hp.
  apply search_from_some in Hs as (q & Hq & Hm & Hnone).
  destruct (re_match_bounds _ _ _ _ Hm) as (-> & Hend); [lia|].
  repeat split; try done; try lia.
  intros Hp'. destruct (decide (q = p)) as [->|]; [congruence|lia].
Qed.

(** ** The tokenizer *)

Lemma covers_get_all ctx a b e :
  covers ctx a b e -> a <= b <= length ctx ->
  get_all e = take (b - a) (drop a ctx).
Proof.
  intros [Hc Hs] Hab. unfold get_all, slice. rewrite Hc, Hs. simpl.
  by apply pyslice_nat.
Qed.

Lemma group0_take s m a :
  m_start m = a -> a <= m_end m <= length s ->
  group0 s m = take (m_end m - a) (drop a s).
Proof.
  intros <- Hb. unfold group0, slice, span. simpl. by apply pyslice_nat.
Qed.

Lemma min_len_reKey p : 1 <= min_len (reKey p).
Proof. destruct p; vm_compute; lia. Qed.

Lemma min_len_rePE : 1 <= min_len DTD_rePE.
Proof. vm_compute; lia. Qed.

Lemma createEntity_covers p ctx m :
  covers ctx (m_start m) (m_end m) (IEntity (createEntity p ctx m)).
Proof. by destruct p. Qed.

Lemma junk_until_key_some p ctx offset junkid e o j :
  junk_until_key p ctx offset junkid = (Some e, o, j) ->
  offset <= length ctx -> re_match (reKey p) ctx offset = None ->
  offset < o <= length ctx /\ covers ctx offset o e.
Proof.
  unfold junk_until_key. intros Hj Ho Hnone.
  destruct (re_search (reKey p) ctx offset) as [m|] eqn:Hs; [|done].
  injection Hj as <- <- <-.
  apply re_search_some in Hs as (_ & H1 & H2 & H3); [|done].
  specialize (H3 Hnone). split; [lia|]. done.
Qed.

Lemma junk_until_key_none p ctx offset junkid o j :
  junk_until_key p ctx offset junkid = (None, o, j) -> o = offset.
Proof.
  unfold junk_until_key.
  destruct (re_search (reKey p) ctx offset); [done|]. by intros [= <- <-].
Qed.

Lemma Parser_getEntity_some p ctx offset junkid e o j :
  Parser_getEntity p ctx offset junkid = (Some e, o, j) ->
  offset <= length ctx ->
  offset < o <= length ctx /\ covers ctx offset o e.
Proof.
  unfold Parser_getEntity. intros Hg Ho.
  destruct (re_match (reKey p) ctx offset) as [m|] eqn:Hm.
  - injection Hg as <- <- <-.
    destruct (re_match_bounds _ _ _ _ Hm Ho) as [Hst Hend].
    pose proof (min_len_reKey p). split; [lia|].
    rewrite <- Hst at 1. apply createEntity_covers.
  - destruct (match re_match (reFooter p) ctx offset with
              | Some f => offset <? m_end f
              | None => false
              end); [done|].
    by eapply junk_until_key_some.
Qed.

Lemma Parser_getEntity_none p ctx offset junkid o j :
  Parser_getEntity p ctx offset junkid = (None, o, j) -> o = offset.
Proof.
  unfold Parser_getEntity.
  destruct (re_match (reKey p) ctx offset); [done|].
  destruct (match re_match (reFooter p) ctx offset with
            | Some f => offset <? m_end f
            | None => false
            end); [by intros [= <- <-]|].
  apply junk_until_key_none.
Qed.

Lemma find_nl_some contents offset n :
  find_nl contents offset = Some n -> offset <= n < length contents.
Proof.
  unfold find_nl. intros Hf.
  destruct (list_find (fun c => c = NL) (drop offset contents))
    as [[i x]|] eqn:Hl; [|done].
  injection Hf as <-. simpl.
  apply list_find_Some in Hl as (Hl & _).
  apply lookup_lt_Some in Hl. rewrite length_drop in Hl. lia.
Qed.

(** The loop over the lines of a value ends, at or before the end of the
    text. *)
Lemma value_lines_total contents : forall fuel offset,
  offset <= length contents -> length contents - offset < fuel ->
  exists endval o, value_lines fuel contents offset = Some (endval, o) /\
                   offset <= o <= length contents.
Proof.
  induction fuel as [|fuel IH]; intros offset Ho Hf; [lia|].
  cbn [value_lines].
  destruct (find_nl contents offset) as [nextline|] eqn:Hn.
  - apply find_nl_some in Hn.
    destruct (re_search_in escapedEnd contents offset nextline) as [_e|].
    + destruct ((m_end _e - m_start _e) mod 2 =? 0).
      * eexists _, _. split; [done|]. lia.
      * destruct (IH (nextline + 1)) as (ev & o & Hv & Hb); [lia|lia|].
        exists ev, o. split; [done|]. lia.
    + eexists _, _. split; [done|]. lia.
  - eexists _, _. split; [done|]. lia.
Qed.

Lemma min_len_Properties_reKey : 1 <= min_len Properties_reKey.
Proof. vm_compute; lia. Qed.

Lemma getEntity_total p ctx offset junkid :
  offset <= length ctx -> is_Some (getEntity p ctx offset junkid).
Proof.
  intros Ho. destruct p; simpl; try done.
  unfold Properties_getEntity.
  destruct (re_match Properties_reKey ctx offset) as [m|] eqn:Hm; [|done].
  destruct (re_match_bounds _ _ _ _ Hm Ho) as [Hst Hend].
  destruct (value_lines_total ctx (S (length ctx)) (m_end m))
    as (ev & o & -> & _); [lia|lia|]. done.
Qed.

Lemma getEntity_some p ctx offset junkid e o j :
  getEntity p ctx offset junkid = Some (Some e, o, j) ->
  offset <= length ctx ->
  offset < o <= length ctx /\ covers ctx offset o e.
Proof.
  intros Hg Ho. destruct p; simpl in Hg.
  - injection Hg as Hg. unfold DTD_getEntity in Hg.
    destruct (Parser_getEntity DTDParser ctx offset junkid)
      as [[entity inner] j'] eqn:Hp.
    assert (Hpe : forall m, re_match DTD_rePE ctx offset = Some m ->
              (Some (IEntity (entity_of_groups DTDParser ctx m)), m_end m, j')
                = (Some e, o, j) ->
              offset < o <= length ctx /\ covers ctx offset o e).
    { intros m Hm [= <- <- <-].
      destruct (re_match_bounds _ _ _ _ Hm Ho) as [Hst Hend].
      pose proof min_len_rePE. split; [lia|].
      rewrite <- Hst at 1. done. }
    destruct entity as [[e'|j'']|].
    + injection Hg as <- <- <-. by eapply Parser_getEntity_some.
    + destruct (re_match DTD_rePE ctx offset) as [m|] eqn:Hm; [by eapply Hpe|].
      injection Hg as <- <- <-. by eapply Parser_getEntity_some.
    + destruct (re_match DTD_rePE ctx offset) as [m|] eqn:Hm; [by eapply Hpe|].
      done.
  - unfold Properties_getEntity in Hg.
    destruct (re_match Properties_reKey ctx offset) as [m|] eqn:Hm.
    + destruct (re_match_bounds _ _ _ _ Hm Ho) as [Hst Hend].
      pose proof min_len_Properties_reKey.
      destruct (value_lines_total ctx (S (length ctx)) (m_end m))
        as (ev & o' & Hv & Hb); [lia|lia|].
      rewrite Hv in Hg. injection Hg as <- <- <-.
      split; [lia|]. split; [done|]. simpl. by rewrite Hst.
    + injection Hg as Hg. by eapply (junk_until_key_some PropertiesParser).
  - injection Hg as Hg. by eapply Parser_getEntity_some.
  - injection Hg as Hg. by eapply Parser_getEntity_some.
Qed.

Lemma getEntity_none p ctx offset junkid o j :
  getEntity p ctx offset junkid = Some (None, o, j) -> o = offset.
Proof.
  intros Hg. destruct p; simpl in Hg.
  - injection Hg as Hg. unfold DTD_getEntity in Hg.
    destruct (Parser_getEntity DTDParser ctx offset junkid)
      as [[entity inner] j'] eqn:Hp.
    destruct entity as [[e'|j'']|]; [done| |].
    + destruct (re_match DTD_rePE ctx offset); done.
    + destruct (re_match DTD_rePE ctx offset); [done|].
      injection Hg as <- <-. by eapply Parser_getEntity_none.
  - unfold Properties_getEntity in Hg.
    destruct (re_match Properties_reKey ctx offset) as [m|].
    + destruct (value_lines _ _ _) as [[? ?]|]; done.
    + injection Hg as Hg. by eapply junk_until_key_none.
  - injection Hg as Hg. by eapply Parser_getEntity_none.
  - injection Hg as Hg. by eapply Parser_getEntity_none.
Qed.

(** The loop of the tokenizer ends, and the items it yields are the text
    between the offset it starts at and the offset it stops at. *)
Lemma entity_loop_total p ctx : forall fuel offset junkid,
  offset <= length ctx -> length ctx - offset < fuel ->
  exists es o j,
    entity_loop p fuel ctx offset junkid = Some (es, o, j) /\
    offset <= o <= length ctx /\
    concat (get_all <$> es) = take (o - offset) (drop offset ctx).
Proof.
  induction fuel as [|fuel IH]; intros offset junkid Ho Hf; [lia|]. simpl.
  destruct (getEntity_total p ctx offset junkid Ho) as [[[e o'] j'] Hg].
  rewrite Hg. destruct e as [e|].
  - apply getEntity_some in Hg as [Hlt Hc]; [|done].
    destruct (IH o' j') as (es & o & j & -> & Hb & Hcat); [lia|lia|].
    eexists _, _, _. split; [done|]. split; [lia|].
    rewrite fmap_cons. simpl. rewrite Hcat.
    rewrite (covers_get_all ctx offset o') by (done || lia).
    rewrite <- (take_drop_middle_app (drop offset ctx) (o' - offset) (o - offset))
      by lia.
    f_equal. rewrite drop_drop. f_equal; [lia|]. f_equal. lia.
  - apply getEntity_none in Hg as ->.
    eexists _, _, _. split; [done|]. split; [lia|].
    by rewrite Nat.sub_diag.
Qed.

Lemma getHeader_take p contents h o :
  getHeader p contents 0 = (h, o) ->
  o <= length contents /\ h = take o contents.
Proof.
  assert (Hgen : forall m, re_match (reHeader p) contents 0 = Some m ->
            m_end m <= length contents /\
            group0 contents m = take (m_end m) contents).
  { intros m Hm.
    destruct (re_match_bounds _ _ _ _ Hm) as [Hst Hend]; [lia|].
    split; [lia|]. rewrite (group0_take _ _ 0) by (done || lia).
    by rewrite Nat.sub_0_r. }
  unfold getHeader. intros Hh.
  destruct p;
    (destruct (re_match _ contents 0) as [m|] eqn:Hm;
     [destruct (Hgen m eq_refl) as [Hle Hg]|]);
    try (injection Hh as <- <-; split; [lia|done]).
  destruct (_ || _); injection Hh as <- <-; (split; [lia|done]).
Qed.

(** *** The footers without re.M match to the end of the text *)

Lemma rmatch_ws s k :
  rmatch ws s k =
  match rest s with
  | c :: tl => if cl_mem (OneOf ws_ranges) c then k (step s c tl) else None
  | [] => None
  end.
Proof. done. Qed.

Lemma star_ws_nil k n s :
  rest s = [] -> star_loop (rmatch ws) true k n s = k s.
Proof.
  intros Hr. destruct n; [done|].
  cbn [star_loop]. by rewrite rmatch_ws, Hr.
Qed.

Lemma star_ws_to_end k P : to_end P k -> forall n s f,
  P <= pos s -> length (rest s) <= n ->
  star_loop (rmatch ws) true k n s = Some f -> rest f = [].
Proof.
  intros [Hk1 Hk2]. induction n as [|n IHn]; intros s f HP Hn Hm.
  - cbn [star_loop] in Hm. destruct (rest s) eqn:Hr; [|simpl in Hn; lia].
    destruct (Hk1 s f HP Hm) as [?|Hnl]; [done|congruence].
  - cbn [star_loop] in Hm. rewrite rmatch_ws in Hm.
    destruct (rest s) as [|c tl] eqn:Hr.
    + destruct (Hk1 s f HP Hm) as [?|Hnl]; [done|congruence].
    + destruct (cl_mem (OneOf ws_ranges) c) eqn:Hc.
      * assert (Hlt : (pos s <? pos (step s c tl)) = true)
          by (apply Nat.ltb_lt; simpl; lia).
        rewrite Hlt in Hm. unfold orelse in Hm.
        destruct (star_loop (rmatch ws) true k n (step s c tl)) as [f'|] eqn:Hs.
        -- injection Hm as ->. eapply IHn; [| |done]; simpl in *; lia.
        -- destruct (Hk1 s f HP Hm) as [?|Hnl]; [done|].
           rewrite Hr in Hnl. injection Hnl as -> ->.
           rewrite star_ws_nil in Hs by done.
           destruct (Hk2 (step s NL [])) as [? Hsome]; simpl; [lia|done|].
           congruence.
      * destruct (Hk1 s f HP Hm) as [?|Hnl]; [done|].
        rewrite Hr in Hnl. injection Hnl as -> ->. done.
Qed.

Lemma eol_k_some s f :
  eol_k s = Some f -> f = s /\ (rest s = [] \/ rest s = [NL]).
Proof.
  unfold eol_k. simpl. unfold at_eol.
  destruct (rest s) as [|c [|c' tl]]; simpl;
    try rewrite andb_false_r; try done.
  - intros [= <-]. by split; [|left].
  - case_bool_decide; [|done]. subst c. intros [= <-]. by split; [|right].
Qed.

Lemma eol_k_nil s : rest s = [] -> eol_k s = Some s.
Proof. unfold eol_k. simpl. unfold at_eol. by intros ->. Qed.

Section FooterToEnd.
Variable G : regex.
Hypothesis HG : ends_with_ws G.

Lemma group_nil k s : rest s = [] -> rmatch (Group 1 G) s k = None.
Proof.
  intros Hr. simpl. destruct (rmatch G s _) as [f|] eqn:Hm; [|done].
  apply HG in Hm as (s1 & [H1 H2] & _). rewrite Hr in H2. simpl in H2. lia.
Qed.

Lemma star_group_nil n s :
  rest s = [] -> star_loop (rmatch (Group 1 G)) true eol_k n s = eol_k s.
Proof.
  intros Hr. destruct n; [done|].
  cbn [star_loop]. by rewrite group_nil.
Qed.

Lemma star_group_to_end : forall n s f,
  star_loop (rmatch (Group 1 G)) true eol_k n s = Some f ->
  rest f = [] \/ rest s = [NL].
Proof.
  induction n as [|n IHn]; intros s f Hm.
  - simpl in Hm. apply eol_k_some in Hm as [-> [?|?]]; auto.
  - cbn [star_loop] in Hm. unfold orelse in Hm.
    destruct (rmatch (Group 1 G) s _) as [f'|] eqn:Hg.
    + injection Hm as ->. left. simpl in Hg.
      apply HG in Hg as (s1 & [H1 H2] & Hs).
      refine (star_ws_to_end _ (pos s + 1) _ _ s1 f _ _ Hs); [|lia|lia].
      split.
      * intros s' f' HP Hk. simpl in Hk.
        destruct (pos s <? pos s'); [|done].
        by apply IHn in Hk.
      * intros s' HP Hr. simpl.
        assert ((pos s <? pos s') = true) as -> by (apply Nat.ltb_lt; lia).
        rewrite star_group_nil by done.
        rewrite eol_k_nil by done. done.
    + apply eol_k_some in Hm as [-> [?|?]]; auto.
Qed.

Lemma footer_to_end s f :
  rmatch (seqs [star ws; star (Group 1 G); Eol false]) s Some = Some f ->
  rest f = [].
Proof.
  intros Hm. cbn [seqs foldr] in Hm. unfold star in Hm.
  change (star_loop (rmatch ws) true
            (fun s' => star_loop (rmatch (Group 1 G)) true eol_k
                         (length (rest s')) s')
            (length (rest s)) s = Some f) in Hm.
  refine (star_ws_to_end _ 0 _ _ s f _ _ Hm); [|lia|lia].
  split.
  - intros s' f' _ Hk. by apply star_group_to_end in Hk.
  - intros s' _ Hr. rewrite Hr. simpl. rewrite eol_k_nil by done. done.
Qed.
End FooterToEnd.

(** One step through a sequence: the first pattern matched up to a cursor
    from which the rest of the sequence goes on. *)
Ltac seq_step H :=
  match type of H with
  | rmatch (Seq ?a ?b) ?s ?k = Some ?f =>
      change (rmatch a s (fun s' => rmatch b s' k) = Some f) in H;
      let s1 := fresh "s" in
      let Hr := fresh "Hr" in
      apply rmatch_reach in H as (s1 & H & Hr)
  end.

Lemma min_len_comment_open : min_len (lit "<!--") = 4.
Proof. by vm_compute. Qed.

Lemma DTD_footer_comment_ws : ends_with_ws DTD_footer_comment.
Proof.
  intros s k f Hm. unfold DTD_footer_comment in Hm. cbn [seqs foldr] in Hm.
  do 4 seq_step Hm. rewrite min_len_comment_open in *.
  exists s3. split; [|exact Hm].
  unfold reaches in *. lia.
Qed.

Lemma Properties_comment_ws : ends_with_ws Properties_comment.
Proof.
  intros s k f Hm. unfold Properties_comment in Hm. cbn [seqs foldr] in Hm.
  do 2 seq_step Hm. exists s1. split; [|exact Hm].
  unfold reaches in *. simpl in *. lia.
Qed.

Lemma Ini_comment_ws : ends_with_ws Ini_comment.
Proof.
  intros s k f Hm. unfold Ini_comment in Hm. cbn [seqs foldr] in Hm.
  do 2 seq_step Hm. exists s1. split; [|exact Hm].
  unfold reaches in *. simpl in *. lia.
Qed.

(** Without re.M the footer, when it matches, matches up to the end. *)
Lemma reFooter_to_end p contents o m :
  p <> DefinesParser -> o <= length contents ->
  re_match (reFooter p) contents o = Some m -> m_end m = length contents.
Proof.
  intros Hp Ho Hm. unfold re_match in Hm.
  destruct (rmatch (reFooter p) (cursor_at contents o) Some) as [f|] eqn:Hr;
    [|done].
  injection Hm as <-. simpl.
  assert (Hf : rest f = []).
  { destruct p; [| | |done].
    - by eapply (footer_to_end _ DTD_footer_comment_ws).
    - by eapply (footer_to_end _ Properties_comment_ws).
    - by eapply (footer_to_end _ Ini_comment_ws). }
  apply rmatch_reach in Hr as (s' & [= ->] & H1 & H2).
  rewrite Hf in H2. simpl in H2. rewrite length_drop in H2. lia.
Qed.

Lemma four_pieces {A} (s : list A) (a b c : nat) :
  a <= b -> b <= c -> c <= length s ->
  take a s ++ take (b - a) (drop a s) ++ take (c - b) (drop b s) ++ drop c s
  = s.
Proof.
  intros Hab Hbc Hc.
  rewrite (app_assoc (take a s)), take_drop_middle_app by done.
  rewrite (app_assoc (take b s)), take_drop_middle_app by done.
  apply take_drop.
Qed.

Lemma newJunk_get_all contents a junkid :
  a <= length contents ->
  get_all (IJunk (newJunk contents a (length contents) junkid).1)
  = drop a contents.
Proof. intros Ha. unfold get_all, slice. simpl. by apply pyslice_to_end. Qed.

(** The pieces of a tokenized text, in the order of their offsets. *)
Lemma Parser_iter_pieces p contents junkid :
  exists it body tail,
    Parser_iter p contents junkid = Some it /\
    yielded it = body ++ tail /\
    (tail = [] \/ exists j, tail = [IJunk j]) /\
    header it ++ concat (get_all <$> body) ++ footer it
      ++ concat (get_all <$> tail) = contents /\
    (p <> DefinesParser ->
     header it ++ concat (get_all <$> yielded it) ++ footer it = contents).
Proof.
  unfold Parser_iter.
  destruct (getHeader p contents 0) as [h o0] eqn:Hh.
  apply getHeader_take in Hh as [Ho0 ->].
  destruct (entity_loop_total p contents (S (length contents)) o0 junkid)
    as (es & o & j & -> & Ho & Hes); [lia|lia|].
  destruct (re_match (reFooter p) contents o) as [f|] eqn:Hf.
  - destruct (re_match_bounds _ _ _ _ Hf) as [Hst Hend]; [lia|].
    rewrite (group0_take contents f o) by (done || lia).
    destruct (m_end f <? length contents) eqn:Hlt.
    + apply Nat.ltb_lt in Hlt.
      destruct (newJunk contents (m_end f) (length contents) j)
        as [jk j'] eqn:Hj.
      exists (mkIterated (take o0 contents) (es ++ [IJunk jk])
                (take (m_end f - o) (drop o contents)) j'), es, [IJunk jk].
      split; [done|]. split; [done|]. split; [eauto|]. simpl. split.
      * pose proof (newJunk_get_all contents (m_end f) j) as Hall.
        rewrite Hj in Hall. simpl in Hall. rewrite Hall by lia.
        rewrite Hes, app_nil_r. apply four_pieces; lia.
      * intros Hp. apply (reFooter_to_end p contents o f Hp) in Hf; lia.
    + apply Nat.ltb_ge in Hlt.
      exists (mkIterated (take o0 contents) es
                (take (m_end f - o) (drop o contents)) j), es, [].
      split; [done|]. split; [by rewrite app_nil_r|]. split; [by left|].
      simpl. rewrite app_nil_r, Hes.
      assert (Hall : take o0 contents ++ take (o - o0) (drop o0 contents)
                ++ take (m_end f - o) (drop o contents) = contents).
      { rewrite <- (four_pieces contents o0 o (m_end f)) at 4 by lia.
        rewrite (drop_ge contents (m_end f)) by lia.
        by rewrite app_nil_r. }
      done.
  - destruct (o <? length contents) eqn:Hlt.
    + apply Nat.ltb_lt in Hlt.
      destruct (newJunk contents o (length contents) j) as [jk j'] eqn:Hj.
      exists (mkIterated (take o0 contents) (es ++ [IJunk jk]) [] j'),
        es, [IJunk jk].
      split; [done|]. split; [done|]. split; [eauto|]. simpl.
      pose proof (newJunk_get_all contents o j) as Hall.
      rewrite Hj in Hall. simpl in Hall.
      assert (Hsum : take o0 contents ++ take (o - o0) (drop o0 contents)
                ++ drop o contents = contents).
      { rewrite app_assoc, take_drop_middle_app by lia. apply take_drop. }
      split.
      * rewrite Hall by lia. by rewrite Hes, app_nil_r.
      * intros _. rewrite fmap_app, concat_app. simpl.
        rewrite Hall by lia. by rewrite Hes, !app_nil_r.
    + apply Nat.ltb_ge in Hlt.
      exists (mkIterated (take o0 contents) es [] j), es, [].
      split; [done|]. split; [by rewrite app_nil_r|]. split; [by left|].
      simpl. rewrite !app_nil_r, Hes.
      assert (Hsum : take o0 contents ++ take (o - o0) (drop o0 contents)
                = contents).
      { rewrite take_drop_middle_app by lia. apply take_ge. lia. }
      done.
Qed.

(** [Parser.parse] returns for every text. *)
Lemma parse_total p contents junkid :
  exists it, Parser_iter p contents junkid = Some it /\
             parse p contents junkid
             = Some (parse_items (yielded it), junkid_after it).
Proof.
  destruct (Parser_iter_pieces p contents junkid) as (it & _ & _ & Hit & _).
  exists it. split; [done|]. unfold parse. by rewrite Hit.
Qed.

(** C1 (as amended).  Tokenizing ends for every text and every grammar, and
    every character of the text is in exactly one piece: the header, the
    items yielded by the loop, the footer and the Junk yielded after the
    footer, if there is one, give the text back when put together in this
    order.  For the DTD, properties and ini grammars the header, all the
    items yielded and the footer do, in this order. *)
Theorem tokenizer_round_trip p contents junkid :
  exists it body tail,
    Parser_iter p contents junkid = Some it /\
    yielded it = body ++ tail /\
    (tail = [] \/ exists j, tail = [IJunk j]) /\
    header it ++ concat (get_all <$> body) ++ footer it
      ++ concat (get_all <$> tail) = contents /\
    (p <> DefinesParser ->
     header it ++ concat (get_all <$> yielded it) ++ footer it = contents).
Proof. apply Parser_iter_pieces. Qed.

Lemma tokenizer_round_trip_witness :
  exists it,
    Parser_iter PropertiesParser properties_sample 0 = Some it /\
    header it ++ concat (get_all <$> yielded it) ++ footer it
    = properties_sample.
Proof.
  destruct (tokenizer_round_trip PropertiesParser properties_sample 0)
    as (it & _ & _ & Hit & _ & _ & _ & Hall).
  exists it. split; [exact Hit|]. apply Hall. discriminate.
Defined.

(** C1 as stated fails for the defines grammar, whose footer pattern has
    re.M: on [defines_sample] the footer is the first empty line, the Junk
    after it is yielded last, and header, items and footer in this order
    give another text. *)
Lemma defines_round_trip_fails :
  match Parser_iter DefinesParser defines_sample 0 with
  | Some it =>
      header it ++ concat (get_all <$> yielded it) ++ footer it
      = t "#define foo bar" ++ nl ++ nl ++ t "foo" ++ nl /\
      header it ++ concat (get_all <$> yielded it) ++ footer it
      <> defines_sample
  | None => False
  end.
Proof. vm_compute. split; [reflexivity|discriminate]. Qed.

(** ** [Parser.parse] *)

Lemma parse_items_snoc es e :
  parse_items (es ++ [e]) = parse_step (parse_items es) e.
Proof. unfold parse_items. by rewrite foldl_app. Qed.

Lemma parse_items_list es : (parse_items es).1 = es.
Proof.
  induction es as [|e es IH] using rev_ind; [done|].
  rewrite parse_items_snoc. simpl. by rewrite IH.
Qed.

(** Index [i] is the last place in [es] of an item with key [k]. *)
Lemma parse_items_map es k i :
  (parse_items es).2 !! k = Some i <->
  (exists e, es !! i = Some e /\ get_key e = k) /\
  (forall j e', i < j -> es !! j = Some e' -> get_key e' <> k).
Proof.
  revert i. induction es as [|e es IH] using rev_ind; intros i.
  - simpl. rewrite lookup_empty. split; [done|]. by intros [(e & He & _) _].
  - rewrite parse_items_snoc. unfold parse_step. simpl.
    rewrite parse_items_list.
    destruct (decide (get_key e = k)) as [Hk|Hk].
    + rewrite Hk, lookup_insert_eq. split.
      * intros [= <-]. split.
        -- exists e. split; [|done]. by rewrite list_lookup_middle.
        -- intros j e' Hj Hl. apply lookup_lt_Some in Hl.
           rewrite length_app in Hl. simpl in Hl. lia.
      * intros [(e0 & He0 & _) Hlast]. f_equal.
        destruct (decide (i = length es)) as [|Hne]; [done|].
        apply lookup_lt_Some in He0 as Hlt.
        rewrite length_app in Hlt. simpl in Hlt.
        exfalso. eapply (Hlast (length es) e); [lia| |done].
        by rewrite list_lookup_middle.
    + rewrite lookup_insert_ne by done. rewrite IH. split.
      * intros [(e0 & He0 & Hk0) Hlast]. split.
        -- exists e0. split; [|done]. by apply lookup_app_l_Some.
        -- intros j e' Hj Hl. apply lookup_snoc_Some in Hl as [[_ Hl]|[_ <-]].
           ++ by eapply Hlast.
           ++ done.
      * intros [(e0 & He0 & Hk0) Hlast].
        apply lookup_snoc_Some in He0 as [[Hlt He0]|[_ <-]]; [|done].
        split; [eauto|].
        intros j e' Hj Hl. eapply Hlast; [done|].
        by apply lookup_app_l_Some.
Qed.

(** C10.  [Parser.parse] returns, for every text, the list of all the items
    yielded, in the order they were yielded, and a map that sends a key to
    an index exactly when the index is that of the last item of the list
    with this key; the earlier items with the key stay in the list. *)
Theorem parse_list_and_map p contents junkid :
  exists it m,
    Parser_iter p contents junkid = Some it /\
    parse p contents junkid = Some (yielded it, m, junkid_after it) /\
    forall k i,
      m !! k = Some i <->
      (exists e, yielded it !! i = Some e /\ get_key e = k) /\
      (forall j e', i < j -> yielded it !! j = Some e' -> get_key e' <> k).
Proof.
  destruct (parse_total p contents junkid) as (it & Hit & Hp).
  exists it, (parse_items (yielded it)).2. split; [done|]. split.
  - rewrite Hp. f_equal. f_equal.
    rewrite <- (parse_items_list (yielded it)) at 2.
    by destruct (parse_items (yielded it)).
  - intros k i. apply parse_items_map.
Qed.

Lemma parse_items_dom es :
  dom (parse_items es).2 = list_to_set (get_key <$> es).
Proof.
  induction es as [|e es IH] using rev_ind; [apply dom_empty_L|].
  rewrite parse_items_snoc. simpl. rewrite dom_insert_L, IH.
  rewrite fmap_app, list_to_set_app_L. simpl.
  rewrite (right_id_L ∅ (∪)). apply (comm_L (∪)).
Qed.




(** ** Continuation lines of a properties value *)

Lemma cl_mem_single c x : cl_mem (OneOf [(c, c)]) x = bool_decide (x = c).
Proof.
  simpl. rewrite orb_false_r. case_bool_decide as Hx.
  - subst. by rewrite N.leb_refl.
  - apply andb_false_iff.
    destruct (N.leb_spec c x), (N.leb_spec x c); auto. lia.
Qed.

Lemma rmatch_ch c s k :
  rmatch (ch c) s k =
  match rest s with
  | x :: tl => if bool_decide (x = c) then k (step s x tl) else None
  | [] => None
  end.
Proof.
  unfold ch. cbn [rmatch]. destruct (rest s); [done|].
  by rewrite cl_mem_single.
Qed.

Lemma rmatch_eol_no_nl s :
  NL ∉ rest s ->
  rmatch (Eol false) s Some = if decide (rest s = []) then Some s else None.
Proof.
  intros Hnl. cbn [rmatch]. unfold at_eol.
  destruct (rest s) as [|c tl]; [done|].
  case_bool_decide; [|done]. subst. set_solver.
Qed.

(** Greedy backslashes before [$], in a line: all that is left has to be
    backslashes. *)
Lemma star_backslash_eol : forall n s,
  length (rest s) <= n -> NL ∉ rest s ->
  match star_loop (rmatch (ch BACKSLASH)) true
          (fun s2 => rmatch (Eol false) s2 Some) n s with
  | Some f => pos f = pos s + length (rest s) /\ caps f = caps s /\
              Forall (eq BACKSLASH) (rest s)
  | None => ~ Forall (eq BACKSLASH) (rest s)
  end.
Proof.
  induction n as [|n IHn]; intros s Hn Hnl.
  - cbn [star_loop]. rewrite rmatch_eol_no_nl by done.
    destruct (rest s); [|simpl in Hn; lia]. simpl. split; [lia|done].
  - cbn [star_loop]. rewrite rmatch_ch, rmatch_eol_no_nl by done.
    destruct (rest s) as [|c tl] eqn:Hr.
    + simpl. split; [lia|done].
    + case_bool_decide as Hc.
      * subst c.
        assert (Hlt : (pos s <? pos (step s BACKSLASH tl)) = true)
          by (apply Nat.ltb_lt; simpl; lia).
        rewrite Hlt.
        specialize (IHn (step s BACKSLASH tl)). simpl in IHn.
        assert (Hnl' : NL ∉ tl) by set_solver.
        specialize (IHn ltac:(simpl in Hn; lia) Hnl').
        destruct (star_loop _ _ _ n (step s BACKSLASH tl)) as [f|]; simpl.
        -- destruct IHn as (Hp & Hcaps & Hall).
           split; [lia|]. split; [done|]. by constructor.
        -- intros Hall. apply IHn. by inversion Hall.
      * simpl. intros Hall. inversion Hall. congruence.
Qed.

(** Where [_escapedEnd] matches in a line: where only backslashes, and at
    least one, are left. *)
Lemma escapedEnd_match_some s p tl :
  p <= length s -> drop p s = BACKSLASH :: tl ->
  Forall (eq BACKSLASH) tl ->
  re_match escapedEnd s p = Some (ReMatch p (length s) []).
Proof.
  intros Hp Hd Hall. unfold re_match, escapedEnd, plus.
  change (rmatch (Seq (Seq (ch BACKSLASH) (Star true (ch BACKSLASH)))
                      (Eol false)) (cursor_at s p) Some)
    with (rmatch (ch BACKSLASH) (cursor_at s p) (fun s1 =>
            star_loop (rmatch (ch BACKSLASH)) true
              (fun s2 => rmatch (Eol false) s2 Some) (length (rest s1)) s1)).
  rewrite rmatch_ch. simpl. rewrite Nat.min_l by done. rewrite Hd.
  rewrite bool_decide_eq_true_2 by done.
  set (s1 := step _ _ _).
  pose proof (star_backslash_eol (length (rest s1)) s1 (le_n _)) as Hs.
  assert (Hnl : NL ∉ rest s1).
  { simpl. intros Hin. rewrite Forall_forall in Hall.
    by specialize (Hall _ Hin). }
  specialize (Hs Hnl).
  destruct (star_loop _ _ _ _ s1) as [f|]; [|done].
  destruct Hs as (Hpos & Hcaps & _). simpl in Hpos.
  rewrite Nat.min_l in Hpos by done.
  f_equal. f_equal; [|done].
  assert (length (drop p s) = S (length tl)) by (by rewrite Hd).
  rewrite length_drop in *. lia.
Qed.

Lemma escapedEnd_match_none s p :
  p <= length s -> NL ∉ drop p s ->
  ~ (exists tl, drop p s = BACKSLASH :: tl /\ Forall (eq BACKSLASH) tl) ->
  re_match escapedEnd s p = None.
Proof.
  intros Hp Hnl Hno. unfold re_match, escapedEnd, plus.
  change (rmatch (Seq (Seq (ch BACKSLASH) (Star true (ch BACKSLASH)))
                      (Eol false)) (cursor_at s p) Some)
    with (rmatch (ch BACKSLASH) (cursor_at s p) (fun s1 =>
            star_loop (rmatch (ch BACKSLASH)) true
              (fun s2 => rmatch (Eol false) s2 Some) (length (rest s1)) s1)).
  rewrite rmatch_ch. simpl. rewrite Nat.min_l by done.
  destruct (drop p s) as [|c tl] eqn:Hd; [done|].
  case_bool_decide as Hc; [|done]. subst c.
  set (s1 := step _ _ _).
  pose proof (star_backslash_eol (length (rest s1)) s1 (le_n _)) as Hs.
  assert (Hnl' : NL ∉ rest s1) by (simpl; set_solver).
  specialize (Hs Hnl').
  destruct (star_loop _ _ _ _ s1) as [f|]; [|done].
  destruct Hs as (_ & _ & Hall). exfalso. apply Hno. eauto.
Qed.

Lemma search_from_first r s n p q m :
  p <= q < p + n ->
  (forall q', p <= q' < q -> re_match r s q' = None) ->
  re_match r s q = Some m ->
  search_from r s n p = Some m.
Proof.
  revert p. induction n as [|n IHn]; intros p Hq Hnone Hm; [lia|].
  simpl. destruct (decide (p = q)) as [->|Hne].
  - by rewrite Hm.
  - rewrite Hnone by lia. apply IHn; [lia| |done].
    intros q' Hq'. apply Hnone. lia.
Qed.

Lemma search_from_none r s n p :
  (forall q, p <= q < p + n -> re_match r s q = None) ->
  search_from r s n p = None.
Proof.
  revert p. induction n as [|n IHn]; intros p Hnone; [done|].
  simpl. rewrite Hnone by lia. apply IHn. intros q Hq. apply Hnone. lia.
Qed.

(** What [_escapedEnd.search] finds in the part [body] followed by [N]
    backslashes of a line: the [N] backslashes, when there is one. *)
Lemma escapedEnd_search pre body N :
  NL ∉ body -> last body <> Some BACKSLASH ->
  re_search escapedEnd (pre ++ body ++ replicate N BACKSLASH) (length pre)
  = match N with
    | O => None
    | S _ => Some (ReMatch (length pre + length body)
                           (length pre + length body + N) [])
    end.
Proof.
  intros Hnl Hlast.
  set (s := pre ++ body ++ replicate N BACKSLASH).
  assert (Hlen : length s = length pre + length body + N).
  { unfold s. rewrite !length_app, length_replicate. lia. }
  assert (Hdrop : forall q, length pre <= q ->
            drop q s = drop (q - length pre) (body ++ replicate N BACKSLASH)).
  { intros q Hq. unfold s. rewrite drop_app_ge by done. done. }
  assert (Hnl' : forall q, length pre <= q -> NL ∉ drop q s).
  { intros q Hq Hin. rewrite Hdrop in Hin by done.
    eapply elem_of_sublist in Hin; [|apply sublist_drop].
    apply elem_of_app in Hin as [?|Hin]; [done|].
    by apply elem_of_replicate in Hin as [? _]. }
  assert (Hbody : forall q, length pre <= q < length pre + length body ->
            re_match escapedEnd s q = None).
  { intros q Hq. apply escapedEnd_match_none; [lia|by apply Hnl'; lia|].
    intros (tl & Hd & Hall). rewrite Hdrop in Hd by lia.
    rewrite drop_app_le in Hd by lia.
    assert (Hin : forall x, last body = Some x -> x = BACKSLASH).
    { intros x Hx.
      assert (Hx' : last (drop (q - length pre) body) = Some x).
      { rewrite last_lookup in Hx |- *. rewrite length_drop, lookup_drop.
        rewrite <- Hx. f_equal. lia. }
      assert (Hxin : x ∈ BACKSLASH :: tl).
      { rewrite <- Hd. apply elem_of_app. left.
        rewrite last_lookup in Hx'. by eapply list_elem_of_lookup_2. }
      apply elem_of_cons in Hxin as [->|Hxin]; [done|].
      rewrite Forall_forall in Hall. symmetry. by apply Hall. }
    destruct (last body) as [x|] eqn:Hl.
    - apply Hlast. f_equal. by apply Hin.
    - apply last_None in Hl. subst body. simpl in Hq. lia. }
  unfold re_search. rewrite Hlen.
  destruct N as [|N'].
  - apply search_from_none. intros q Hq.
    destruct (decide (q < length pre + length body)) as [Hlt|Hge].
    + apply Hbody. lia.
    + apply escapedEnd_match_none; [lia|apply Hnl'; lia|].
      intros (tl & Hd & _). rewrite Hdrop in Hd by lia.
      rewrite drop_ge in Hd; [done|].
      rewrite length_app, length_replicate. lia.
  - apply (search_from_first _ _ _ _ (length pre + length body)).
    + lia.
    + intros q' Hq'. apply Hbody. lia.
    + rewrite <- Hlen.
      apply (escapedEnd_match_some _ _ (replicate N' BACKSLASH)); [lia| |].
      * rewrite Hdrop by lia.
        replace (length pre + length body - length pre) with (length body + 0)
          by lia.
        by rewrite drop_app_add.
      * apply Forall_forall. intros x Hx.
        by apply elem_of_replicate in Hx as [-> _].
Qed.

Lemma find_nl_line pre body N rest_ :
  NL ∉ body ->
  find_nl (pre ++ body ++ replicate N BACKSLASH ++ NL :: rest_) (length pre)
  = Some (length pre + length body + N).
Proof.
  intros Hnl. unfold find_nl.
  rewrite drop_app_length.
  assert (Hf : list_find (fun c => c = NL)
                 (body ++ replicate N BACKSLASH ++ NL :: rest_)
               = Some (length body + N, NL)).
  { apply list_find_Some. split; [|split; [done|]].
    - rewrite app_assoc.
      replace (length body + N)
        with (length (body ++ replicate N BACKSLASH) + 0)
        by (rewrite length_app, length_replicate; lia).
      by rewrite lookup_app_r, Nat.add_0_r, Nat.sub_diag by lia.
    - intros j y Hj Hlt ->. rewrite app_assoc in Hj.
      rewrite lookup_app_l in Hj
        by (rewrite length_app, length_replicate; lia).
      apply list_elem_of_lookup_2, elem_of_app in Hj as [?|Hj]; [done|].
      by apply elem_of_replicate in Hj as [? _]. }
  rewrite Hf. simpl. f_equal. lia.
Qed.

Lemma mod2_even n : (n mod 2 =? 0) = Nat.even n.
Proof.
  destruct (Nat.even n) eqn:He.
  - apply Nat.even_spec in He as [k ->]. apply Nat.eqb_eq.
    rewrite Nat.mul_comm. apply Nat.Div0.mod_mul.
  - assert (Ho : Nat.odd n = true) by (by rewrite <- Nat.negb_even, He).
    apply Nat.odd_spec in Ho as [k ->]. apply Nat.eqb_neq.
    rewrite Nat.add_comm, Nat.mul_comm, Nat.Div0.mod_add. done.
Qed.



(** ** Sorting *)

Section SortedFacts.
Context {A O : Type} (leb : O -> O -> bool) (key : A -> O).
Hypothesis leb_total : forall a b, leb a b = true \/ leb b a = true.
Hypothesis leb_trans :
  forall a b c, leb a b = true -> leb b c = true -> leb a c = true.

Lemma insert_sorted_perm x l : insert_sorted leb key x l ≡ₚ x :: l.
Proof.
  induction l as [|y l IH]; [done|]. simpl.
  destruct (leb (key x) (key y)); [done|].
  rewrite IH. apply Permutation_swap.
Qed.

Lemma sorted_perm l : sorted leb key l ≡ₚ l.
Proof.
  induction l as [|x l IH]; [done|]. simpl.
  by rewrite insert_sorted_perm, IH.
Qed.

Lemma insert_sorted_Sorted x l :
  Sorted (key_le leb key) l -> Sorted (key_le leb key) (insert_sorted leb key x l).
Proof using leb_total.
  induction 1 as [|y l Hs IH Hhd]; simpl.
  - by repeat constructor.
  - destruct (leb (key x) (key y)) eqn:Hxy.
    + constructor; [by constructor|]. by constructor.
    + constructor; [done|].
      assert (Hyx : key_le leb key y x).
      { destruct (leb_total (key x) (key y)); [congruence|done]. }
      destruct Hhd as [|z l' Hyz]; simpl.
      * by constructor.
      * destruct (leb (key x) (key z)); by constructor.
Qed.

Lemma sorted_Sorted l : Sorted (key_le leb key) (sorted leb key l).
Proof using leb_total.
  induction l as [|x l IH]; simpl; [constructor|].
  by apply insert_sorted_Sorted.
Qed.

Lemma sorted_unique l1 l2 :
  (forall x y, key_le leb key x y -> key_le leb key y x -> x = y) ->
  l1 ≡ₚ l2 -> sorted leb key l1 = sorted leb key l2.
Proof using leb_total leb_trans.
  intros Hanti Hp.
  assert (Htr : Transitive (key_le leb key)).
  { intros x y z. unfold key_le. apply leb_trans. }
  assert (Has : AntiSymm eq (key_le leb key)).
  { intros x y. apply Hanti. }
  apply (Sorted_unique (key_le leb key)); [apply sorted_Sorted..|].
  by rewrite !sorted_perm.
Qed.
End SortedFacts.

(** ** The order of texts *)

Lemma text_leb_total a b : text_leb a b = true \/ text_leb b a = true.
Proof.
  revert b. induction a as [|x a IH]; intros [|y b]; simpl; auto.
  destruct (N.ltb_spec x y), (N.ltb_spec y x), (N.eqb_spec x y),
    (N.eqb_spec y x); simpl; auto; try lia.
Qed.

Lemma text_leb_trans a b c :
  text_leb a b = true -> text_leb b c = true -> text_leb a c = true.
Proof.
  revert b c. induction a as [|x a IH]; intros [|y b] [|z c]; simpl;
    try done.
  destruct (N.ltb_spec x y), (N.ltb_spec y z), (N.ltb_spec x z),
    (N.eqb_spec x y), (N.eqb_spec y z), (N.eqb_spec x z);
    simpl; try done; try lia.
  apply IH.
Qed.

Lemma text_leb_antisym a b :
  text_leb a b = true -> text_leb b a = true -> a = b.
Proof.
  revert b. induction a as [|x a IH]; intros [|y b]; simpl; try done.
  destruct (N.ltb_spec x y), (N.ltb_spec y x), (N.eqb_spec x y),
    (N.eqb_spec y x); simpl; try done; try lia.
  intros Hab Hba. subst. f_equal. by apply IH.
Qed.

(** ** AddRemove *)

Section AddRemoveFacts.
Context {K : Type} `{Countable K} {O : Type}.
Variable leb : O -> O -> bool.
Hypothesis leb_total : forall a b, leb a b = true \/ leb b a = true.
Hypothesis leb_trans :
  forall a b c, leb a b = true -> leb b c = true -> leb a c = true.

Lemma AddRemove_iter_items trav (ar : AddRemove K O) :
  (AddRemove_iter leb trav ar).*2
  = sorted leb (ar_key ar) (trav (ar_left ar ∪ ar_right ar)).
Proof.
  unfold AddRemove_iter. rewrite <- list_fmap_compose.
  by rewrite list_fmap_id.
Qed.

Lemma AddRemove_iter_perm trav (ar : AddRemove K O) :
  (forall X, trav X ≡ₚ elements X) ->
  (AddRemove_iter leb trav ar).*2 ≡ₚ elements (ar_left ar ∪ ar_right ar).
Proof.
  intros Ht. by rewrite AddRemove_iter_items, sorted_perm, Ht.
Qed.

Lemma AddRemove_iter_Sorted trav (ar : AddRemove K O) :
  Sorted (key_le leb (ar_key ar)) (AddRemove_iter leb trav ar).*2.
Proof using leb_total.
  rewrite AddRemove_iter_items. by apply sorted_Sorted.
Qed.

Lemma AddRemove_iter_action trav (ar : AddRemove K O) a x :
  (a, x) ∈ AddRemove_iter leb trav ar -> a = action_of ar x.
Proof.
  unfold AddRemove_iter. intros Hin.
  apply list_elem_of_fmap in Hin as (y & [= -> ->] & _). done.
Qed.

Lemma action_of_cases (ar : AddRemove K O) x :
  (action_of ar x = "equal" <-> x ∈ ar_left ar /\ x ∈ ar_right ar) /\
  (action_of ar x = "delete" <-> x ∈ ar_left ar /\ x ∉ ar_right ar) /\
  (action_of ar x = "add" <-> x ∉ ar_left ar).
Proof.
  unfold action_of.
  destruct (decide (x ∈ ar_left ar)) as [Hl|Hl],
           (decide (x ∈ ar_right ar)) as [Hr|Hr];
    rewrite ?(bool_decide_eq_true_2 _ Hl), ?(bool_decide_eq_true_2 _ Hr),
      ?(bool_decide_eq_false_2 _ Hl), ?(bool_decide_eq_false_2 _ Hr);
    simpl; repeat split; try done; try tauto.
Qed.

End AddRemoveFacts.


(** ** The verdict of [ContentComparer.notify] *)

Lemma all_ignore_spec (vs : list string) :
  forallb (fun rv => bool_decide (rv = "ignore"))
    (elements (list_to_set vs : gset string)) = true
  <-> Forall (fun rv => rv = "ignore") vs.
Proof.
  rewrite forallb_forall, Forall_forall. split.
  - intros Hall rv Hin. eapply bool_decide_eq_true_1.
    apply Hall, list_elem_of_In, elem_of_elements, elem_of_list_to_set, Hin.
  - intros Hall rv Hin. apply bool_decide_eq_true_2. apply Hall.
    by apply list_elem_of_In, elem_of_elements, elem_of_list_to_set in Hin.
Qed.

(** C6.  When every observer answers [ignore] (also when there is none),
    the verdict of [notify] is [ignore] and the statistics observers are
    left as they were; when an observer answers [error], the verdict is
    [error], whatever the others answer, and the statistics observers are
    notified. *)
Theorem notify_verdict c category f data :
  let verdicts := (notify_each (observers c) category f data).*1 in
  (Forall (fun rv => rv = "ignore") verdicts ->
   exists c', ContentComparer_notify c category f data = Ok ("ignore", c') /\
              stat_observers c' = stat_observers c) /\
  ("error" ∈ verdicts ->
   exists c', ContentComparer_notify c category f data = Ok ("error", c') /\
              stat_observers c'
              = (notify_each (stat_observers c) category f data).*2).
Proof.
  intros verdicts. unfold ContentComparer_notify. fold verdicts. split.
  - intros Hall. apply all_ignore_spec in Hall. rewrite Hall. eauto.
  - intros Herr.
    destruct (forallb _ (elements (list_to_set verdicts))) eqn:Hall.
    + apply all_ignore_spec in Hall. rewrite Forall_forall in Hall.
      by specialize (Hall _ Herr).
    + rewrite bool_decide_eq_true_2; [eauto|].
      apply elem_of_difference. split.
      * by apply elem_of_list_to_set.
      * by intros ?%elem_of_singleton.
Qed.

Lemma notify_verdict_witness :
  (exists c',
     ContentComparer_notify
       (mkComparer [verdict_observer "ignore"; verdict_observer "ignore"]
                   [plain_observer])
       "missingEntity" (sample_file "x.properties" []) (Some (t "a"))
     = Ok ("ignore", c') /\ stat_observers c' = [plain_observer]) /\
  (exists c',
     ContentComparer_notify
       (mkComparer [verdict_observer "warning"; verdict_observer "error"] [])
       "missingEntity" (sample_file "x.properties" []) (Some (t "a"))
     = Ok ("error", c') /\ stat_observers c' = []).
Proof.
  split.
  - apply (proj1 (notify_verdict
      (mkComparer [verdict_observer "ignore"; verdict_observer "ignore"]
                  [plain_observer])
      "missingEntity" (sample_file "x.properties" []) (Some (t "a")))).
    by repeat constructor.
  - apply (proj2 (notify_verdict
      (mkComparer [verdict_observer "warning"; verdict_observer "error"] [])
      "missingEntity" (sample_file "x.properties" []) (Some (t "a")))).
    simpl. set_solver.
Defined.

(** C9 fails on the program: with one observer answering [warning] and one
    answering [report], no verdict is [error], two verdicts are left, and the
    assertion of [notify] fails. *)
Theorem notify_assertion_fails :
  ContentComparer_notify
    (mkComparer [verdict_observer "warning"; verdict_observer "report"] [])
    "missingEntity" (sample_file "x.properties" []) (Some (t "a"))
  = Raise AssertionError.
Proof. by vm_compute. Qed.

(** ** The completion rate *)

(** C5 fails on the program.  Comparing a file whose only entry has a key
    with [Key] in its name leaves the summary [{keys: 1}] for the locale:
    no entry is classified, the dashboard row of [toExhibit] divides by the
    total 0 and raises, while the text form of [serialize] prints the rate
    0. *)
Theorem toExhibit_divides_by_zero :
  match sample_compare (mkComparer [plain_observer] [])
          (sample_file "x.properties" (t "fooKey=1" ++ nl))
          (sample_file "x.properties" (t "fooKey=2" ++ nl)) None 0 with
  | Ok (Some (c, _, _)) =>
      summary <$> observers c = [{[ Some (t "de") := {[ "keys" := 1%Z ]} ]}] /\
      toExhibit <$> observers c = [Raise ZeroDivisionError] /\
      serialize_rate {[ "keys" := 1%Z ]} = Ok 0%Z
  | _ => False
  end.
Proof. vm_compute. done. Qed.

(** ** Merging when the grammar cannot merge *)

Lemma compare_merge_defines decode encode cw gc trav c ref_file l10n
  merge_file junkid p c' out j :
  getParser (file ref_file) = Some p -> canMerge p = false ->
  compare decode encode cw gc trav c ref_file l10n merge_file junkid
  = Ok (Some (c', Some out, j)) ->
  out = getContents ref_file.
Proof.
  intros Hgp Hcm. unfold compare. rewrite Hgp.
  destruct (decode (getContents ref_file)) as [ref_contents|e].
  2:{ unfold bind. destruct (ContentComparer_notify _ _ _ _); [|done]. done. }
  destruct (parse p ref_contents junkid) as [[[ref_entities ref_map] j1]|];
    [|done].
  destruct (decode (getContents l10n)) as [l10n_contents|e].
  2:{ unfold bind. destruct (ContentComparer_notify _ _ _ _); [|done]. done. }
  destruct (parse p l10n_contents j1) as [[[l10n_entities l10n_map] j2]|];
    [|done].
  unfold bind at 1.
  destruct (compare_entities _ _ _ _ _ _ _ _ _ _ _) as [[c1 tl]|]; [|done].
  rewrite Hcm. unfold merge. simpl.
  destruct merge_file, (missings tl), (skips tl); simpl; congruence.
Qed.

(** C8.  The defines grammar is the grammar that cannot merge.  For it
    [merge] writes the bytes of the reference file, whatever the missing
    entities and the spans to skip are, and so does every comparison that
    writes a merge file. *)
Theorem merge_copies_reference p :
  canMerge p = false ->
  p = DefinesParser /\
  (forall encode ref_entities ref_map ref_file l10n_file missing skips
          contents,
     merge encode ref_entities ref_map ref_file l10n_file missing skips
       contents (canMerge p) = Ok (getContents ref_file)) /\
  (forall decode encode cw gc trav c ref_file l10n merge_file junkid c' out j,
     getParser (file ref_file) = Some p ->
     compare decode encode cw gc trav c ref_file l10n merge_file junkid
     = Ok (Some (c', Some out, j)) ->
     out = getContents ref_file).
Proof.
  intros Hp. split; [by destruct p|]. split.
  - intros. unfold merge. by rewrite Hp.
  - intros. by eapply compare_merge_defines.
Qed.

Lemma merge_copies_reference_witness :
  merge utf8_7bit_encode [] ∅
    (sample_file "x.inc" (t "#define a b" ++ nl))
    (sample_file "x.inc" (t "junk" ++ nl)) [t "a"] [] (t "junk" ++ nl)
    (canMerge DefinesParser)
  = Ok (t "#define a b" ++ nl).
Proof.
  apply (proj1 (proj2 (merge_copies_reference DefinesParser eq_refl))).
Defined.

(** ** What [merge] appends *)

Lemma StronglySorted_sublist {A} (R : relation A) (l1 l2 : list A) :
  l1 `sublist_of` l2 -> StronglySorted R l2 -> StronglySorted R l1.
Proof.
  induction 1 as [|x l1 l2 Hsub IH|x l1 l2 Hsub IH]; intros Hs.
  - constructor.
  - inversion Hs as [|? ? Hs' Hall]; subst. constructor; [by apply IH|].
    rewrite Forall_forall in Hall |- *. intros y Hy. apply Hall.
    by eapply elem_of_sublist.
  - inversion Hs; subst. by apply IH.
Qed.

Lemma foldM_invariant {A S} (f : S -> A -> result S)
  (I : list A -> S -> Prop) :
  (forall pre s x s', I pre s -> f s x = Ok s' -> I (pre ++ [x]) s') ->
  forall l pre s s', I pre s -> foldM f s l = Ok s' -> I (pre ++ l) s'.
Proof.
  intros Hstep. induction l as [|x l IH]; intros pre s s' HI Hf; simpl in Hf.
  - injection Hf as <-. by rewrite app_nil_r.
  - destruct (f s x) as [s1|] eqn:Hfx; [|done]. simpl in Hf.
    rewrite cons_middle, app_assoc. eapply IH; [|done]. by eapply Hstep.
Qed.

Lemma mapM_ok {A B} (f : A -> result B) (l : list A) :
  Forall (fun x => exists y, f x = Ok y) l ->
  exists ys, mapM f l = Ok ys /\ Forall2 (fun x y => f x = Ok y) l ys.
Proof.
  induction 1 as [|x l [y Hy] _ (ys & Hys & Hall)]; simpl.
  - by exists [].
  - rewrite Hy. simpl. rewrite Hys. simpl. exists (y :: ys).
    split; [done|]. by constructor.
Qed.

Lemma ensureNewline_last s : last (ensureNewline s) = Some NL.
Proof.
  unfold ensureNewline. case_bool_decide; [done|]. apply last_snoc.
Qed.

Lemma parse_items_keyed es : keyed (parse_items es).1 (parse_items es).2.
Proof.
  intros k e. unfold entity_at.
  destruct ((parse_items es).2 !! k) as [i|] eqn:Hm; [|done].
  apply parse_items_map in Hm as [(e' & He' & Hk) _].
  rewrite parse_items_list, He'. by intros [= <-].
Qed.

Section MergeOrder.
Variable countWords : text -> Z.
Variable getChecker : File -> list item -> option Checker.
Variables (ref_entities l10n_entities : list item).
Variables (ref_map l10n_map : gmap text nat).
Variables (ref_file l10n : File) (merge_requested : bool).
Hypothesis l10n_keyed : keyed l10n_entities l10n_map.

Lemma check_step_inv refent l10nent key :
  get_key l10nent = key -> entity_at ref_entities ref_map key = Ok refent ->
  forall (ms : list text) (pre : list (string * CheckPos * text * string))
         st rep st',
    (missings st.2 = ms /\ refs_ok ref_entities ref_map st.2) ->
    check_step l10n merge_requested refent l10nent st rep = Ok st' ->
    missings st'.2 = ms /\ refs_ok ref_entities ref_map st'.2.
Proof using Type.
  intros Hkey Href ms _ [c tl] [[[tp pos] msg] cat] st' [Hms [Hok1 Hok2]] Hs.
  unfold check_step in Hs. destruct l10nent as [le|]; [|done].
  destruct (match pos with
            | PosOffset offset => value_position le offset
            | PosLineCol line col' => _
            end) as [_l col].
  destruct (ContentComparer_notify _ _ _ _) as [r|]; [|done].
  simpl in Hs. injection Hs as <-. simpl.
  destruct (bool_decide (tp = "error") && merge_requested); simpl.
  - split; [done|]. split; [done|].
    apply Forall_app. split; [done|]. constructor; [|done].
    intros _. rewrite Hkey. eauto.
  - done.
Qed.

Lemma compare_step_inv checker pre st ae st' :
  merge_inv ref_entities ref_map pre st ->
  compare_step countWords ref_entities ref_map l10n_entities l10n_map
    ref_file l10n merge_requested checker st ae = Ok st' ->
  merge_inv ref_entities ref_map (pre ++ [ae]) st'.
Proof using l10n_keyed.
  destruct st as [c tl], ae as [action entity].
  intros [Hsub [Hok1 Hok2]] Hs. unfold merge_inv.
  rewrite fmap_app. simpl.
  assert (Hsame : forall c' tl',
            missings tl' = missings tl -> skips tl' = skips tl ->
            merge_inv ref_entities ref_map (pre ++ [(action, entity)])
              (c', tl')).
  { intros c' tl' Hm Hk. unfold merge_inv, refs_ok. rewrite fmap_app.
    simpl. rewrite Hm, Hk. split; [by apply sublist_inserts_r|done]. }
  unfold merge_inv in Hsame. rewrite fmap_app in Hsame. simpl in Hsame.
  unfold compare_step in Hs.
  case_bool_decide as Hdel; [|case_bool_decide as Hadd].
  - destruct (ContentComparer_notify _ _ _ _) as [[_rv c1]|]; [|done].
    simpl in Hs. case_bool_decide.
    { injection Hs as <-. by apply Hsame. }
    case_bool_decide.
    + destruct (entity_at ref_entities ref_map entity) as [refent|] eqn:He;
        [|done].
      simpl in Hs. injection Hs as <-. simpl. split.
      * by apply sublist_app.
      * split; [|done]. apply Forall_app. split; [done|].
        constructor; [eauto|done].
    + injection Hs as <-. by apply Hsame.
  - destruct (entity_at l10n_entities l10n_map entity) as [l10nent|]; [|done].
    simpl in Hs. destruct (isJunk l10nent) eqn:Hj.
    + destruct (position l10nent 0) as [l1 c1].
      destruct (position l10nent (-1)) as [l2 c2].
      destruct (ContentComparer_notify _ _ _ _) as [r|]; [|done].
      simpl in Hs. injection Hs as <-.
      destruct merge_requested; [|by apply Hsame].
      simpl. split; [by apply sublist_inserts_r|]. split; [done|].
      apply Forall_app. split; [done|]. constructor; [|done].
      intros Hnj. congruence.
    + destruct (ContentComparer_notify _ _ _ _) as [r|]; [|done].
      simpl in Hs. injection Hs as <-.
      case_bool_decide; by apply Hsame.
  - destruct (entity_at ref_entities ref_map entity) as [refent|] eqn:Hre;
      [|done].
    destruct (entity_at l10n_entities l10n_map entity) as [l10nent|] eqn:Hle;
      [|done].
    simpl in Hs.
    set (tl1 := if bool_decide (is_Some (re_search keyRE entity 0))
                then _ else _) in Hs.
    assert (Htl1 : missings tl1 = missings tl /\ skips tl1 = skips tl).
    { unfold tl1. repeat case_bool_decide; done. }
    destruct Htl1 as [Hm1 Hk1].
    destruct checker as [check|].
    + pose proof (foldM_invariant
        (check_step l10n merge_requested refent l10nent)
        (fun _ st => missings st.2 = missings tl /\
                     refs_ok ref_entities ref_map st.2)) as Hinv.
      specialize (Hinv (fun pre s x s' HI Hf =>
        check_step_inv refent l10nent entity (l10n_keyed _ _ Hle) Hre
          (missings tl) pre s x s' HI Hf)).
      assert (H0 : missings (c, tl1).2 = missings tl /\
                   refs_ok ref_entities ref_map (c, tl1).2).
      { unfold refs_ok. cbn [snd]. by rewrite Hm1, Hk1. }
      specialize (Hinv _ [] _ _ H0 Hs).
      destruct Hinv as [Hms Hok]. split; [|done].
      rewrite Hms. by apply sublist_inserts_r.
    + injection Hs as <-. by apply Hsame.
Qed.
End MergeOrder.

(** After the loop of [compare] over the diff, the missing keys are in
    ascending order, none twice, and each has its entity in the
    reference. *)
Lemma compare_entities_missings countWords getChecker trav c
  ref_entities ref_map l10n_entities l10n_map ref_file l10n merge_requested
  c' tl :
  (forall X, trav X ≡ₚ elements X) ->
  keyed l10n_entities l10n_map ->
  compare_entities countWords getChecker trav c ref_entities ref_map
    l10n_entities l10n_map ref_file l10n merge_requested = Ok (c', tl) ->
  StronglySorted (key_le text_leb id) (missings tl) /\
  NoDup (missings tl) /\
  refs_ok ref_entities ref_map tl.
Proof.
  intros Ht Hkeyed Hc. unfold compare_entities in Hc.
  set (ar := set_right _ _) in Hc.
  assert (H0 : merge_inv ref_entities ref_map []
                 (c, {| counts := ∅; missings := []; skips := [] |})).
  { split; [apply sublist_nil_l|split; constructor]. }
  assert (Hstep : forall pre st x st',
            merge_inv ref_entities ref_map pre st ->
            compare_step countWords ref_entities ref_map l10n_entities
              l10n_map ref_file l10n merge_requested
              (getChecker l10n ref_entities) st x = Ok st' ->
            merge_inv ref_entities ref_map (pre ++ [x]) st').
  { intros. eapply compare_step_inv; eauto. }
  destruct (foldM_invariant _ (merge_inv ref_entities ref_map) Hstep
              _ [] _ _ H0 Hc) as [Hsub Hok].
  simpl in Hsub. split; [|split; [|done]].
  - eapply StronglySorted_sublist; [exact Hsub|].
    apply Sorted_StronglySorted.
    + intros x y z. unfold key_le. apply text_leb_trans.
    + apply (AddRemove_iter_Sorted text_leb text_leb_total trav ar).
  - eapply sublist_NoDup; [|exact Hsub].
    rewrite (AddRemove_iter_perm text_leb trav ar Ht). apply NoDup_elements.
Qed.




(** ** Lines and columns *)

Lemma newline_ends_app a b i :
  newline_ends (a ++ b) i = newline_ends a i ++ newline_ends b (i + length a).
Proof.
  revert i. induction a as [|c a IH]; intros i; simpl.
  - f_equal. lia.
  - rewrite IH. replace (S i + length a) with (i + S (length a)) by lia.
    case_bool_decide; reflexivity.
Qed.

Lemma newline_ends_bounds s : forall i,
  Forall (fun x => (Z.of_nat i < x <= Z.of_nat (i + length s))%Z)
         (newline_ends s i).
Proof.
  induction s as [|c s IH]; intros i; simpl; [constructor|].
  specialize (IH (S i)).
  assert (Forall (fun x => (Z.of_nat i < x <= Z.of_nat (i + S (length s)))%Z)
            (newline_ends s (S i))) as IH'.
  { eapply Forall_impl; [exact IH|]. simpl. intros x Hx. lia. }
  case_bool_decide; [constructor; [lia|]|]; exact IH'.
Qed.

Lemma newline_ends_length (s : list N) i :
  length (newline_ends s i) = length (filter (fun c => c = NL) s).
Proof.
  revert i. induction s as [|c s IH]; intros i; [reflexivity|].
  rewrite filter_cons. cbn [newline_ends]. case_bool_decide as Hc.
  - subst c. rewrite decide_True by reflexivity. simpl. f_equal. apply IH.
  - rewrite decide_False by congruence. apply IH.
Qed.

Lemma newline_ends_none s i : NL ∉ s -> newline_ends s i = [].
Proof.
  revert i. induction s as [|c s IH]; intros i Hs; simpl; [reflexivity|].
  rewrite not_elem_of_cons in Hs. destruct Hs as [Hc Hs].
  rewrite bool_decide_eq_false_2 by congruence. apply IH, Hs.
Qed.

Lemma newline_ends_last s i :
  last s = Some NL ->
  last (newline_ends s i) = Some (Z.of_nat (i + length s)).
Proof.
  intros Hl. destruct (last_Some s NL) as [[s' ->] _]; [exact Hl|].
  rewrite newline_ends_app, length_app. simpl.
  rewrite last_snoc. do 2 f_equal. lia.
Qed.

Lemma bisect_app_le l1 l2 p :
  Forall (fun x => (x <= p)%Z) l1 -> Forall (fun x => (p < x)%Z) l2 ->
  bisect (l1 ++ l2) p = length l1.
Proof.
  intros H1 H2. unfold bisect. rewrite filter_app, length_app.
  replace (filter (fun x => (x <= p)%Z) l2) with (@nil Z).
  - simpl. rewrite Nat.add_0_r. f_equal.
    induction H1 as [|x l Hx H1 IH]; [reflexivity|].
    rewrite filter_cons, decide_True by exact Hx. f_equal. exact IH.
  - induction H2 as [|x l Hx H2 IH]; [reflexivity|].
    rewrite filter_cons, decide_False by lia. exact IH.
Qed.

(** X1. The line of an offset is one more than the number of newlines
    before it, its column one more than the number of characters since the
    last of them. *)
Theorem lines_line_column (pre cur post : list N) :
  NL ∉ cur -> (pre = [] \/ last pre = Some NL) ->
  lines (pre ++ cur ++ post) (Z.of_nat (length pre + length cur))
  = ((1 + Z.of_nat (length (filter (fun c => c = NL) pre)))%Z,
     (1 + Z.of_nat (length cur))%Z).
Proof.
  intros Hcur Hpre. unfold lines.
  rewrite !newline_ends_app, (newline_ends_none cur) by exact Hcur.
  simpl app.
  rewrite bisect_app_le.
  - rewrite newline_ends_length. f_equal.
    destruct Hpre as [-> | Hl]; simpl; [lia|].
    pose proof (newline_ends_last pre 0 Hl) as Hlast.
    pose proof (newline_ends_length pre 0) as Hlen.
    destruct (filter (fun c => c = NL) pre) as [|x xs] eqn:Hf.
    + destruct (last_Some pre NL) as [[s' ->] _]; [exact Hl|].
      rewrite filter_app in Hf. simpl in Hf.
      rewrite filter_cons, decide_True in Hf by reflexivity.
      destruct (filter (fun c => c = NL) s'); discriminate.
    + simpl length.
      rewrite last_lookup, Hlen in Hlast. simpl in Hlast.
      lazy iota beta.
      rewrite lookup_app_l by (rewrite Hlen; simpl; lia).
      rewrite Hlast. simpl. lia.
  - eapply Forall_impl; [apply newline_ends_bounds|]. simpl. intros x Hx. lia.
  - eapply Forall_impl; [apply newline_ends_bounds|]. simpl. intros x Hx. lia.
Qed.

Lemma lines_line_column_witness :
  lines (t "ab" ++ nl ++ t "cd" ++ t "e") 5%Z = (2%Z, 3%Z).
Proof.
  apply (lines_line_column (t "ab" ++ nl) (t "cd") (t "e")).
  - intros H. apply list_elem_of_In in H. vm_compute in H.
    destruct H as [H|[H|[]]]; discriminate.
  - right. reflexivity.
Defined.

(** ** Observers *)

Lemma stat_of_bump s l c v loc category :
  stat_of (bump l c v s) loc category
  = (stat_of s loc category
     + if bool_decide (loc = l /\ category = c) then v else 0)%Z.
Proof.
  unfold stat_of, bump.
  destruct (decide (loc = l)) as [->|Hl].
  - rewrite lookup_insert_eq. simpl.
    destruct (decide (category = c)) as [->|Hc].
    + rewrite lookup_insert_eq. simpl.
      rewrite bool_decide_eq_true_2 by done. reflexivity.
    + rewrite lookup_insert_ne by done.
      rewrite bool_decide_eq_false_2 by (intros [_ ?]; done). lia.
  - rewrite lookup_insert_ne by done.
    rewrite bool_decide_eq_false_2 by (intros [? _]; done). lia.
Qed.

(** X. Statistics add up: unless the filter ignores the file,
    [updateStats] adds each value of [stats] to the counter of its category
    for the locale of the file and changes no other counter; when the
    filter ignores the file the observer stays as it is. *)
Theorem updateStats_adds (o : Observer) (f : File) (stats : gmap string Z) :
  ((exists filter, o_filter o = Some filter /\ filter f (Some []) = "ignore") ->
   Observer_updateStats o f stats = o) /\
  ((forall filter, o_filter o = Some filter ->
                   filter f (Some []) <> "ignore") ->
   forall loc category,
     stat_of (summary (Observer_updateStats o f stats)) loc category
     = (stat_of (summary o) loc category
        + if bool_decide (loc = locale f)
          then default 0 (stats !! category) else 0)%Z).
Proof.
  split.
  { intros (filter & Hf & Hig). unfold Observer_updateStats.
    rewrite Hf, Hig. reflexivity. }
  intros Hfilter loc category. unfold Observer_updateStats.
  replace (match o_filter o with
           | Some filter => bool_decide (filter f (Some []) = "ignore")
           | None => false
           end) with false.
  2:{ destruct (o_filter o) as [filter|] eqn:Hf; [|reflexivity].
      symmetry. apply bool_decide_eq_false_2, Hfilter. reflexivity. }
  assert (stat_of
            (map_fold (fun category value s => bump (locale f) category value s)
               (summary o) stats) loc category
          = (stat_of (summary o) loc category
             + if bool_decide (loc = locale f)
               then default 0 (stats !! category) else 0)%Z) as Hsum.
  { apply (map_fold_weak_ind
             (fun r (m : gmap string Z) =>
                stat_of r loc category
                = (stat_of (summary o) loc category
                   + if bool_decide (loc = locale f)
                     then default 0 (m !! category) else 0)%Z)).
    - rewrite lookup_empty. simpl. case_bool_decide; lia.
    - intros i x m r Hi IH. rewrite stat_of_bump, IH.
      destruct (decide (loc = locale f)) as [Hl|Hl].
      + rewrite (bool_decide_eq_true_2 _ Hl).
        destruct (decide (category = i)) as [->|Hc].
        * rewrite lookup_insert_eq, Hi. simpl.
          rewrite bool_decide_eq_true_2 by done. lia.
        * rewrite lookup_insert_ne by done.
          rewrite bool_decide_eq_false_2 by (intros [_ ?]; done). lia.
      + rewrite (bool_decide_eq_false_2 _ Hl).
        rewrite bool_decide_eq_false_2 by (intros [? _]; done). lia. }
  destruct (file_stats o) as [fs|]; [|exact Hsum].
  destruct (stats !! "missingInFiles"); exact Hsum.
Qed.

Lemma updateStats_adds_witness :
  stat_of (summary (Observer_updateStats
                      (Observer_updateStats plain_observer
                         (sample_file "x.properties" [])
                         {[ "missing" := 2%Z ]})
                      (sample_file "y.properties" [])
                      {[ "missing" := 3%Z; "changed" := 1%Z ]}))
          (Some (t "de")) "missing"
  = 5%Z.
Proof.
  rewrite (proj2 (updateStats_adds _ _ _))
    by (intros filter H; discriminate H).
  rewrite (proj2 (updateStats_adds _ _ _))
    by (intros filter H; discriminate H).
  reflexivity.
Defined.

Lemma notify_each_recorded obs category f data :
  category ∈ ["error"; "warning"] ->
  notify_each obs category f data
  = (fun o => ("error", recorded category f data o)) <$> obs.
Proof.
  intros Hc. unfold notify_each. apply list_fmap_ext. intros _ o _.
  unfold Observer_notify.
  assert (category = "error" \/ category = "warning") as [-> | ->];
    [|reflexivity..].
  rewrite !elem_of_cons in Hc. destruct Hc as [?|[?|Hc]]; [tauto..|].
  inversion Hc.
Qed.

(** X. Errors and warnings pass every filter: with at least one observer,
    [notify] of the category [error] or [warning] answers [error], and every
    observer, the statistics observers too, records the event and counts it.
    With no observer at all [notify] answers [ignore] for every category
    and leaves the statistics observers as they are. *)
Theorem notify_error_recorded c category f data :
  (category ∈ ["error"; "warning"] -> observers c <> [] ->
   ContentComparer_notify c category f data
   = Ok ("error",
         mkComparer (recorded category f data <$> observers c)
                    (recorded category f data <$> stat_observers c))) /\
  (observers c = [] ->
   ContentComparer_notify c category f data = Ok ("ignore", c)).
Proof.
  split.
  - intros Hc Hobs. unfold ContentComparer_notify.
    rewrite !(notify_each_recorded _ _ _ _ Hc).
    rewrite <- !list_fmap_compose.
    destruct (observers c) as [|o obs] eqn:Ho; [done|].
    assert ((list_to_set
               ((fst ∘ (fun o => ("error", recorded category f data o)))
                <$> o :: obs) : gset string) = {["error"]}) as ->.
    { apply set_eq. intros x. rewrite elem_of_list_to_set, elem_of_singleton.
      rewrite list_elem_of_fmap. split.
      - intros (y & -> & _). reflexivity.
      - intros ->. exists o. split; [reflexivity|]. left. }
    rewrite elements_singleton. simpl.
    rewrite bool_decide_eq_true_2 by set_solver.
    reflexivity.
  - intros Hobs. unfold ContentComparer_notify. rewrite Hobs. simpl.
    rewrite elements_empty. simpl. destruct c; simpl in *. congruence.
Qed.

Lemma notify_error_recorded_witness :
  ContentComparer_notify
    (mkComparer [verdict_observer "ignore"] [plain_observer]) "warning"
    (sample_file "x.properties" []) (Some (t "w"))
  = Ok ("error",
        mkComparer
          [recorded "warning" (sample_file "x.properties" []) (Some (t "w"))
             (verdict_observer "ignore")]
          [recorded "warning" (sample_file "x.properties" []) (Some (t "w"))
             plain_observer]).
Proof.
  apply (notify_error_recorded
           (mkComparer [verdict_observer "ignore"] [plain_observer])
           "warning" (sample_file "x.properties" []) (Some (t "w"))).
  - set_solver.
  - discriminate.
Defined.

(** ** The dashboard *)

Lemma sum_present_nonneg (summary : gmap string Z) ks :
  (forall k v, summary !! k = Some v -> (0 <= v)%Z) ->
  (0 <= sum_present summary ks)%Z.
Proof.
  intros Hpos. unfold sum_present.
  induction ks as [|k ks IH]; simpl; [lia|].
  destruct (summary !! k) as [v|] eqn:Hk; simpl; [|exact IH].
  specialize (Hpos k v Hk). apply Z.add_nonneg_nonneg; [exact Hpos|exact IH].
Qed.

Lemma changed_le_total (summary : gmap string Z) :
  (forall k v, summary !! k = Some v -> (0 <= v)%Z) ->
  (0 <= changed_times_100 summary
   <= 100 * sum_present summary classified)%Z.
Proof.
  intros Hpos. unfold changed_times_100, classified.
  pose proof (sum_present_nonneg summary
                ["unchanged"; "report"; "missing"; "missingInFiles"] Hpos)
    as Hrest.
  unfold sum_present in *. cbn [omap list_omap] in *.
  destruct (summary !! "changed") as [c|] eqn:Hc; simpl.
  - specialize (Hpos _ _ Hc).
    destruct (c * 100 =? 0)%Z eqn:Hz.
    + lia.
    + lia.
  - lia.
Qed.

(** X. The share of changed entries is a percentage: when no counter is
    negative, the text report never divides by zero, its rate lies between
    0 and 100, and the dashboard row, when [toExhibit] gives one, has the
    same rate as its completion. *)
Theorem completion_is_percentage loc (summary : gmap string Z) :
  (forall k v, summary !! k = Some v -> (0 <= v)%Z) ->
  exists rate,
    serialize_rate summary = Ok rate /\ (0 <= rate <= 100)%Z /\
    forall item, exhibit_item loc summary = Ok item ->
                 item !! "completion" = Some (JNum rate).
Proof.
  intros Hpos. pose proof (changed_le_total summary Hpos) as Hle.
  pose proof (sum_present_nonneg summary classified Hpos) as Htot.
  unfold serialize_rate, exhibit_item, py_div.
  destruct (sum_present summary classified =? 0)%Z eqn:Hz.
  - exists 0%Z. split; [reflexivity|]. split; [lia|].
    intros item Hitem. simpl in Hitem. discriminate Hitem.
  - apply Z.eqb_neq in Hz.
    exists (changed_times_100 summary / sum_present summary classified)%Z.
    split; [reflexivity|]. split.
    + split.
      * apply Z.div_pos; lia.
      * apply Z.div_le_upper_bound; lia.
    + intros item Hitem. simpl in Hitem. injection Hitem as <-.
      rewrite lookup_insert_ne by done.
      rewrite lookup_insert_ne by done.
      cbn [foldr].
      rewrite !lookup_insert_ne by done.
      rewrite lookup_insert_eq. reflexivity.
Qed.

Lemma completion_is_percentage_witness :
  exists rate,
    serialize_rate {[ "changed" := 1%Z; "missing" := 2%Z ]} = Ok rate /\
    (0 <= rate <= 100)%Z.
Proof.
  destruct (completion_is_percentage None
              {[ "changed" := 1%Z; "missing" := 2%Z ]}) as (rate & H & Hr & _).
  - intros k v Hk.
    apply lookup_insert_Some in Hk as [[_ <-]|[_ Hk]]; [lia|].
    apply lookup_singleton_Some in Hk as [_ <-]. lia.
  - exists rate. split; assumption.
Defined.

(** ** Pickling *)

Lemma _dictify_id {K} `{Countable K} {V} (d : gmap K V) : _dictify d = d.
Proof.
  unfold _dictify.
  apply (map_fold_weak_ind (fun r (m : gmap K V) => r = m)); [reflexivity|].
  intros i x m r _ ->. reflexivity.
Qed.

Lemma update_all_id {K} `{Countable K} {K'} `{Countable K'} {V}
  (state : gmap K (gmap K' V)) : update_all state = state.
Proof.
  unfold update_all.
  apply (map_fold_weak_ind (fun r (m : gmap K (gmap K' V)) => r = m));
    [reflexivity|].
  intros i x m r Hi ->. rewrite Hi. simpl.
  rewrite (right_id_L ∅ (∪)). reflexivity.
Qed.

(** X. Pickling round trip: an observer restored from its pickled state
    has the summary, the details and the file statistics it had, and no
    filter. *)
Theorem Observer_pickle_round_trip (o : Observer) :
  Observer_setstate (Observer_getstate o)
  = Ok (mkObserver None (summary o) (details o) (file_stats o)).
Proof.
  unfold Observer_setstate, Observer_getstate. simpl.
  rewrite _dictify_id, update_all_id. f_equal. f_equal.
  destruct (file_stats o) as [fs|]; simpl; [|reflexivity].
  rewrite _dictify_id, update_all_id. reflexivity.
Qed.

(** ** The items of a run *)

Lemma entity_loop_yields p ctx : forall fuel offset junkid es o j,
  entity_loop p fuel ctx offset junkid = Some (es, o, j) ->
  yields p ctx offset junkid es o j.
Proof.
  induction fuel as [|fuel IH]; intros offset junkid es o j He; [done|].
  simpl in He.
  destruct (getEntity p ctx offset junkid) as [[[e o1] j1]|] eqn:Hg; [|done].
  destruct e as [e|].
  - destruct (entity_loop p fuel ctx o1 j1) as [[[es' o'] j']|] eqn:Hl; [|done].
    injection He as <- <- <-.
    eapply yields_more; [exact Hg|]. by apply IH.
  - injection He as <- <- <-. by apply yields_done.
Qed.

(** What a run of the iterator is made of: the header, the loop, the
    footer and the Junk after it. *)
Lemma Parser_iter_inv p contents junkid it :
  Parser_iter p contents junkid = Some it ->
  exists o0 es o1 j1 o2,
    getHeader p contents 0 = (header it, o0) /\
    yields p contents o0 junkid es o1 j1 /\
    match re_match (reFooter p) contents o1 with
    | Some f => footer it = group0 contents f /\ o2 = m_end f
    | None => footer it = [] /\ o2 = o1
    end /\
    ((o2 < length contents /\
      yielded it = es ++ [IJunk (newJunk contents o2 (length contents) j1).1] /\
      junkid_after it = S j1) \/
     (length contents <= o2 /\ yielded it = es /\ junkid_after it = j1)).
Proof.
  unfold Parser_iter. intros Hit.
  destruct (getHeader p contents 0) as [h o0] eqn:Hh.
  destruct (entity_loop p (S (length contents)) contents o0 junkid)
    as [[[es o1] j1]|] eqn:Hl; [|done].
  apply entity_loop_yields in Hl.
  destruct (re_match (reFooter p) contents o1) as [f|] eqn:Hf.
  - destruct (m_end f <? length contents) eqn:Hlt.
    + apply Nat.ltb_lt in Hlt. injection Hit as <-.
      exists o0, es, o1, j1, (m_end f). rewrite Hf. simpl.
      split; [done|]. split; [done|]. split; [done|]. left. done.
    + apply Nat.ltb_ge in Hlt. injection Hit as <-.
      exists o0, es, o1, j1, (m_end f). rewrite Hf. simpl.
      split; [done|]. split; [done|]. split; [done|]. right. done.
  - destruct (o1 <? length contents) eqn:Hlt.
    + apply Nat.ltb_lt in Hlt. injection Hit as <-.
      exists o0, es, o1, j1, o1. rewrite Hf. simpl.
      split; [done|]. split; [done|]. split; [done|]. left. done.
    + apply Nat.ltb_ge in Hlt. injection Hit as <-.
      exists o0, es, o1, j1, o1. rewrite Hf. simpl.
      split; [done|]. split; [done|]. split; [done|]. right. done.
Qed.

Lemma yields_tiled p ctx offset junkid es o j :
  yields p ctx offset junkid es o j -> offset <= length ctx ->
  tiled ctx offset es o /\ o <= length ctx.
Proof.
  induction 1 as [offset junkid o j Hg|offset junkid e o1 j1 es o j Hg Hy IH];
    intros Ho.
  - apply getEntity_none in Hg as ->. done.
  - apply getEntity_some in Hg as [Hlt Hc]; [|done].
    destruct IH as [IH Hle]; [lia|]. split; [|done].
    exists o1. split; [lia|]. done.
Qed.

Lemma tiled_app ctx a es1 m es2 b :
  tiled ctx a es1 m -> tiled ctx m es2 b -> tiled ctx a (es1 ++ es2) b.
Proof.
  revert a. induction es1 as [|e es1 IH]; intros a H1 H2; simpl in *.
  - by subst.
  - destruct H1 as (m' & Hlt & Hc & H1). exists m'. eauto.
Qed.

(** X. The items of a run never overlap and none is empty: the items
    of the loop lie side by side from the end of the header to the start of
    the footer, and the Junk after the footer, if there is one, goes from
    the end of the footer to the end of the text. *)
Theorem items_lie_side_by_side p contents junkid :
  exists it body tail o,
    Parser_iter p contents junkid = Some it /\
    yielded it = body ++ tail /\
    tiled contents (length (header it)) body o /\
    tiled contents (o + length (footer it)) tail (length contents).
Proof.
  destruct (parse_total p contents junkid) as (it & Hit & _).
  destruct (Parser_iter_inv _ _ _ _ Hit)
    as (o0 & es & o1 & j1 & o2 & Hh & Hy & Hf & Htail).
  apply getHeader_take in Hh as [Ho0 Hh].
  apply yields_tiled in Hy as [Hy Ho1]; [|done].
  assert (length (header it) = o0) as Hlen.
  { rewrite Hh, length_take. lia. }
  assert (o1 + length (footer it) = o2 /\ o2 <= length contents) as [Hfoot Ho2].
  { destruct (re_match (reFooter p) contents o1) as [f|] eqn:Hm.
    - destruct Hf as [-> ->].
      destruct (re_match_bounds _ _ _ _ Hm Ho1) as [Hst Hend].
      rewrite (group0_take contents f o1) by (done || lia).
      rewrite length_take, length_drop. lia.
    - destruct Hf as [-> ->]. simpl. lia. }
  destruct Htail as [(Hlt & Hyd & _)|(Hge & Hyd & _)].
  - exists it, es, [IJunk (newJunk contents o2 (length contents) j1).1], o1.
    rewrite Hlen, Hfoot. split; [done|]. split; [done|]. split; [done|].
    simpl. exists (length contents). split; [done|]. split; [|done]. done.
  - exists it, es, [], o1.
    rewrite Hlen, Hfoot. split; [done|]. split; [by rewrite app_nil_r|].
    split; [done|]. simpl. lia.
Qed.

(** ** The keys of Junk *)

Lemma dec_digits_undigits : forall fuel n acc,
  N.to_nat n < fuel ->
  undigits (dec_digits fuel n acc)
  = foldl (fun a d => (10 * a + (d - 48))%N) n acc.
Proof.
  unfold undigits.
  induction fuel as [|fuel IH]; intros n acc Hf; [lia|]. simpl.
  assert (n = 10 * (n / 10) + n mod 10)%N as Hn by apply N.div_mod'.
  assert (n mod 10 < 10)%N as Hm by (apply N.mod_lt; lia).
  destruct (n / 10 =? 0)%N eqn:Hz.
  - apply N.eqb_eq in Hz. cbn [foldl]. f_equal.
    revert Hn Hz. generalize (n / 10)%N (n mod 10)%N. lia.
  - apply N.eqb_neq in Hz.
    rewrite IH by (revert Hn Hz Hf; generalize (n / 10)%N (n mod 10)%N; lia).
    cbn [foldl]. f_equal. revert Hn. generalize (n / 10)%N (n mod 10)%N. lia.
Qed.

Lemma dec_digits_digits : forall fuel n acc,
  Forall (fun d => (48 <= d <= 57)%N) acc ->
  Forall (fun d => (48 <= d <= 57)%N) (dec_digits fuel n acc).
Proof.
  induction fuel as [|fuel IH]; intros n acc Hacc; [done|]. simpl.
  assert (n mod 10 < 10)%N as Hm by (apply N.mod_lt; lia).
  assert (Forall (fun d => (48 <= d <= 57)%N) ((48 + n mod 10)%N :: acc)).
  { constructor; [revert Hm; generalize (n mod 10)%N; lia|done]. }
  destruct (n / 10 =? 0)%N; [done|]. by apply IH.
Qed.

Lemma fmt_d_nat n :
  undigits (fmt_d (Z.of_nat n)) = N.of_nat n /\
  Forall (fun d => (48 <= d <= 57)%N) (fmt_d (Z.of_nat n)).
Proof.
  unfold fmt_d.
  destruct (Z.ltb_spec (Z.of_nat n) 0) as [Hneg|_]; [lia|]. cbn [app].
  rewrite Z.abs_eq by lia.
  split.
  - rewrite dec_digits_undigits by lia. cbn [foldl]. lia.
  - by apply dec_digits_digits.
Qed.

Lemma digits_until (d1 d2 r1 r2 : list N) c :
  c ∉ d1 -> c ∉ d2 -> d1 ++ c :: r1 = d2 ++ c :: r2 -> d1 = d2.
Proof.
  revert d2. induction d1 as [|x d1 IH]; intros [|y d2] H1 H2 Heq; simpl in *.
  - done.
  - injection Heq as -> _. set_solver.
  - injection Heq as -> _. set_solver.
  - injection Heq as -> Heq. f_equal. apply (IH d2); set_solver.
Qed.

Lemma junk_key_id id a b id' a' b' :
  junk_key id a b = junk_key id' a' b' -> id = id'.
Proof.
  unfold junk_key. intros Heq. apply app_inv_head in Heq.
  destruct (fmt_d_nat id) as [Hv Hd], (fmt_d_nat id') as [Hv' Hd'].
  change (t "_") with [95%N] in Heq. simpl in Heq.
  apply digits_until in Heq.
  - rewrite Heq in Hv. lia.
  - intros Hin. rewrite Forall_forall in Hd. apply Hd in Hin. lia.
  - intros Hin. rewrite Forall_forall in Hd'. apply Hd' in Hin. lia.
Qed.

(** Every result of [getEntity]: an entity, and the counter is at least
    what it was; or a Junk with the next counter. *)
Lemma getEntity_counter p ctx offset junkid e o j :
  getEntity p ctx offset junkid = Some (e, o, j) ->
  junkid <= j /\
  forall jk, e = Some (IJunk jk) ->
             exists a b, j_key jk = junk_key j a b /\ junkid < j.
Proof.
  assert (Hjunk : forall q e o j,
            junk_until_key q ctx offset junkid = (e, o, j) ->
            junkid <= j /\
            forall jk, e = Some (IJunk jk) ->
                       exists a b, j_key jk = junk_key j a b /\ junkid < j).
  { intros q e' o' j'. unfold junk_until_key.
    destruct (re_search (reKey q) ctx offset) as [m|].
    - intros [= <- <- <-]. split; [lia|]. intros jk [= <-].
      exists offset, (m_start m). split; [reflexivity|lia].
    - intros [= <- <- <-]. split; [lia|]. done. }
  assert (Hparser : forall q e o j,
            Parser_getEntity q ctx offset junkid = (e, o, j) ->
            junkid <= j /\
            forall jk, e = Some (IJunk jk) ->
                       exists a b, j_key jk = junk_key j a b /\ junkid < j).
  { intros q e' o' j'. unfold Parser_getEntity.
    destruct (re_match (reKey q) ctx offset) as [m|].
    - intros [= <- <- <-]. split; [lia|]. done.
    - destruct (match re_match (reFooter q) ctx offset with
                | Some f => offset <? m_end f
                | None => false
                end).
      + intros [= <- <- <-]. split; [lia|]. done.
      + apply Hjunk. }
  intros Hg. destruct p; simpl in Hg.
  - injection Hg as Hg. unfold DTD_getEntity in Hg.
    destruct (Parser_getEntity DTDParser ctx offset junkid)
      as [[entity inner] j'] eqn:Hp.
    apply Hparser in Hp as [Hle Hk].
    destruct entity as [[e'|jk']|].
    + injection Hg as <- <- <-. split; [done|]. done.
    + destruct (re_match DTD_rePE ctx offset) as [m|].
      * injection Hg as <- <- <-. split; [done|]. done.
      * injection Hg as <- <- <-. split; [done|]. done.
    + destruct (re_match DTD_rePE ctx offset) as [m|].
      * injection Hg as <- <- <-. split; [done|]. done.
      * injection Hg as <- <- <-. split; [done|]. done.
  - unfold Properties_getEntity in Hg.
    destruct (re_match Properties_reKey ctx offset) as [m|].
    + destruct (value_lines (S (length ctx)) ctx (m_end m)) as [[ev o']|];
        [|done].
      injection Hg as <- <- <-. split; [lia|]. done.
    + injection Hg as Hg. by eapply Hjunk.
  - injection Hg as Hg. by eapply Hparser.
  - injection Hg as Hg. by eapply Hparser.
Qed.

Lemma junk_ids_above_weaken lo lo' es :
  lo' <= lo -> junk_ids_above lo es -> junk_ids_above lo' es.
Proof.
  intros Hle. destruct es as [|[e|j] es]; simpl; [done| |].
  - revert lo lo' Hle. induction es as [|[e'|j'] es IH]; intros lo lo' Hle;
      simpl; [done| |].
    + by apply IH.
    + intros (id & a & b & Hlt & Hk & Hrest). exists id, a, b.
      split; [lia|]. done.
  - intros (id & a & b & Hlt & Hk & Hrest). exists id, a, b.
    split; [lia|]. done.
Qed.

Lemma yields_junk_ids p ctx offset junkid es o j :
  yields p ctx offset junkid es o j ->
  junkid <= j /\ junk_ids_above junkid es /\
  forall i jk, es !! i = Some (IJunk jk) ->
               exists id a b, j_key jk = junk_key id a b /\ id <= j.
Proof.
  induction 1 as [offset junkid o j Hg|offset junkid e o1 j1 es o j Hg Hy IH].
  - apply getEntity_counter in Hg as [Hle _]. split; [done|]. split; [done|].
    intros i jk Hi. done.
  - apply getEntity_counter in Hg as [Hle Hk].
    destruct IH as (Hle' & Habove & Hall).
    split; [lia|]. split.
    + destruct e as [e|jk]; simpl.
      * by apply (junk_ids_above_weaken j1).
      * destruct (Hk jk eq_refl) as (a & b & Hkey & Hlt).
        exists j1, a, b. done.
    + intros [|i] jk Hi; simpl in Hi.
      * injection Hi as ->. destruct (Hk jk eq_refl) as (a & b & Hkey & Hlt).
        exists j1, a, b. split; [done|lia].
      * by eapply Hall.
Qed.

Lemma junk_ids_above_snoc lo es hi jk a b :
  junk_ids_above lo es ->
  (forall i jk', es !! i = Some (IJunk jk') ->
                 exists id a' b', j_key jk' = junk_key id a' b' /\ id < hi) ->
  lo < hi -> j_key jk = junk_key hi a b ->
  junk_ids_above lo (es ++ [IJunk jk]).
Proof.
  revert lo. induction es as [|[e|j'] es IH]; intros lo Habove Hall Hlt Hk;
    simpl in *.
  - exists hi, a, b. done.
  - apply IH; [done| |done|done].
    intros i jk' Hi. apply (Hall (S i) jk' Hi).
  - destruct Habove as (id & a' & b' & Hlo & Hkey & Hrest).
    exists id, a', b'. split; [done|]. split; [done|].
    destruct (Hall 0 j' eq_refl) as (id' & a'' & b'' & Hkey' & Hid').
    rewrite Hkey in Hkey'. apply junk_key_id in Hkey' as <-.
    apply IH; [done| |done|done].
    intros i jk' Hi. apply (Hall (S i) jk' Hi).
Qed.

Lemma junk_ids_above_distinct lo es i i' jk jk' :
  junk_ids_above lo es -> i < i' ->
  es !! i = Some (IJunk jk) -> es !! i' = Some (IJunk jk') ->
  j_key jk <> j_key jk'.
Proof.
  assert (Hlater : forall es lo i jk, junk_ids_above lo es ->
            es !! i = Some (IJunk jk) ->
            exists id a b, lo < id /\ j_key jk = junk_key id a b).
  { clear. induction es as [|[e|j] es IH]; intros lo i jk Habove Hi;
      [done| |].
    - destruct i as [|i]; [done|]. by apply (IH lo i).
    - simpl in Habove. destruct Habove as (id & a & b & Hlo & Hk & Hrest).
      destruct i as [|i]; simpl in Hi.
      + injection Hi as <-. eauto.
      + destruct (IH id i jk Hrest Hi) as (id' & a' & b' & Hlt & Hk').
        exists id', a', b'. split; [lia|done]. }
  revert lo i i'. induction es as [|[e|j] es IH]; intros lo i i' Habove Hlt Hi Hi';
    [done| |].
  - destruct i' as [|i']; [lia|]. destruct i as [|i]; [done|].
    apply (IH lo i i'); [done|lia|done|done].
  - simpl in Habove. destruct Habove as (id & a & b & Hlo & Hk & Hrest).
    destruct i' as [|i']; [lia|]. simpl in Hi'.
    destruct i as [|i]; simpl in Hi.
    + injection Hi as <-.
      destruct (Hlater es id i' jk' Hrest Hi') as (id' & a' & b' & Hid & Hk').
      rewrite Hk, Hk'. intros Heq. apply junk_key_id in Heq. lia.
    + apply (IH id i i'); [done|lia|done|done].
Qed.

(** X. No two Junk of a run have the same key: the class counter in the
    key grows from one Junk to the next. *)
Theorem junk_keys_differ p contents junkid :
  exists it,
    Parser_iter p contents junkid = Some it /\
    forall i i' jk jk',
      yielded it !! i = Some (IJunk jk) ->
      yielded it !! i' = Some (IJunk jk') ->
      i <> i' -> j_key jk <> j_key jk'.
Proof.
  destruct (parse_total p contents junkid) as (it & Hit & _).
  exists it. split; [done|].
  destruct (Parser_iter_inv _ _ _ _ Hit)
    as (o0 & es & o1 & j1 & o2 & _ & Hy & _ & Htail).
  apply yields_junk_ids in Hy as (Hle & Habove & Hall).
  assert (junk_ids_above junkid (yielded it)) as Hids.
  { destruct Htail as [(_ & -> & _)|(_ & -> & _)]; [|done].
    eapply (junk_ids_above_snoc _ _ (S j1)); [done| |lia|reflexivity].
    intros i jk Hi. destruct (Hall i jk Hi) as (id & a & b & Hk & Hid).
    exists id, a, b. split; [done|lia]. }
  intros i i' jk jk' Hi Hi' Hne.
  destruct (decide (i < i')) as [Hlt|Hge].
  - by eapply junk_ids_above_distinct.
  - intros Heq. symmetry in Heq. revert Heq.
    eapply (junk_ids_above_distinct junkid (yielded it) i' i); [done|lia|done|done].
Qed.

(** ** Matches and groups *)

Lemma star_loop_matches g a k
  (IH : forall s k f, rmatch a s k = Some f ->
                      exists s', matches a s s' /\ k s' = Some f) :
  forall n s f,
    star_loop (rmatch a) g k n s = Some f ->
    exists s', matches (Star g a) s s' /\ k s' = Some f.
Proof.
  induction n as [|n IHn]; intros s f Hs; simpl in Hs.
  - exists s. split; [constructor|done].
  - assert (Hmore : forall f,
              rmatch a s (fun s' => if pos s <? pos s'
                                    then star_loop (rmatch a) g k n s'
                                    else None) = Some f ->
              exists s', matches (Star g a) s s' /\ k s' = Some f).
    { intros f' Hf. apply IH in Hf as (s1 & Ha & Hk).
      destruct (pos s <? pos s1) eqn:Hlt; [|done].
      apply Nat.ltb_lt in Hlt. apply IHn in Hk as (s2 & Hstar & Hk).
      exists s2. split; [|done]. by eapply matches_StarS. }
    assert (Hstop : forall f, k s = Some f ->
              exists s', matches (Star g a) s s' /\ k s' = Some f).
    { intros f' Hf. exists s. split; [constructor|done]. }
    destruct g; unfold orelse in Hs.
    + destruct (rmatch a s _) as [f'|] eqn:Hm.
      * injection Hs as ->. by apply Hmore.
      * by apply Hstop.
    + destruct (k s) as [f'|] eqn:Hk.
      * injection Hs as ->. by apply Hstop.
      * by apply Hmore.
Qed.

(** The matcher is sound: what it finds is a match. *)
Lemma rmatch_matches r : forall s k f,
  rmatch r s k = Some f -> exists s', matches r s s' /\ k s' = Some f.
Proof.
  induction r as [|cl|a IHa b IHb|a IHa b IHb|g a IHa|n a IHa|ml|ml|a IHa];
    intros s k f Hm; simpl in Hm.
  - exists s. split; [constructor|done].
  - destruct (rest s) as [|c tl] eqn:Hr; [done|].
    destruct (cl_mem cl c) eqn:Hc; [|done].
    exists (step s c tl). split; [by constructor|done].
  - apply IHa in Hm as (s1 & Ha & Hm). apply IHb in Hm as (s2 & Hb & Hm).
    exists s2. split; [by econstructor|done].
  - unfold orelse in Hm. destruct (rmatch a s k) as [f'|] eqn:Ha.
    + injection Hm as ->. apply IHa in Ha as (s' & Ha & Hk).
      exists s'. split; [by apply matches_AltL|done].
    + apply IHb in Hm as (s' & Hb & Hk).
      exists s'. split; [by apply matches_AltR|done].
  - by eapply star_loop_matches.
  - apply IHa in Hm as (s' & Ha & Hk).
    exists (capture n s s'). split; [by constructor|done].
  - destruct (at_bol ml s) eqn:Hb; [|done].
    exists s. split; [by constructor|done].
  - destruct (at_eol ml s) eqn:Hb; [|done].
    exists s. split; [by constructor|done].
  - destruct (rmatch a s Some) eqn:Ha; [done|].
    exists s. split; [by constructor|done].
Qed.

Lemma matches_reaches r s s' : matches r s s' -> reaches (min_len r) s s'.
Proof.
  induction 1 as [s|cl s c tl Hr Hc|a b s s1 s2 _ IHa _ IHb|a b s s' _ IH
                 |a b s s' _ IH|g a s|g a s s1 s2 _ IHa Hlt _ IHs
                 |n a s s' _ IH|ml s Hb|ml s Hb|a s Hn]; simpl.
  - split; lia.
  - unfold reaches. simpl. rewrite Hr. simpl. lia.
  - by eapply reaches_trans.
  - eapply reaches_weaken; [|exact IH]. lia.
  - eapply reaches_weaken; [|exact IH]. lia.
  - split; lia.
  - eapply reaches_weaken; [|eapply reaches_trans; [exact IHa|exact IHs]]. lia.
  - exact IH.
  - split; lia.
  - split; lia.
  - split; lia.
Qed.

Lemma matches_caps r s s' :
  matches r s s' ->
  exists new, caps s' = new ++ caps s /\ Forall (fun c => c.1 ∈ groups r) new.
Proof.
  induction 1 as [s|cl s c tl Hr Hc|a b s s1 s2 _ IHa _ IHb|a b s s' _ IH
                 |a b s s' _ IH|g a s|g a s s1 s2 _ IHa Hlt _ IHs
                 |n a s s' _ IH|ml s Hb|ml s Hb|a s Hn]; simpl;
    try (exists []; split; [reflexivity|constructor]).
  - destruct IHa as (n1 & E1 & H1), IHb as (n2 & E2 & H2).
    exists (n2 ++ n1). split; [by rewrite E2, E1, app_assoc|].
    apply Forall_app. split; (eapply Forall_impl; [eassumption|]);
      intros c; rewrite elem_of_app; tauto.
  - destruct IH as (n1 & E1 & H1). exists n1. split; [done|].
    eapply Forall_impl; [eassumption|]. intros c; rewrite elem_of_app; tauto.
  - destruct IH as (n1 & E1 & H1). exists n1. split; [done|].
    eapply Forall_impl; [eassumption|]. intros c; rewrite elem_of_app; tauto.
  - destruct IHa as (n1 & E1 & H1), IHs as (n2 & E2 & H2).
    exists (n2 ++ n1). split; [by rewrite E2, E1, app_assoc|].
    apply Forall_app. done.
  - destruct IH as (n1 & E1 & H1). exists ((n, (pos s, pos s')) :: n1).
    split; [by rewrite E1|]. constructor; [simpl; left|].
    eapply Forall_impl; [eassumption|]. intros c Hc. by right.
Qed.

Lemma cap_of_skip new l i :
  Forall (fun c => c.1 ≠ i) new -> cap_of (new ++ l) i = cap_of l i.
Proof.
  unfold cap_of. induction 1 as [|c new Hc Hnew IH]; [done|]. simpl.
  rewrite decide_False by done. revert IH.
  destruct (list_find _ (new ++ l)) as [[? ?]|], (list_find _ l) as [[? ?]|];
    simpl; congruence.
Qed.

Lemma cap_of_other l n ab i : n <> i -> cap_of ((n, ab) :: l) i = cap_of l i.
Proof.
  intros Hn. apply (cap_of_skip [(n, ab)]). by constructor.
Qed.

Lemma cap_of_here l i ab : cap_of ((i, ab) :: l) i = Some ab.
Proof. unfold cap_of. simpl. by rewrite decide_True. Qed.

Lemma cap_of_caps r s s' i :
  matches r s s' -> i ∉ groups r -> cap_of (caps s') i = cap_of (caps s) i.
Proof.
  intros Hm Hi. apply matches_caps in Hm as (new & -> & Hnew).
  apply cap_of_skip. eapply Forall_impl; [exact Hnew|].
  simpl. intros c Hc Heq. by rewrite Heq in Hc.
Qed.

Lemma span_cap_of m i :
  i <> 0 ->
  span m i = match cap_of (m_caps m) i with
             | Some (a, b) => (Z.of_nat a, Z.of_nat b)
             | None => ((-1)%Z, (-1)%Z)
             end.
Proof.
  intros Hi. unfold span, cap_of. destruct i as [|i]; [done|].
  destruct (list_find _ (m_caps m)) as [[? [? [? ?]]]|]; reflexivity.
Qed.

Lemma re_match_matches r s p m :
  re_match r s p = Some m -> p <= length s ->
  exists f, matches r (cursor_at s p) f /\
            m = ReMatch p (pos f) (caps f) /\ pos f <= length s.
Proof.
  intros Hm Hp. destruct (re_match_bounds _ _ _ _ Hm Hp) as [Hst Hend].
  unfold re_match in Hm.
  destruct (rmatch r (cursor_at s p) Some) as [f|] eqn:Hr; [|done].
  apply rmatch_matches in Hr as (s' & Hs & [= ->]).
  injection Hm as <-. simpl in *. exists f. split; [done|].
  split; [|lia]. f_equal. lia.
Qed.

(** The groups 1, 2 and 3 of a key pattern lie side by side. *)
Lemma three_groups A B C R s f :
  matches (Seq (Group 1 A) (Seq (Group 2 B) (Seq (Group 3 C) R))) s f ->
  Forall (fun n => 3 < n) (groups A ++ groups B ++ groups C) ->
  exists p1 s2 s3,
    pos s <= p1 /\ p1 <= pos s2 /\
    matches C s2 s3 /\
    matches R (capture 3 s2 s3) f /\
    cap_of (caps s3) 1 = Some (pos s, p1) /\
    cap_of (caps s3) 2 = Some (p1, pos s2) /\
    (forall i, 3 < i -> i ∉ groups A ++ groups B ->
               cap_of (caps s2) i = cap_of (caps s) i).
Proof.
  intros Hm Hg.
  rewrite !Forall_app in Hg. destruct Hg as (HA & HB & HC).
  assert (Hnot : forall X i, Forall (fun n => 3 < n) (groups X) -> i <= 3 ->
                             i ∉ groups X).
  { intros X i HX Hi Hin. rewrite Forall_forall in HX. apply HX in Hin. lia. }
  inversion Hm as [| |a b s0 s1 s2 H1 Hrest| | | | | | | |]; subst.
  inversion H1 as [| | | | | | |n a s0 s1' HA'| | |]; subst.
  inversion Hrest as [| |a b s0 s2' s3' H2 Hrest'| | | | | | | |]; subst.
  inversion H2 as [| | | | | | |n a s0 s2'' HB'| | |]; subst.
  inversion Hrest' as [| |a b s0 s3'' s4 H3 HR'| | | | | | | |]; subst.
  inversion H3 as [| | | | | | |n a s0 s3 HC'| | |]; subst.
  pose proof (matches_reaches _ _ _ HA') as [PA _].
  pose proof (matches_reaches _ _ _ HB') as [PB _].
  simpl in PB.
  exists (pos s1'), (capture 2 (capture 1 s s1') s2''), s3.
  simpl. split; [lia|]. split; [lia|]. split; [exact HC'|].
  split; [exact HR'|].
  split; [|split].
  - rewrite (cap_of_caps _ _ _ 1 HC') by (apply Hnot; [done|lia]). simpl.
    rewrite cap_of_other by lia.
    rewrite (cap_of_caps _ _ _ 1 HB') by (apply Hnot; [done|lia]). simpl.
    apply cap_of_here.
  - rewrite (cap_of_caps _ _ _ 2 HC') by (apply Hnot; [done|lia]). simpl.
    apply cap_of_here.
  - intros i Hi HiAB. rewrite !not_elem_of_app in HiAB.
    destruct HiAB as (HiA & HiB).
    rewrite cap_of_other by lia.
    rewrite (cap_of_caps _ _ _ i HB') by done. simpl.
    rewrite cap_of_other by lia.
    by rewrite (cap_of_caps _ _ _ i HA').
Qed.

Lemma matches_seqs_cons x xs s s' :
  matches (seqs (x :: xs)) s s' ->
  exists s1, matches x s s1 /\ matches (seqs xs) s1 s'.
Proof.
  intros H. inversion H as [| |a b s0 s1 s2 H1 H2| | | | | | | |]; subst.
  eauto.
Qed.

Lemma matches_seqs_nil s s' : matches (seqs []) s s' -> s' = s.
Proof. intros H. by inversion H. Qed.

Lemma matches_group n a s s' :
  matches (Group n a) s s' ->
  exists s1, matches a s s1 /\ s' = capture n s s1.
Proof.
  intros H. inversion H as [| | | | | | |n' a' s0 s1 Ha| | |]; subst. eauto.
Qed.

Lemma matches_pos r s s' : matches r s s' -> pos s + min_len r <= pos s'.
Proof. intros H. by apply matches_reaches in H as [? _]. Qed.

(** The key in group 4, between two parts of the definition that capture
    nothing else but group 5. *)
Lemma key_group_4 before K after s s' :
  matches (seqs (before ++ Group 4 K :: after)) s s' ->
  1 <= min_len K ->
  4 ∉ groups (seqs after) ->
  exists ka kb, pos s <= ka /\ ka < kb /\ kb <= pos s' /\
                cap_of (caps s') 4 = Some (ka, kb).
Proof.
  revert s. induction before as [|x before IH]; intros s Hm HK Hafter.
  - simpl in Hm. apply matches_seqs_cons in Hm as (s1 & Hg & Hrest).
    apply matches_group in Hg as (s0 & Hk & ->).
    pose proof (matches_pos _ _ _ Hk) as Pk.
    pose proof (matches_pos _ _ _ Hrest) as Pr. simpl in Pr.
    exists (pos s), (pos s0). split; [lia|]. split; [lia|]. split; [lia|].
    rewrite (cap_of_caps _ _ _ 4 Hrest) by done. simpl. apply cap_of_here.
  - simpl in Hm. apply matches_seqs_cons in Hm as (s1 & Hx & Hrest).
    pose proof (matches_pos _ _ _ Hx) as Px.
    destruct (IH s1 Hrest HK Hafter) as (ka & kb & H1 & H2 & H3 & H4).
    exists ka, kb. split; [lia|]. done.
Qed.

Lemma slice_nat {A} (s : list A) (a b : nat) :
  a <= b <= length s ->
  slice s (Z.of_nat a, Z.of_nat b) = take (b - a) (drop a s).
Proof. apply pyslice_nat. Qed.

Lemma slice_unmatched {A} (s : list A) : slice s ((-1)%Z, (-1)%Z) = [].
Proof.
  unfold slice, pyslice. simpl. by rewrite Z.sub_diag.
Qed.

Lemma take_drop_join {A} (s : list A) (a p q : nat) :
  a <= p -> p <= q ->
  take (p - a) (drop a s) ++ take (q - p) (drop p s) = take (q - a) (drop a s).
Proof.
  intros Hap Hpq.
  rewrite <- (take_drop_middle_app (drop a s) (p - a) (q - a)) by lia.
  rewrite drop_drop. f_equal. f_equal; [lia|]. f_equal. lia.
Qed.

(** The result of the generic inversion, in the terms of the match. *)
Lemma spans_of_groups len post kg p f a p1 p2 p3 ka kb :
  a <= p1 -> p1 <= p2 -> p2 <= p3 -> p3 <= pos f -> pos f <= len ->
  p = a ->
  cap_of (caps f) 1 = Some (a, p1) ->
  cap_of (caps f) 2 = Some (p1, p2) ->
  cap_of (caps f) 3 = Some (p2, p3) ->
  (post = true ->
   cap_of (caps f) 6 = Some (p3, pos f) \/
   (cap_of (caps f) 6 = None /\ p3 = pos f)) ->
  p2 <= ka -> ka < kb -> kb <= p3 -> kg <> 0 ->
  cap_of (caps f) kg = Some (ka, kb) ->
  entity_spans len post kg (ReMatch p (pos f) (caps f)).
Proof.
  intros ? ? ? ? ? -> H1 H2 H3 H6 ? ? ? Hkg Hk.
  exists a, p1, p2, p3, (pos f), ka, kb.
  rewrite !span_cap_of by done. simpl. rewrite H1, H2, H3, Hk.
  repeat (split; [done|]).
  split; [|done].
  intros Hp. destruct (H6 Hp) as [->|[-> ?]]; [by left|by right].
Qed.

Ltac not_in_groups :=
  let H := fresh in
  intros H; apply list_elem_of_In in H; vm_compute in H; intuition lia.

Lemma matches_seq a b s s' :
  matches (Seq a b) s s' -> exists s1, matches a s s1 /\ matches b s1 s'.
Proof.
  intros H. inversion H as [| |a' b' s0 s1 s2 H1 H2| | | | | | | |]; subst.
  eauto.
Qed.

Lemma matches_eps s s' : matches Eps s s' -> s' = s.
Proof. intros H. by inversion H. Qed.

(** The spans of a match of a key pattern with its key in group 4 and its
    post comment in group 6. *)
Lemma key_pattern_spans A B before K after R D ctx o f :
  matches (seqs (Group 1 A :: Group 2 B
                 :: Group 3 (seqs (before ++ Group 4 K :: after)) :: R))
          (cursor_at ctx o) f ->
  o <= length ctx -> pos f <= length ctx ->
  R = [opt (Group 6 D)] \/ R = [Group 6 D] ->
  Forall (fun n => 3 < n /\ n <> 6)
    (groups A ++ groups B ++ groups (seqs (before ++ Group 4 K :: after))) ->
  1 <= min_len K -> 4 ∉ groups (seqs after) ->
  Forall (fun n => 4 < n) (groups D) ->
  entity_spans (length ctx) true 4 (ReMatch o (pos f) (caps f)).
Proof.
  intros Hm Ho Hf HR Hg HK Hafter HD.
  assert (forall i, i <= 4 -> i ∉ groups D) as HiD.
  { intros i Hi Hin. rewrite Forall_forall in HD. apply HD in Hin. lia. }
  assert (pos (cursor_at ctx o) = o) as Hpos by (simpl; lia).
  apply three_groups in Hm as (p1 & s2 & s3 & P1 & P2 & HC & HR' & C1 & C2 & Ci).
  2:{ eapply Forall_impl; [exact Hg|]. simpl. tauto. }
  rewrite Hpos in *.
  assert (cap_of (caps s3) 6 = None) as C6.
  { rewrite (cap_of_caps _ _ _ 6 HC), Ci; [done|lia| |].
    - intros Hin. rewrite Forall_forall in Hg.
      destruct (Hg 6) as [_ ?]; [|done].
      rewrite app_assoc. apply elem_of_app. by left.
    - intros Hin. rewrite Forall_forall in Hg.
      destruct (Hg 6) as [_ ?]; [|done].
      rewrite !elem_of_app. by right; right. }
  pose proof (matches_pos _ _ _ HC) as PC.
  pose proof HC as HC'.
  apply key_group_4 in HC as (ka & kb & K1 & K2 & K3 & K4); [|done|done].
  assert (pos s3 <= pos f /\
          (forall i, i <= 4 ->
                     cap_of (caps f) i = cap_of (caps (capture 3 s2 s3)) i) /\
          (cap_of (caps f) 6 = Some (pos s3, pos f) \/
           (cap_of (caps f) 6 = None /\ pos s3 = pos f)))
    as (P6 & Hother & H6).
  { destruct HR as [-> | ->];
      apply matches_seq in HR' as (s5 & H5 & Hnil);
      apply matches_eps in Hnil as ->.
    - inversion H5 as [| | |a b s0 s' HL|a b s0 s' HE| | | | | |]; subst.
      + apply matches_group in HL as (s6 & H6 & ->).
        pose proof (matches_pos _ _ _ H6) as P6. simpl in P6.
        split; [simpl; lia|]. split.
        * intros i Hi. simpl. rewrite cap_of_other by lia.
          rewrite (cap_of_caps _ _ _ i H6) by (by apply HiD). done.
        * left. simpl. apply cap_of_here.
      + inversion HE; subst.
        split; [simpl; lia|]. split; [done|].
        right. simpl. rewrite cap_of_other by lia. done.
    - apply matches_group in H5 as (s6 & H6 & ->).
      pose proof (matches_pos _ _ _ H6) as P6. simpl in P6.
      split; [simpl; lia|]. split.
      + intros i Hi. simpl. rewrite cap_of_other by lia.
        rewrite (cap_of_caps _ _ _ i H6) by (by apply HiD). done.
      + left. simpl. apply cap_of_here. }
  eapply (spans_of_groups _ _ _ _ _ o p1 (pos s2) (pos s3) ka kb);
    try done; try lia.
  - rewrite Hother by lia. simpl. by rewrite cap_of_other by lia.
  - rewrite Hother by lia. simpl. by rewrite cap_of_other by lia.
  - rewrite Hother by lia. simpl. apply cap_of_here.
  - rewrite Hother by lia. simpl. by rewrite cap_of_other by lia.
Qed.

Lemma DTD_reKey_spans ctx o m :
  re_match DTD_reKey ctx o = Some m -> o <= length ctx ->
  entity_spans (length ctx) true 4 m.
Proof.
  intros Hm Ho. apply re_match_matches in Hm as (f & Hm & -> & Hf); [|done].
  unfold DTD_reKey in Hm.
  eapply (key_pattern_spans _ _ [lit "<!ENTITY"; plus ws] Name _ _ dtd_post);
    [exact Hm|done|done|by left| | | |].
  - vm_compute. repeat constructor; lia.
  - simpl. lia.
  - not_in_groups.
  - vm_compute. constructor.
Qed.

Lemma DTD_rePE_spans ctx o m :
  re_match DTD_rePE ctx o = Some m -> o <= length ctx ->
  entity_spans (length ctx) true 4 m.
Proof.
  intros Hm Ho. apply re_match_matches in Hm as (f & Hm & -> & Hf); [|done].
  unfold DTD_rePE in Hm.
  eapply (key_pattern_spans _ _ [lit "<!ENTITY"; plus ws; ch 37; plus ws]
            Name _ _ dtd_post);
    [exact Hm|done|done|by left| | | |].
  - vm_compute. repeat constructor; lia.
  - simpl. lia.
  - not_in_groups.
  - vm_compute. constructor.
Qed.

Lemma Ini_reKey_spans ctx o m :
  re_match Ini_reKey ctx o = Some m -> o <= length ctx ->
  entity_spans (length ctx) true 4 m.
Proof.
  intros Hm Ho. apply re_match_matches in Hm as (f & Hm & -> & Hf); [|done].
  unfold Ini_reKey in Hm.
  eapply (key_pattern_spans _ _ [] (lazy_plus dot) _ _ (opt (ch NL)));
    [exact Hm|done|done|by right| | | |].
  - vm_compute. repeat constructor; lia.
  - simpl. lia.
  - not_in_groups.
  - vm_compute. constructor.
Qed.

Lemma Defines_reKey_spans ctx o m :
  re_match Defines_reKey ctx o = Some m -> o <= length ctx ->
  entity_spans (length ctx) true 4 m.
Proof.
  intros Hm Ho. apply re_match_matches in Hm as (f & Hm & -> & Hf); [|done].
  apply matches_seqs_cons in Hm as (s1 & Hb & Hm).
  inversion Hb; subst.
  eapply (key_pattern_spans _ _ [lit "#define"; plus blank] (plus word) _ _
            (seqs [star blank; Eol true; opt (ch NL)]));
    [exact Hm|done|done|by right| | | |].
  - vm_compute. repeat constructor; lia.
  - simpl. lia.
  - not_in_groups.
  - vm_compute. constructor.
Qed.

Lemma Properties_reKey_spans ctx o m :
  re_match Properties_reKey ctx o = Some m -> o <= length ctx ->
  entity_spans (length ctx) false 3 m.
Proof.
  intros Hm Ho. apply re_match_matches in Hm as (f & Hm & -> & Hf); [|done].
  apply matches_seqs_cons in Hm as (s1 & Hb & Hm).
  inversion Hb; subst.
  assert (pos (cursor_at ctx o) = o) as Hpos by (simpl; lia).
  apply three_groups in Hm as (p1 & s2 & s3 & P1 & P2 & HC & HR & C1 & C2 & Ci);
    [|vm_compute; constructor].
  rewrite Hpos in *.
  pose proof (matches_pos _ _ _ HC) as PC. simpl in PC.
  pose proof (matches_pos _ _ _ HR) as PR. simpl in PR.
  assert (forall i, cap_of (caps f) i = cap_of (caps (capture 3 s2 s3)) i)
    as Hother.
  { intros i. apply (cap_of_caps _ _ _ i HR). not_in_groups. }
  eapply (spans_of_groups _ _ _ _ _ o p1 (pos s2) (pos s3) (pos s2) (pos s3));
    try done; try lia;
    rewrite Hother; simpl; rewrite ?cap_of_other by lia;
    done || apply cap_of_here.
Qed.

(** ** The parts of an entity *)

Lemma getEntity_entity p ctx offset junkid e o j :
  getEntity p ctx offset junkid = Some (Some (IEntity e), o, j) ->
  offset <= length ctx ->
  entity_from ctx e o.
Proof.
  intros Hg Ho.
  assert (Hkey : forall q m,
            q <> PropertiesParser ->
            re_match (reKey q) ctx offset = Some m ->
            entity_from ctx (createEntity q ctx m) (m_end m)).
  { intros q m Hq Hm.
    destruct (re_match_bounds _ _ _ _ Hm Ho) as [Hst Hend].
    assert (entity_spans (length ctx) true 4 m) as Hsp.
    { destruct q; [by eapply DTD_reKey_spans|done|by eapply Ini_reKey_spans
                  |by eapply Defines_reKey_spans]. }
    split; [by destruct q|].
    exists m, true, 4. split; [done|].
    split; [lia|]. split; [lia|]. split; [done|].
    destruct q; (repeat split; try reflexivity; try done);
      exact (surjective_pairing _). }
  assert (Hparser : forall q e o j,
            q <> PropertiesParser ->
            Parser_getEntity q ctx offset junkid = (Some (IEntity e), o, j) ->
            entity_from ctx e o).
  { intros q e' o' j' Hq. unfold Parser_getEntity.
    destruct (re_match (reKey q) ctx offset) as [m|] eqn:Hm.
    - intros [= <- <- <-]. by apply Hkey.
    - destruct (match re_match (reFooter q) ctx offset with
                | Some f => offset <? m_end f
                | None => false
                end); [done|].
      unfold junk_until_key.
      destruct (re_search (reKey q) ctx offset) as [m'|]; [|done].
      intros [= ? ? ?]. }
  destruct p; simpl in Hg.
  - injection Hg as Hg. unfold DTD_getEntity in Hg.
    destruct (Parser_getEntity DTDParser ctx offset junkid)
      as [[entity inner] j'] eqn:Hp.
    assert (HPE : forall m, re_match DTD_rePE ctx offset = Some m ->
              entity_from ctx (entity_of_groups DTDParser ctx m) (m_end m)).
    { intros m Hm.
      destruct (re_match_bounds _ _ _ _ Hm Ho) as [Hst Hend].
      split; [done|]. exists m, true, 4.
      split; [by eapply DTD_rePE_spans|].
      split; [lia|]. split; [lia|]. split; [done|].
      repeat split; try reflexivity. exact (surjective_pairing _). }
    destruct entity as [[e'|jk']|].
    + simplify_eq. by eapply (Hparser DTDParser).
    + destruct (re_match DTD_rePE ctx offset) as [m|] eqn:Hm; [|done].
      simplify_eq. by apply HPE.
    + destruct (re_match DTD_rePE ctx offset) as [m|] eqn:Hm; [|done].
      simplify_eq. by apply HPE.
  - unfold Properties_getEntity in Hg.
    destruct (re_match Properties_reKey ctx offset) as [m|] eqn:Hm.
    + destruct (re_match_bounds _ _ _ _ Hm Ho) as [Hst Hend].
      destruct (value_lines_total ctx (S (length ctx)) (m_end m))
        as (ev & o' & Hv & Hb); [lia|lia|].
      rewrite Hv in Hg. injection Hg as <- <- <-.
      split; [done|]. exists m, false, 3.
      split; [by eapply Properties_reKey_spans|].
      split; [lia|]. split; [lia|]. split; [done|]. done.
    + injection Hg as Hg. unfold junk_until_key in Hg.
      destruct (re_search (reKey PropertiesParser) ctx offset); done.
  - injection Hg as Hg. by eapply (Hparser IniParser).
  - injection Hg as Hg. by eapply (Hparser DefinesParser).
Qed.

Lemma yields_entities p ctx offset junkid es o j :
  yields p ctx offset junkid es o j -> offset <= length ctx ->
  forall e, IEntity e ∈ es -> exists o', entity_from ctx e o'.
Proof.
  induction 1 as [offset junkid o j Hg|offset junkid e o1 j1 es o j Hg Hy IH];
    intros Ho e' Hin.
  - by apply elem_of_nil in Hin.
  - apply elem_of_cons in Hin as [<-|Hin].
    + exists o1. by eapply getEntity_entity.
    + apply getEntity_some in Hg as [Hlt _]; [|done].
      apply IH; [lia|done].
Qed.

Lemma Parser_iter_entities p contents junkid it e :
  Parser_iter p contents junkid = Some it -> IEntity e ∈ yielded it ->
  exists o', entity_from contents e o'.
Proof.
  intros Hit Hin.
  destruct (Parser_iter_inv _ _ _ _ Hit)
    as (o0 & es & o1 & j1 & o2 & Hh & Hy & _ & Htail).
  apply getHeader_take in Hh as [Ho0 _].
  assert (IEntity e ∈ es) as Hes.
  { destruct Htail as [(_ & Hyd & _)|(_ & Hyd & _)]; rewrite Hyd in Hin;
      [|done].
    apply elem_of_app in Hin as [Hin|Hin]; [done|].
    apply list_elem_of_singleton in Hin. done. }
  by eapply yields_entities.
Qed.

Lemma entity_from_parts ctx e o' :
  entity_from ctx e o' ->
  get_all (IEntity e)
  = get_pre_ws e ++ get_pre_comment e ++ get_def e ++ get_post e.
Proof.
  intros [Hctx (m & post & kg & Hsp & Hend & Hlen & Hpost & Hspan & H1 & H2
                & H3 & _ & H6)].
  destruct Hsp as (a & p1 & p2 & p3 & b & ka & kb & L1 & L2 & L3 & L4 & L5
                   & Ha & Hb & S1 & S2 & S3 & S6 & _).
  unfold get_all, get_pre_ws, get_pre_comment, get_def, get_post.
  cbn [item_ctx get_span].
  rewrite Hctx, Hspan, H1, H2, H3, H6, S1, S2, S3, Ha. cbn [fst snd].
  destruct post.
  - rewrite (Hpost eq_refl), Hb in *.
    destruct (S6 eq_refl) as [E6|[E6 ->]]; rewrite E6.
    + rewrite !slice_nat by lia.
      rewrite (take_drop_join ctx p2 p3 b) by lia.
      rewrite (take_drop_join ctx p1 p2 b) by lia.
      by rewrite (take_drop_join ctx a p1 b) by lia.
    + rewrite slice_unmatched, app_nil_r, !slice_nat by lia.
      rewrite (take_drop_join ctx p1 p2 b) by lia.
      by rewrite (take_drop_join ctx a p1 b) by lia.
  - rewrite !slice_nat by lia. rewrite Nat.sub_diag, take_0, app_nil_r.
    rewrite (take_drop_join ctx p1 p2 o') by lia.
    by rewrite (take_drop_join ctx a p1 o') by lia.
Qed.

(** X. An entity is the sum of its parts: for every Entity of a run, of
    any grammar, the text of the entity is the white space before it, the
    comments before it, the definition and the comment after it, in this
    order. *)
Theorem entity_is_its_parts p contents junkid :
  exists it,
    Parser_iter p contents junkid = Some it /\
    forall e, IEntity e ∈ yielded it ->
      get_all (IEntity e)
      = get_pre_ws e ++ get_pre_comment e ++ get_def e ++ get_post e.
Proof.
  destruct (parse_total p contents junkid) as (it & Hit & _).
  exists it. split; [done|]. intros e Hin.
  destruct (Parser_iter_entities _ _ _ _ _ Hit Hin) as [o' Hfrom].
  by eapply entity_from_parts.
Qed.

Lemma entity_from_key ctx e o' :
  entity_from ctx e o' ->
  get_key (IEntity e) <> [] /\
  exists before after, get_def e = before ++ get_key (IEntity e) ++ after.
Proof.
  intros [Hctx (m & post & kg & Hsp & Hend & Hlen & Hpost & Hspan & H1 & H2
                & H3 & Hk & H6)].
  destruct Hsp as (a & p1 & p2 & p3 & b & ka & kb & L1 & L2 & L3 & L4 & L5
                   & Ha & Hb & S1 & S2 & S3 & S6 & K1 & K2 & K3 & Sk).
  unfold get_key, get_def. rewrite Hctx, Hk, H3, Sk, S3. cbn [fst snd].
  assert (exists d, p3 <= d /\ d <= length ctx /\
            (if post then Z.of_nat p3 else Z.of_nat o') = Z.of_nat d)
    as (d & D1 & D2 & ->).
  { destruct post; [exists p3|exists o']; (split; [lia|]); split; lia || done. }
  rewrite !slice_nat by lia. split.
  - intros Hnil. apply (f_equal length) in Hnil.
    rewrite length_take, length_drop in Hnil. simpl in Hnil. lia.
  - exists (take (ka - p2) (drop p2 ctx)), (take (d - kb) (drop kb ctx)).
    rewrite (take_drop_join ctx ka kb d) by lia.
    by rewrite (take_drop_join ctx p2 ka d) by lia.
Qed.

(** X. Every Entity of a run has a key that is not empty and is a part
    of its definition. *)
Theorem entity_key_in_definition p contents junkid :
  exists it,
    Parser_iter p contents junkid = Some it /\
    forall e, IEntity e ∈ yielded it ->
      get_key (IEntity e) <> [] /\
      exists before after,
        get_def e = before ++ get_key (IEntity e) ++ after.
Proof.
  destruct (parse_total p contents junkid) as (it & Hit & _).
  exists it. split; [done|]. intros e Hin.
  destruct (Parser_iter_entities _ _ _ _ _ Hit Hin) as [o' Hfrom].
  by eapply entity_from_key.
Qed.

(** ** The parser of a path *)

Lemma search_from_found r s n p q :
  p <= q < p + n -> is_Some (re_match r s q) ->
  is_Some (search_from r s n p).
Proof.
  revert p. induction n as [|n IH]; intros p Hq Hm; [lia|]. simpl.
  destruct (re_match r s p) as [m|] eqn:Hp; [done|].
  apply IH; [|done].
  destruct (decide (q = p)) as [->|Hne]; [|lia].
  rewrite Hp in Hm. by destruct Hm.
Qed.

Lemma matches_chars cs : forall s s',
  matches (foldr (fun c r => Seq (ch c) r) Eps cs) s s' ->
  rest s = cs ++ rest s'.
Proof.
  induction cs as [|c cs IH]; intros s s' Hm; simpl in Hm.
  - apply matches_eps in Hm as ->. done.
  - apply matches_seq in Hm as (s1 & Hc & Hm).
    inversion Hc as [|cl s0 x tl Hr Hx| | | | | | | | |]; subst.
    rewrite cl_mem_single in Hx. apply bool_decide_eq_true_1 in Hx as ->.
    apply IH in Hm. simpl in Hm. rewrite Hr, Hm. done.
Qed.

Lemma rmatch_chars cs : forall s k tail,
  rest s = cs ++ tail ->
  exists s', rest s' = tail /\ pos s' = pos s + length cs /\
             rmatch (foldr (fun c r => Seq (ch c) r) Eps cs) s k = k s'.
Proof.
  induction cs as [|c cs IH]; intros s k tail Hr; cbn [foldr rmatch].
  - exists s. split; [done|]. split; [simpl; lia|done].
  - rewrite rmatch_ch, Hr. cbn [app].
    rewrite bool_decide_eq_true_2 by done.
    destruct (IH (step s c (cs ++ tail)) k tail eq_refl) as (s' & H1 & H2 & H3).
    exists s'. split; [done|]. split; [simpl in H2; simpl; lia|done].
Qed.

Lemma at_eol_false s :
  at_eol false s = true <-> rest s = [] \/ rest s = [NL].
Proof.
  unfold at_eol. destruct (rest s) as [|c [|c' tl]]; simpl.
  - split; [by left|done].
  - rewrite andb_true_r, bool_decide_eq_true. split.
    + intros ->. by right.
    + intros [?|?]; by simplify_eq.
  - rewrite andb_false_r. split; [done|]. intros [?|?]; done.
Qed.

(** The pattern of an extension is found in a path exactly when the path
    ends with the extension, or with the extension and a newline. *)
Lemma extension_found (ext : string) (path : text) :
  is_Some (re_search (seqs [ch 46; lit ext; Eol false]) path 0)
  <-> has_extension (String "." ext) path.
Proof.
  unfold has_extension, lit.
  change (t (String "." ext)) with (46%N :: t ext). split.
  - intros [m Hs]. apply re_search_some in Hs as (Hm & _ & Hb & _); [|lia].
    apply re_match_matches in Hm as (f & Hm & _ & _); [|lia].
    apply matches_seq in Hm as (s0 & Hdot & Hm).
    apply matches_seq in Hm as (s1 & Hl & Hm).
    apply matches_seq in Hm as (s2 & He & Hm).
    apply matches_eps in Hm as ->.
    inversion He as [| | | | | | | | |ml s' Heol|]; subst.
    inversion Hdot as [|cl s' x tl Hr Hx| | | | | | | | |]; subst.
    rewrite cl_mem_single in Hx. apply bool_decide_eq_true_1 in Hx as ->.
    apply matches_chars in Hl. simpl in Hl. apply at_eol_false in Heol.
    exists (take (m_start m) path).
    assert (drop (m_start m) path = 46%N :: t ext ++ rest s2) as Hd.
    { rewrite <- Hl. simpl in Hr. rewrite <- Hr. f_equal. lia. }
    rewrite <- (take_drop (m_start m) path) at 1 3. rewrite Hd.
    destruct Heol as [-> | ->]; [left; by rewrite app_nil_r|by right].
  - intros [stem Hp].
    assert (exists tail, path = stem ++ (46%N :: t ext) ++ tail /\
                         (tail = [] \/ tail = [NL])) as (tail & -> & Htail).
    { destruct Hp as [-> | ->]; [exists []|exists [NL]];
        rewrite ?app_nil_r; eauto. }
    unfold re_search. apply (search_from_found _ _ _ _ (length stem)).
    { rewrite !length_app. lia. }
    unfold re_match.
    set (c := cursor_at (stem ++ (46%N :: t ext) ++ tail) (length stem)).
    assert (rest c = (46%N :: t ext) ++ tail) as Hr.
    { subst c. simpl. rewrite Nat.min_l by (rewrite length_app; lia).
      by rewrite drop_app_length. }
    cbn [seqs foldr rmatch].
    rewrite rmatch_ch, Hr. cbn [app].
    rewrite bool_decide_eq_true_2 by done.
    destruct (rmatch_chars (t ext) (step c 46%N (t ext ++ tail))
                (fun s' => if at_eol false s' then Some s' else None)
                tail eq_refl)
      as (s' & Hs' & _ & ->).
    simpl. replace (at_eol false s') with true; [done|].
    symmetry. apply at_eol_false. rewrite Hs'. done.
Qed.

(** X. [getParser] chooses the parser by the extension of the path, also
    when one newline follows the extension, and finds no parser for any
    other path. *)
Theorem getParser_by_extension (path : text) :
  (getParser path = Some DTDParser <-> has_extension ".dtd" path) /\
  (getParser path = Some PropertiesParser
   <-> has_extension ".properties" path) /\
  (getParser path = Some IniParser <-> has_extension ".ini" path) /\
  (getParser path = Some DefinesParser <-> has_extension ".inc" path).
Proof.
  assert (Hexcl : forall (e1 e2 : string) c1 c2,
            head (reverse (t e1)) = Some c1 ->
            head (reverse (t e2)) = Some c2 ->
            c1 <> c2 -> c1 <> NL -> c2 <> NL ->
            has_extension e1 path -> has_extension e2 path -> False).
  { intros e1 e2 c1 c2 H1 H2 Hne Hn1 Hn2 [s1 E1] [s2 E2].
    destruct (reverse (t e1)) as [|x1 r1] eqn:R1; [done|].
    destruct (reverse (t e2)) as [|x2 r2] eqn:R2; [done|].
    simpl in H1, H2. simplify_eq.
    assert (reverse path = c1 :: r1 ++ reverse s1
            \/ reverse path = NL :: c1 :: r1 ++ reverse s1) as P1.
    { destruct E1 as [-> | ->]; rewrite !reverse_app, R1; [by left|by right]. }
    assert (reverse path = c2 :: r2 ++ reverse s2
            \/ reverse path = NL :: c2 :: r2 ++ reverse s2) as P2.
    { destruct E2 as [-> | ->]; rewrite !reverse_app, R2; [by left|by right]. }
    destruct P1 as [P1|P1], P2 as [P2|P2]; rewrite P1 in P2;
      simplify_eq. }
  assert (Hfound : forall (ext : string),
            is_Some (re_search (seqs [ch 46; lit ext; Eol false]) path 0)
            <-> has_extension (String "." ext) path).
  { intros ext. apply extension_found. }
  pose proof (Hfound "dtd") as Fd. pose proof (Hfound "properties") as Fp.
  pose proof (Hfound "ini") as Fi. pose proof (Hfound "inc") as Fc.
  assert (Xdp := Hexcl ".dtd" ".properties" 100%N 115%N eq_refl eq_refl).
  assert (Xdi := Hexcl ".dtd" ".ini" 100%N 105%N eq_refl eq_refl).
  assert (Xdc := Hexcl ".dtd" ".inc" 100%N 99%N eq_refl eq_refl).
  assert (Xpi := Hexcl ".properties" ".ini" 115%N 105%N eq_refl eq_refl).
  assert (Xpc := Hexcl ".properties" ".inc" 115%N 99%N eq_refl eq_refl).
  assert (Xic := Hexcl ".ini" ".inc" 105%N 99%N eq_refl eq_refl).
  clear Hexcl Hfound.
  assert (Hspec : forall p,
            getParser path = Some p <->
            exists i r,
              constructors !! i = Some (r, p) /\
              is_Some (re_search r path 0) /\
              forall j y, constructors !! j = Some y -> j < i ->
                          ~ is_Some (re_search (fst y) path 0)).
  { intros p. unfold getParser.
    destruct (list_find (fun c => is_Some (re_search (fst c) path 0))
                constructors) as [[i [r q]]|] eqn:Hf;
      cbn [fmap option_fmap option_map snd].
    - apply list_find_Some in Hf as (Hi & HP & Hlt). split.
      + intros [= <-]. exists i, r. done.
      + intros (i' & r' & Hi' & HP' & Hlt'). f_equal.
        destruct (Nat.lt_trichotomy i i') as [Hlt1|[->|Hlt1]].
        * exfalso. by apply (Hlt' i (r, q)).
        * rewrite Hi in Hi'. by injection Hi'.
        * exfalso. by apply (Hlt i' (r', p)).
    - split; [done|]. intros (i & r & Hi & HP & _).
      apply list_find_None in Hf. rewrite Forall_forall in Hf.
      exfalso. apply (Hf (r, p)); [|done].
      by eapply list_elem_of_lookup_2. }
  assert (Hnth : forall i r p, constructors !! i = Some (r, p) ->
            (i = 0 /\ p = DTDParser /\
             (is_Some (re_search r path 0) <-> has_extension ".dtd" path)) \/
            (i = 1 /\ p = PropertiesParser /\
             (is_Some (re_search r path 0)
              <-> has_extension ".properties" path)) \/
            (i = 2 /\ p = IniParser /\
             (is_Some (re_search r path 0) <-> has_extension ".ini" path)) \/
            (i = 3 /\ p = DefinesParser /\
             (is_Some (re_search r path 0) <-> has_extension ".inc" path))).
  { intros i r p Hi. unfold constructors in Hi.
    destruct i as [|[|[|[|i]]]]; cbn [lookup list_lookup] in Hi.
    - injection Hi as <- <-. left. split; [reflexivity|].
      split; [reflexivity|exact Fd].
    - injection Hi as <- <-. right; left. split; [reflexivity|].
      split; [reflexivity|exact Fp].
    - injection Hi as <- <-. right; right; left. split; [reflexivity|].
      split; [reflexivity|exact Fi].
    - injection Hi as <- <-. right; right; right. split; [reflexivity|].
      split; [reflexivity|exact Fc].
    - discriminate Hi. }
  assert (Hhas : forall p,
            getParser path = Some p ->
            match p with
            | DTDParser => has_extension ".dtd" path
            | PropertiesParser => has_extension ".properties" path
            | IniParser => has_extension ".ini" path
            | DefinesParser => has_extension ".inc" path
            end).
  { intros p Hp. apply Hspec in Hp as (i & r & Hi & HP & _).
    destruct (Hnth i r p Hi) as [(_ & -> & H)|[(_ & -> & H)|[(_ & -> & H)
                                 |(_ & -> & H)]]]; by apply H. }
  assert (Hget : forall i r p,
            constructors !! i = Some (r, p) ->
            is_Some (re_search r path 0) ->
            (forall j r' p', constructors !! j = Some (r', p') -> j < i ->
                             ~ is_Some (re_search r' path 0)) ->
            getParser path = Some p).
  { intros i r p Hi HP Hlt. apply Hspec. exists i, r.
    split; [done|]. split; [done|].
    intros j [r' p'] Hj Hji. by apply (Hlt j r' p'). }
  clear Hspec.
  split; [|split; [|split]]; (split; [apply Hhas|]); intros Hext.
  - apply (Hget 0 (seqs [ch 46; lit "dtd"; Eol false])); [reflexivity| |].
    + by apply Fd.
    + intros j r' p' _ Hj. lia.
  - apply (Hget 1 (seqs [ch 46; lit "properties"; Eol false]));
      [reflexivity| |].
    + by apply Fp.
    + intros j r' p' Hj Hlt Hfind.
      destruct (Hnth j r' p' Hj) as [(_ & _ & H)|[(-> & _)|[(-> & _)|(-> & _)]]];
        [|lia..].
      apply H in Hfind. by apply Xdp.
  - apply (Hget 2 (seqs [ch 46; lit "ini"; Eol false])); [reflexivity| |].
    + by apply Fi.
    + intros j r' p' Hj Hlt Hfind.
      destruct (Hnth j r' p' Hj)
        as [(_ & _ & H)|[(_ & _ & H)|[(-> & _)|(-> & _)]]]; [| |lia..];
        apply H in Hfind.
      * by apply Xdi.
      * by apply Xpi.
  - apply (Hget 3 (seqs [ch 46; lit "inc"; Eol false])); [reflexivity| |].
    + by apply Fc.
    + intros j r' p' Hj Hlt Hfind.
      destruct (Hnth j r' p' Hj)
        as [(_ & _ & H)|[(_ & _ & H)|[(_ & _ & H)|(-> & _)]]]; [| | |lia];
        apply H in Hfind.
      * by apply Xdc.
      * by apply Xpc.
      * by apply Xic.
Qed.
